(** * The optimizer and the stack-machine code generator of the teaching
      compiler, as a shallow embedding.

    The JavaScript sources embedded here are
    [src/compiler/codegen/codegen.js] (classes [CodeGenerationResult] and
    [CodeGenerator]) and the optimizer that follows it ([OptimizationResult]
    and [Optimizer]).

    Conventions of the embedding.
    - A parse tree is the JSON value it serialises to.  [deepCloneAST] and
      [deepCloneNode] are [JSON.parse(JSON.stringify(x))]; on a JSON value
      they are the identity, and a key bound to [undefined] is the same as an
      absent key.
    - A JavaScript value that may be [undefined] is an [option value];
      [None] is [undefined].
    - A JSON number is kept as its canonical text (what [String(n)] and
      [JSON.stringify(n)] print); arithmetic on numbers is a parameter, the
      host arithmetic [HostArith].
    - A method that mutates [this.result] and may throw is a function from
      the state to a completion and the state reached; the state survives a
      throw, as the mutated object does.
    - [Date.now()] and [console.log] are left out. *)

From Stdlib Require Import String Ascii List ZArith Lia Bool Arith.
From Stdlib Require Import Decimal DecimalString.
From Stdlib Require DecimalNat DecimalFacts.
Import ListNotations.
Local Open Scope string_scope.
Local Open Scope list_scope.

(* ================================================================== *)
(** * Part I: definitions                                               *)
(* ================================================================== *)

(** ** JSON values and the JavaScript operations used on them *)

Unset Elimination Schemes.
Inductive value : Type :=
| JNull
| JBool (b : bool)
| JNum (text : string)
| JStr (s : string)
| JArr (elems : list value)
| JObj (fields : list (string * value)).
Set Elimination Schemes.

(** [obj[name]] on the entries of an object, in insertion order. *)
Fixpoint assoc {A : Type} (name : string) (fs : list (string * A)) : option A :=
  match fs with
  | [] => None
  | (k, c) :: rest => if String.eqb k name then Some c else assoc name rest
  end.

(** [map.set(name, x)]: an existing key keeps its place. *)
Fixpoint assoc_set {A : Type} (name : string) (x : A) (fs : list (string * A))
  : list (string * A) :=
  match fs with
  | [] => [(name, x)]
  | (k, c) :: rest =>
      if String.eqb k name then (k, x) :: rest else (k, c) :: assoc_set name x rest
  end.

(** [v.name] for a value that is neither [null] nor [undefined]: only
    objects have the properties the compiler reads. *)
Definition prop (name : string) (v : value) : option value :=
  match v with
  | JObj fs => assoc name fs
  | _ => None
  end.

(** JavaScript truthiness. *)
Definition truthy (v : option value) : bool :=
  match v with
  | None => false
  | Some JNull => false
  | Some (JBool b) => b
  | Some (JNum t) => negb (String.eqb t "0")
  | Some (JStr s) => negb (String.eqb s "")
  | Some (JArr _) => true
  | Some (JObj _) => true
  end.

(** [x === 'lit'] *)
Definition is_str (lit : string) (v : option value) : bool :=
  match v with
  | Some (JStr s) => String.eqb s lit
  | _ => false
  end.

(** [x === null || x === undefined]: reading a property of such a value
    throws a TypeError. *)
Definition nullish (v : option value) : bool :=
  match v with
  | None => true
  | Some JNull => true
  | Some _ => false
  end.

Fixpoint join (sep : string) (l : list string) : string :=
  match l with
  | [] => ""
  | [s] => s
  | s :: rest => s ++ sep ++ join sep rest
  end.

(** [String(v)], which is also what a template literal prints. *)
Fixpoint js_String_value (v : value) : string :=
  match v with
  | JNull => "null"
  | JBool true => "true"
  | JBool false => "false"
  | JNum t => t
  | JStr s => s
  | JArr l =>
      join ","
        ((fix items (l : list value) : list string :=
            match l with
            | [] => []
            | JNull :: rest => "" :: items rest
            | e :: rest => js_String_value e :: items rest
            end) l)
  | JObj _ => "[object Object]"
  end.

Definition js_String (v : option value) : string :=
  match v with
  | None => "undefined"
  | Some x => js_String_value x
  end.

(** [n.toString()] for a non-negative integer. *)
Definition nat_to_string (n : nat) : string :=
  NilZero.string_of_uint (Nat.to_uint n).

Fixpoint zeros (n : nat) : string :=
  match n with
  | O => ""
  | S m => "0" ++ zeros m
  end.

(** [s.padStart(4, '0')] *)
Definition padStart4 (s : string) : string :=
  zeros (4 - String.length s) ++ s.

Section OnField.
Context {A : Type} (f : value -> A) (absent : A) (name : string).

(** [f(obj[name])] when the key is there, [absent] when it is not: the
    lookup and the call in one traversal of the entries. *)
Fixpoint on_field (fs : list (string * value)) : A :=
  match fs with
  | [] => absent
  | (k, c) :: rest => if String.eqb k name then f c else on_field rest
  end.
End OnField.

(** ** Exceptions and completions *)

Inductive exn : Type :=
| Error (message : string)          (* [new Error(message)] *)
| TypeError (message : string).     (* raised by the engine; its text is the engine's *)

Definition exn_message (e : exn) : string :=
  match e with
  | Error m => m
  | TypeError m => m
  end.

Inductive completion (A : Type) : Type :=
| Normal (a : A)
| Throw (e : exn).
Arguments Normal {A} a.
Arguments Throw {A} e.

(** A computation on a mutable state [S] that may throw. *)
Definition M (S A : Type) : Type := S -> completion A * S.

Definition ret {S A : Type} (a : A) : M S A := fun s => (Normal a, s).

Definition throw {S A : Type} (e : exn) : M S A := fun s => (Throw e, s).

Definition bind {S A B : Type} (c : M S A) (k : A -> M S B) : M S B :=
  fun s =>
    match c s with
    | (Normal a, s') => k a s'
    | (Throw e, s') => (Throw e, s')
    end.

Definition modify {S : Type} (f : S -> S) : M S unit := fun s => (Normal tt, f s).

Definition gets {S A : Type} (f : S -> A) : M S A := fun s => (Normal (f s), s).

Declare Scope js_scope.
Delimit Scope js_scope with js.
Notation "x <- c ;; k" := (bind c (fun x => k))
  (at level 61, c at next level, right associativity) : js_scope.
Notation "c ;; k" := (bind c (fun _ => k))
  (at level 61, right associativity) : js_scope.
Local Open Scope js_scope.

Section ForEach.
Context {S A : Type} (f : A -> M S unit).

(** [for (const x of l) f(x)] *)
Fixpoint for_each (l : list A) : M S unit :=
  match l with
  | [] => ret tt
  | x :: rest => f x ;; for_each rest
  end.
End ForEach.

Section MapM.
Context {S A B : Type} (f : A -> M S B).

(** [l.map(x => f(x))] with the effects of [f] in order. *)
Fixpoint mapM (l : list A) : M S (list B) :=
  match l with
  | [] => ret []
  | x :: rest => y <- f x ;; ys <- mapM rest ;; ret (y :: ys)
  end.
End MapM.

(** ** The instruction model ([INSTRUCTION_SET], [CodeGenerationResult]) *)

Inductive opcode : Type :=
| LOAD | STORE | LOAD_VAR
| ADD | SUB | MUL | DIV | MOD | NEG
| EQ | NE | LT | LE | GT | GE
| AND | OR | NOT
| JMP | JZ | JNZ | CALL | RET
| PUSH | POP | DUP
| HALT | PRINT | INPUT.

Definition opcode_name (o : opcode) : string :=
  match o with
  | LOAD => "LOAD" | STORE => "STORE" | LOAD_VAR => "LOAD_VAR"
  | ADD => "ADD" | SUB => "SUB" | MUL => "MUL" | DIV => "DIV"
  | MOD => "MOD" | NEG => "NEG"
  | EQ => "EQ" | NE => "NE" | LT => "LT" | LE => "LE" | GT => "GT" | GE => "GE"
  | AND => "AND" | OR => "OR" | NOT => "NOT"
  | JMP => "JMP" | JZ => "JZ" | JNZ => "JNZ" | CALL => "CALL" | RET => "RET"
  | PUSH => "PUSH" | POP => "POP" | DUP => "DUP"
  | HALT => "HALT" | PRINT => "PRINT" | INPUT => "INPUT"
  end.

Definition opcode_eqb (a b : opcode) : bool :=
  String.eqb (opcode_name a) (opcode_name b).

(** The operand of an instruction, by where the generator takes it from. *)
Inductive operand : Type :=
| ONull                          (* [null]: no operand *)
| OImm (v : option value)        (* [node.value] of a literal, as found *)
| OAddr (a : option nat)         (* [symbolTable.get(name)]; [None] is [undefined] *)
| ONum (n : nat)                 (* a number written in the generator: [PUSH 0] *)
| OLabel (l : string).           (* a label name *)

(** [operand !== null] *)
Definition operand_not_null (o : operand) : bool :=
  match o with
  | ONull => false
  | OImm (Some JNull) => false
  | _ => true
  end.

(** [`${operand}`] *)
Definition operand_text (o : operand) : string :=
  match o with
  | ONull => "null"
  | OImm v => js_String v
  | OAddr None => "undefined"
  | OAddr (Some a) => nat_to_string a
  | ONum n => nat_to_string n
  | OLabel l => l
  end.

Record instruction : Type := mkInstruction {
  address : nat;
  opcode_of : opcode;
  operand_of : operand;
  comment : string
}.

Record error_record : Type := mkError {
  error_type : string;
  error_message : string
  (* [location] is [error.location || null]: always [null] here *)
}.

Record warning_record : Type := mkWarning {
  warning_type : string;
  warning_message : string;
  warning_location : option value
}.

Record gen_statistics : Type := mkGenStatistics {
  instructionCount : nat;
  variableCount : nat;
  labelCount : nat
}.

Record CodeGenerationResult : Type := mkResult {
  success : bool;
  instructions : list instruction;
  assembly : string;
  symbolTable : list (string * nat);
  labelTable : list (string * nat);
  errors : list error_record;
  warnings : list warning_record;
  statistics : gen_statistics
}.

(** [new CodeGenerationResult()] *)
Definition new_result : CodeGenerationResult :=
  {| success := false; instructions := []; assembly := "";
     symbolTable := []; labelTable := []; errors := []; warnings := [];
     statistics := {| instructionCount := 0; variableCount := 0; labelCount := 0 |} |}.

(** The default [operand = null] of [addInstruction]: an argument that is
    [undefined] becomes [null]. *)
Definition operand_or_null (arg : operand) : operand :=
  match arg with
  | OImm None => ONull
  | OAddr None => ONull
  | _ => arg
  end.

Definition addInstruction (op : opcode) (arg : operand) (cmt : string)
  (r : CodeGenerationResult) : CodeGenerationResult :=
  {| success := success r;
     instructions :=
       instructions r ++
       [ {| address := List.length (instructions r); opcode_of := op;
            operand_of := operand_or_null arg; comment := cmt |} ];
     assembly := assembly r;
     symbolTable := symbolTable r;
     labelTable := labelTable r;
     errors := errors r;
     warnings := warnings r;
     statistics :=
       {| instructionCount := S (instructionCount (statistics r));
          variableCount := variableCount (statistics r);
          labelCount := labelCount (statistics r) |} |}.

Definition addLabel (name : string) (r : CodeGenerationResult) : CodeGenerationResult :=
  {| success := success r;
     instructions := instructions r;
     assembly := assembly r;
     symbolTable := symbolTable r;
     labelTable := assoc_set name (List.length (instructions r)) (labelTable r);
     errors := errors r;
     warnings := warnings r;
     statistics :=
       {| instructionCount := instructionCount (statistics r);
          variableCount := variableCount (statistics r);
          labelCount := S (labelCount (statistics r)) |} |}.

Definition addVariable (name : string) (addr : nat) (r : CodeGenerationResult)
  : CodeGenerationResult :=
  {| success := success r;
     instructions := instructions r;
     assembly := assembly r;
     symbolTable := assoc_set name addr (symbolTable r);
     labelTable := labelTable r;
     errors := errors r;
     warnings := warnings r;
     statistics :=
       {| instructionCount := instructionCount (statistics r);
          variableCount := S (variableCount (statistics r));
          labelCount := labelCount (statistics r) |} |}.

Definition push_warning (w : warning_record) (r : CodeGenerationResult)
  : CodeGenerationResult :=
  {| success := success r; instructions := instructions r; assembly := assembly r;
     symbolTable := symbolTable r; labelTable := labelTable r; errors := errors r;
     warnings := warnings r ++ [w]; statistics := statistics r |}.

Definition push_error (e : error_record) (r : CodeGenerationResult)
  : CodeGenerationResult :=
  {| success := success r; instructions := instructions r; assembly := assembly r;
     symbolTable := symbolTable r; labelTable := labelTable r;
     errors := errors r ++ [e];
     warnings := warnings r; statistics := statistics r |}.

Definition set_success (b : bool) (r : CodeGenerationResult) : CodeGenerationResult :=
  {| success := b; instructions := instructions r; assembly := assembly r;
     symbolTable := symbolTable r; labelTable := labelTable r; errors := errors r;
     warnings := warnings r; statistics := statistics r |}.

Definition set_assembly (a : string) (r : CodeGenerationResult) : CodeGenerationResult :=
  {| success := success r; instructions := instructions r; assembly := a;
     symbolTable := symbolTable r; labelTable := labelTable r; errors := errors r;
     warnings := warnings r; statistics := statistics r |}.

Definition set_instructions (l : list instruction) (r : CodeGenerationResult)
  : CodeGenerationResult :=
  {| success := success r; instructions := l; assembly := assembly r;
     symbolTable := symbolTable r; labelTable := labelTable r; errors := errors r;
     warnings := warnings r; statistics := statistics r |}.

Definition set_labelTable (t : list (string * nat)) (r : CodeGenerationResult)
  : CodeGenerationResult :=
  {| success := success r; instructions := instructions r; assembly := assembly r;
     symbolTable := symbolTable r; labelTable := t; errors := errors r;
     warnings := warnings r; statistics := statistics r |}.

(** One line of the listing, for one instruction. *)
Definition instruction_line (i : instruction) : string :=
  (padStart4 (nat_to_string (address i)) ++ ": " ++ opcode_name (opcode_of i)
   ++ (if operand_not_null (operand_of i) then " " ++ operand_text (operand_of i) else "")
   ++ (if negb (String.eqb (comment i) "") then " ; " ++ comment i else ""))%string.

(** The lines [generateAssembly] collects before joining them. *)
Definition assembly_lines (r : CodeGenerationResult) : list string :=
  [ "; 编译器生成的汇编代码"; "; 目标机：基于栈的虚拟机"; "" ]
  ++ (if Nat.ltb 0 (List.length (symbolTable r))
      then [ "; 符号表:" ]
           ++ map (fun e : string * nat =>
                    ("; " ++ fst e ++ " -> " ++ nat_to_string (snd e))%string)
                 (symbolTable r)
           ++ [ "" ]
      else [])
  ++ map instruction_line (instructions r).

Definition newline : string := String (ascii_of_nat 10) "".

Definition generateAssembly (r : CodeGenerationResult) : CodeGenerationResult :=
  set_assembly (join newline (assembly_lines r)) r.

(** ** The code generator ([CodeGenerator]) *)

(** [this.options]; [targetMachine] and [stackSize] are never read. *)
Record options : Type := mkOptions {
  optimizeCode : bool;
  generateComments : bool
}.

Definition default_options : options :=
  {| optimizeCode := true; generateComments := true |}.

(** The fields of the generator that a run mutates. *)
Record generator : Type := mkGenerator {
  result : CodeGenerationResult;
  currentAddress : nat;
  labelCounter : nat;
  tempCounter : nat
}.

Definition Gen (A : Type) : Type := M generator A.

Definition on_result (f : CodeGenerationResult -> CodeGenerationResult) : Gen unit :=
  modify (fun g =>
    {| result := f (result g); currentAddress := currentAddress g;
       labelCounter := labelCounter g; tempCounter := tempCounter g |}).

(** [this.result.addInstruction(op, arg, cmt)] *)
Definition emit (op : opcode) (arg : operand) (cmt : string) : Gen unit :=
  on_result (addInstruction op arg cmt).

(** [this.result.symbolTable.get(key)]: the keys of the table are strings. *)
Definition table_get (t : list (string * nat)) (key : option value) : option nat :=
  match key with
  | Some (JStr s) => assoc s t
  | _ => None
  end.

(** [x.name] for [x] that is not nullish. *)
Definition prop_of (name : string) (x : option value) : option value :=
  match x with
  | Some v => prop name v
  | None => None
  end.

Definition generateLabel (prefix : string) : Gen string :=
  fun g =>
    (Normal (prefix ++ "_" ++ nat_to_string (labelCounter g))%string,
     {| result := result g; currentAddress := currentAddress g;
        labelCounter := S (labelCounter g); tempCounter := tempCounter g |}).

Definition generateProgramEntry : Gen unit :=
  emit PUSH (ONum 0) "程序开始，初始化栈帧".

Definition generateProgramExit : Gen unit :=
  emit HALT ONull "程序结束".

(** The [switch] of [generateBinaryExpression]. *)
Definition binary_opcode (operator : option value) : option opcode :=
  if is_str "+" operator then Some ADD
  else if is_str "-" operator then Some SUB
  else if is_str "*" operator then Some MUL
  else if is_str "/" operator then Some DIV
  else if is_str "%" operator then Some MOD
  else if is_str "==" operator then Some EQ
  else if is_str "!=" operator then Some NE
  else if is_str "<" operator then Some LT
  else if is_str "<=" operator then Some LE
  else if is_str ">" operator then Some GT
  else if is_str ">=" operator then Some GE
  else if is_str "&&" operator then Some AND
  else if is_str "||" operator then Some OR
  else None.

(** The [switch] of [generateUnaryExpression]. *)
Definition unary_opcode (operator : option value) : option opcode :=
  if is_str "-" operator then Some NEG
  else if is_str "!" operator then Some NOT
  else None.

Definition undefined_variable (varName : option value) : exn :=
  Error ("未定义的变量: " ++ js_String varName).

(** The TypeError of the engine for [x.name] where [x] is [null] or
    [undefined]; its text says which of the two [x] is. *)
Definition cannot_read (x : option value) (name : string) : exn :=
  TypeError ("Cannot read properties of " ++ js_String x
             ++ " (reading '" ++ name ++ "')").

(** The [default] case of the [switch] of [generateNode]. *)
Definition unsupported_node (node : value) : Gen unit :=
  on_result (push_warning
    {| warning_type := "unsupported_node";
       warning_message := "不支持的节点类型: " ++ js_String (prop "type" node);
       warning_location := prop "location" node |}).

Section Generators.
(** [this.generateNode], for the calls the node generators make on the
    children of their node. *)
Variable generateNode : value -> Gen unit.

(** [this.generateNode(node[name])]; an absent child is [undefined], for
    which [generateNode] returns at once. *)
Definition generateChild (name : string) (fs : list (string * value)) : Gen unit :=
  on_field generateNode (ret tt) name fs.

(** [if (node.body && Array.isArray(node.body)) for (const statement of node.body) ...] *)
Definition generateStatements (fs : list (string * value)) : Gen unit :=
  on_field
    (fun body =>
       match body with
       | JArr stmts => for_each generateNode stmts
       | _ => ret tt
       end)
    (ret tt) "body" fs.

Definition generateProgram (fs : list (string * value)) : Gen unit :=
  generateStatements fs.

(** The body of the loop of [generateVariableDeclaration], for one
    [declaration]. *)
Definition generateDeclarator (declaration : value) : Gen unit :=
  match declaration with
  | JNull => throw (TypeError "Cannot read properties of null (reading 'init')")
  | JObj dfs =>
      on_field
        (fun init =>
           if truthy (Some init) then
             generateNode init ;;
             let id := assoc "id" dfs in
             if nullish id then
               throw (cannot_read id "name")
             else
               let varName := prop_of "name" id in
               table <- gets (fun g => symbolTable (result g)) ;;
               emit STORE (OAddr (table_get table varName))
                    ("存储到变量 " ++ js_String varName)
           else ret tt)
        (ret tt) "init" dfs
  | _ => ret tt
  end.

Definition generateVariableDeclaration (fs : list (string * value)) : Gen unit :=
  on_field
    (fun declarations =>
       if truthy (Some declarations) then
         match declarations with
         | JArr ds => for_each generateDeclarator ds
         | JStr _ => ret tt   (* its characters have no [init] *)
         | _ => throw (TypeError "node.declarations is not iterable")
         end
       else ret tt)
    (ret tt) "declarations" fs.

Definition generateAssignment (fs : list (string * value)) : Gen unit :=
  generateChild "right" fs ;;
  let left := assoc "left" fs in
  if nullish left then
    throw (cannot_read left "type")
  else if is_str "Identifier" (prop_of "type" left) then
    let varName := prop_of "name" left in
    table <- gets (fun g => symbolTable (result g)) ;;
    match table_get table varName with
    | Some addr => emit STORE (OAddr (Some addr)) ("赋值给变量 " ++ js_String varName)
    | None => throw (undefined_variable varName)
    end
  else ret tt.

Definition generateBinaryExpression (fs : list (string * value)) : Gen unit :=
  generateChild "left" fs ;;
  generateChild "right" fs ;;
  let operator := assoc "operator" fs in
  match binary_opcode operator with
  | Some instr => emit instr ONull (js_String operator ++ " 运算")
  | None => throw (Error ("不支持的二元运算符: " ++ js_String operator))
  end.

Definition generateUnaryExpression (fs : list (string * value)) : Gen unit :=
  generateChild "argument" fs ;;
  let operator := assoc "operator" fs in
  match unary_opcode operator with
  | Some instr => emit instr ONull (js_String operator ++ " 运算")
  | None => throw (Error ("不支持的一元运算符: " ++ js_String operator))
  end.

Definition generateLiteral (fs : list (string * value)) : Gen unit :=
  emit LOAD (OImm (assoc "value" fs)) ("加载常量 " ++ js_String (assoc "value" fs)).

Definition generateIdentifier (fs : list (string * value)) : Gen unit :=
  let varName := assoc "name" fs in
  table <- gets (fun g => symbolTable (result g)) ;;
  match table_get table varName with
  | Some addr => emit LOAD_VAR (OAddr (Some addr)) ("加载变量 " ++ js_String varName)
  | None => throw (undefined_variable varName)
  end.

Definition generateIfStatement (fs : list (string * value)) : Gen unit :=
  elseLabel <- generateLabel "else" ;;
  endLabel <- generateLabel "endif" ;;
  generateChild "test" fs ;;
  emit JZ (OLabel elseLabel) "if条件为假时跳转" ;;
  generateChild "consequent" fs ;;
  emit JMP (OLabel endLabel) "跳转到if语句结束" ;;
  on_result (addLabel elseLabel) ;;
  generateChild "alternate" fs ;;
  on_result (addLabel endLabel).

Definition generateWhileStatement (fs : list (string * value)) : Gen unit :=
  loopLabel <- generateLabel "loop" ;;
  endLabel <- generateLabel "endloop" ;;
  on_result (addLabel loopLabel) ;;
  generateChild "test" fs ;;
  emit JZ (OLabel endLabel) "while条件为假时跳出循环" ;;
  generateChild "body" fs ;;
  emit JMP (OLabel loopLabel) "跳回循环开始" ;;
  on_result (addLabel endLabel).

Definition generateBlockStatement (fs : list (string * value)) : Gen unit :=
  generateStatements fs.

Definition generateExpressionStatement (fs : list (string * value)) : Gen unit :=
  generateChild "expression" fs ;;
  emit POP ONull "弹出表达式结果".

Definition generatePrintStatement (fs : list (string * value)) : Gen unit :=
  generateChild "expression" fs ;;
  emit PRINT ONull "打印输出".

(** The [switch (node.type)] of [generateNode], for a node that is an
    object with the entries [fs]. *)
Definition generateNode_switch (node : value) (fs : list (string * value)) : Gen unit :=
  let type := assoc "type" fs in
  if is_str "Program" type then generateProgram fs
  else if is_str "VariableDeclaration" type then generateVariableDeclaration fs
  else if is_str "AssignmentExpression" type then generateAssignment fs
  else if is_str "BinaryExpression" type then generateBinaryExpression fs
  else if is_str "UnaryExpression" type then generateUnaryExpression fs
  else if is_str "Literal" type then generateLiteral fs
  else if is_str "Identifier" type then generateIdentifier fs
  else if is_str "IfStatement" type then generateIfStatement fs
  else if is_str "WhileStatement" type then generateWhileStatement fs
  else if is_str "BlockStatement" type then generateBlockStatement fs
  else if is_str "ExpressionStatement" type then generateExpressionStatement fs
  else if is_str "PrintStatement" type then generatePrintStatement fs
  else unsupported_node node.
End Generators.

Fixpoint generateNode (node : value) : Gen unit :=
  if negb (truthy (Some node)) then ret tt
  else
    match node with
    | JObj fs => generateNode_switch generateNode node fs
    | _ => unsupported_node node
    end.

(** [this.generateNode(ast)] for an argument that may be [undefined]. *)
Definition generateNode_opt (ast : option value) : Gen unit :=
  match ast with
  | Some node => generateNode node
  | None => ret tt
  end.

(** The loop of [initializeSymbolTable], with its local counter [address]. *)
Fixpoint initializeSymbolTable_from (addr : nat) (entries : list (string * value))
  : Gen unit :=
  match entries with
  | [] => ret tt
  | (name, info) :: rest =>
      if nullish (Some info) then
        throw (TypeError "Cannot read properties of null (reading 'type')")
      else if is_str "variable" (prop "type" info) then
        on_result (addVariable name addr) ;;
        initializeSymbolTable_from (S addr) rest
      else initializeSymbolTable_from addr rest
  end.

Definition initializeSymbolTable (entries : list (string * value)) : Gen unit :=
  initializeSymbolTable_from 0 entries.

(** *** The peephole pass *)

Definition is_push_pop (current next : instruction) : bool :=
  opcode_eqb (opcode_of current) PUSH && opcode_eqb (opcode_of next) POP.

(** [instrs.splice(i, 2)] *)
Definition splice2 (i : nat) (instrs : list instruction) : list instruction :=
  firstn i instrs ++ skipn (i + 2) instrs.

(** The [for] loop of [optimizeInstructions], from the test of its
    condition on.  Every iteration either deletes two instructions or
    advances [i]; [fuel] bounds the number of iterations. *)
Fixpoint peephole_loop (fuel : nat) (instrs : list instruction) (i : Z) (optimized : bool)
  : list instruction * bool :=
  match fuel with
  | O => (instrs, optimized)
  | S fuel' =>
      if (i <? Z.of_nat (List.length instrs) - 1)%Z then
        match nth_error instrs (Z.to_nat i), nth_error instrs (Z.to_nat (i + 1)) with
        | Some current, Some next =>
            if is_push_pop current next then
              (* splice; optimized = true; i--; and the loop's i++ *)
              peephole_loop fuel' (splice2 (Z.to_nat i) instrs) (i - 1 + 1)%Z true
            else peephole_loop fuel' instrs (i + 1)%Z optimized
        | _, _ => (instrs, optimized)
        end
      else (instrs, optimized)
  end.

Definition set_address (a : nat) (i : instruction) : instruction :=
  {| address := a; opcode_of := opcode_of i; operand_of := operand_of i;
     comment := comment i |}.

(** [for (i = 0; i < instrs.length; i++) instrs[i].address = i], from [i]. *)
Fixpoint renumber_from (i : nat) (instrs : list instruction) : list instruction :=
  match instrs with
  | [] => []
  | x :: rest => set_address i x :: renumber_from (S i) rest
  end.

Definition updateInstructionAddresses (r : CodeGenerationResult) : CodeGenerationResult :=
  let r1 := set_instructions (renumber_from 0 (instructions r)) r in
  (* every label is set again to the address it already has *)
  set_labelTable
    (fold_left (fun t e => assoc_set (fst e) (snd e) t) (labelTable r1) (labelTable r1))
    r1.

Definition optimizeInstructions (opts : options) (r : CodeGenerationResult)
  : CodeGenerationResult :=
  if negb (optimizeCode opts) then r
  else
    let '(instrs, optimized) :=
      peephole_loop (List.length (instructions r)) (instructions r) 0%Z false in
    let r1 := set_instructions instrs r in
    if optimized then updateInstructionAddresses r1 else r1.

(** *** [generate] *)

(** The body of the [try] block. *)
Definition generate_body (opts : options) (ast : option value)
  (symtab : option (list (string * value))) : Gen unit :=
  match symtab with
  | Some entries => initializeSymbolTable entries
  | None => ret tt
  end ;;
  generateProgramEntry ;;
  generateNode_opt ast ;;
  generateProgramExit ;;
  on_result generateAssembly ;;
  (if optimizeCode opts then on_result (optimizeInstructions opts) else ret tt) ;;
  on_result (set_success true).

Definition new_generator : generator :=
  {| result := new_result; currentAddress := 0; labelCounter := 0; tempCounter := 0 |}.

(** The [catch] block. *)
Definition generation_error (e : exn) (r : CodeGenerationResult) : CodeGenerationResult :=
  set_success false
    (push_error {| error_type := "generation_error"; error_message := exn_message e |} r).

Definition generate (opts : options) (ast : option value)
  (symtab : option (list (string * value))) : CodeGenerationResult :=
  match generate_body opts ast symtab new_generator with
  | (Normal _, g) => result g
  | (Throw e, g) => generation_error e (result g)
  end.

(** ** The host arithmetic *)

(** The numbers of the host and the operations the optimizer applies to
    them.  The optimizer is embedded for every host; the host of the
    sources is IEEE 754 double precision. *)
Class HostArith : Type := mkHost {
  num : Type;
  parseFloat : string -> num;        (* [parseFloat(text)] *)
  num_toString : num -> string;      (* [x.toString()] and [`${x}`] *)
  num_add : num -> num -> num;       (* [x + y] *)
  num_sub : num -> num -> num;       (* [x - y] *)
  num_mul : num -> num -> num;       (* [x * y] *)
  num_div : num -> num -> num;       (* [x / y] *)
  num_rem : num -> num -> num;       (* [x % y] *)
  is_zero : num -> bool;             (* [x === 0] *)
  is_one : num -> bool               (* [x === 1] *)
}.

(** The host on decimal integer literals, for running examples: it computes
    as the host of the sources does while the operands and the result are
    integers (below 2^53); every other number, NaN included, is [None]. *)
Definition parse_integer (text : string) : option Z :=
  match NilZero.int_of_string text with
  | Some i => if String.eqb text "" then None else Some (Z.of_int i)
  | None => None
  end.

Definition print_integer (x : option Z) : string :=
  match x with
  | Some z => NilZero.string_of_int (Z.to_int z)
  | None => "NaN"
  end.

Definition lift2 (f : Z -> Z -> Z) (x y : option Z) : option Z :=
  match x, y with
  | Some a, Some b => Some (f a b)
  | _, _ => None
  end.

Definition integer_host : HostArith :=
  {| num := option Z;
     parseFloat := parse_integer;
     num_toString := print_integer;
     num_add := lift2 Z.add;
     num_sub := lift2 Z.sub;
     num_mul := lift2 Z.mul;
     num_div := fun x y =>
       match x, y with
       | Some a, Some b =>
           if (b =? 0)%Z then None
           else if (Z.rem a b =? 0)%Z then Some (Z.quot a b) else None
       | _, _ => None
       end;
     num_rem := fun x y =>
       match x, y with
       | Some a, Some b => if (b =? 0)%Z then None else Some (Z.rem a b)
       | _, _ => None
       end;
     is_zero := fun x => match x with Some z => (z =? 0)%Z | None => false end;
     is_one := fun x => match x with Some z => (z =? 1)%Z | None => false end |}.

(** ** The optimizer ([OptimizationResult], [Optimizer]) *)

Module Opt.

(** The counters of [statistics] that [addOptimization] is called with. *)
Inductive counter : Type :=
| constantFoldings_
| algebraicSimplifications_
| commonSubexpressionEliminations_
| deadCodeEliminations_.

(** [getNodeInfo(node)] *)
Record node_info : Type := mkNodeInfo {
  info_type : option value;
  info_line : value;
  info_column : value
}.

(** An entry of [optimizations]; its [timestamp] is left out. *)
Record optimization : Type := mkOptimization {
  type : counter;
  description : string;
  node : node_info
}.

Record opt_statistics : Type := mkStatistics {
  constantFoldings : nat;
  algebraicSimplifications : nat;
  commonSubexpressionEliminations : nat;
  deadCodeEliminations : nat;
  totalOptimizations : nat
}.

Record opt_error : Type := mkOptError {
  message : string;
  line : nat;
  column : nat
}.

Record OptimizationResult : Type := mkOptimizationResult {
  success : bool;
  optimizedAST : option value;
  optimizations : list optimization;
  statistics : opt_statistics;
  errors : list opt_error;
  warnings : list string
}.

(** [new OptimizationResult()] *)
Definition new_result : OptimizationResult :=
  {| success := false; optimizedAST := Some JNull; optimizations := [];
     statistics := {| constantFoldings := 0; algebraicSimplifications := 0;
                      commonSubexpressionEliminations := 0; deadCodeEliminations := 0;
                      totalOptimizations := 0 |};
     errors := []; warnings := [] |}.

(** [x || 0] *)
Definition or_zero (x : option value) : value :=
  match x with
  | Some v => if truthy x then v else JNum "0"
  | None => JNum "0"
  end.

Definition getNodeInfo (n : value) : node_info :=
  {| info_type := prop "type" n;
     info_line := or_zero (prop "line" n);
     info_column := or_zero (prop "column" n) |}.

(** [this.statistics[type]++] *)
Definition increment (c : counter) (s : opt_statistics) : opt_statistics :=
  match c with
  | constantFoldings_ =>
      {| constantFoldings := S (constantFoldings s);
         algebraicSimplifications := algebraicSimplifications s;
         commonSubexpressionEliminations := commonSubexpressionEliminations s;
         deadCodeEliminations := deadCodeEliminations s;
         totalOptimizations := totalOptimizations s |}
  | algebraicSimplifications_ =>
      {| constantFoldings := constantFoldings s;
         algebraicSimplifications := S (algebraicSimplifications s);
         commonSubexpressionEliminations := commonSubexpressionEliminations s;
         deadCodeEliminations := deadCodeEliminations s;
         totalOptimizations := totalOptimizations s |}
  | commonSubexpressionEliminations_ =>
      {| constantFoldings := constantFoldings s;
         algebraicSimplifications := algebraicSimplifications s;
         commonSubexpressionEliminations := S (commonSubexpressionEliminations s);
         deadCodeEliminations := deadCodeEliminations s;
         totalOptimizations := totalOptimizations s |}
  | deadCodeEliminations_ =>
      {| constantFoldings := constantFoldings s;
         algebraicSimplifications := algebraicSimplifications s;
         commonSubexpressionEliminations := commonSubexpressionEliminations s;
         deadCodeEliminations := S (deadCodeEliminations s);
         totalOptimizations := totalOptimizations s |}
  end.

Definition increment_total (s : opt_statistics) : opt_statistics :=
  {| constantFoldings := constantFoldings s;
     algebraicSimplifications := algebraicSimplifications s;
     commonSubexpressionEliminations := commonSubexpressionEliminations s;
     deadCodeEliminations := deadCodeEliminations s;
     totalOptimizations := S (totalOptimizations s) |}.

Definition addOptimization (c : counter) (text : string) (n : value)
  (r : OptimizationResult) : OptimizationResult :=
  {| success := success r;
     optimizedAST := optimizedAST r;
     optimizations :=
       optimizations r ++ [ {| type := c; description := text; node := getNodeInfo n |} ];
     statistics := increment_total (increment c (statistics r));
     errors := errors r;
     warnings := warnings r |}.

Definition addError (e : opt_error) (r : OptimizationResult) : OptimizationResult :=
  {| success := success r; optimizedAST := optimizedAST r;
     optimizations := optimizations r; statistics := statistics r;
     errors := errors r ++ [e]; warnings := warnings r |}.

Definition addWarning (w : string) (r : OptimizationResult) : OptimizationResult :=
  {| success := success r; optimizedAST := optimizedAST r;
     optimizations := optimizations r; statistics := statistics r;
     errors := errors r; warnings := warnings r ++ [w] |}.

(** [this.options] *)
Record options : Type := mkOptions {
  enableConstantFolding : bool;
  enableAlgebraicSimplification : bool;
  enableCommonSubexpressionElimination : bool;
  enableDeadCodeElimination : bool;
  maxOptimizationPasses : nat;
  generateOptimizationReport : bool
}.

Definition default_options : options :=
  {| enableConstantFolding := true; enableAlgebraicSimplification := true;
     enableCommonSubexpressionElimination := true; enableDeadCodeElimination := true;
     maxOptimizationPasses := 3; generateOptimizationReport := true |}.

(** The fields of the optimizer that its methods mutate. *)
Record Optimizer : Type := mkOptimizer {
  optimizationCount : nat;
  currentPass : nat
}.

(** [new Optimizer(options)] *)
Definition new_optimizer : Optimizer := {| optimizationCount := 0; currentPass := 0 |}.

(** What a pass works on: the optimizer and the [result] it is given. *)
Record pass_state : Type := mkPassState {
  this : Optimizer;
  result : OptimizationResult
}.

Definition Pass (A : Type) : Type := M pass_state A.

(** [result.addOptimization(c, text, n); this.optimizationCount++;] *)
Definition record_optimization (c : counter) (text : string) (n : value) : Pass unit :=
  modify (fun s =>
    {| this := {| optimizationCount := S (optimizationCount (this s));
                  currentPass := currentPass (this s) |};
       result := addOptimization c text n (result s) |}).

(** [result.addWarning(w)] *)
Definition warn (w : string) : Pass unit :=
  modify (fun s => {| this := this s; result := addWarning w (result s) |}).

(** [JSON.parse(JSON.stringify(x))] *)
Definition deepCloneAST (ast : value) : value := ast.
Definition deepCloneNode (n : value) : value := n.

Definition optional (key : string) (x : option value) : list (string * value) :=
  match x with
  | Some v => [(key, v)]
  | None => []
  end.

(** The literal [{ type: 'NumericLiteral', value: text, line: n.line,
    column: n.column }] that replaces the node [n]. *)
Definition foldedNode (text : string) (n_line n_column : option value) : value :=
  JObj ([("type", JStr "NumericLiteral"); ("value", JStr text)]
        ++ optional "line" n_line ++ optional "column" n_column).

Definition read_of_nullish (what name : string) : exn :=
  TypeError ("Cannot read properties of " ++ what ++ " (reading '" ++ name ++ "')").

Section Children.
Context {S : Type} (pass : value -> M S (option value)).

(** [optimizedNode[key] = pass(optimizedNode[key])] for every key whose
    value is an array or an object ([pass] returns every other value as it
    is); a key set to [undefined] is an absent key. *)
Fixpoint map_fields (fs : list (string * value)) : M S (list (string * value)) :=
  match fs with
  | [] => ret []
  | (k, c) :: rest =>
      r <- pass c ;;
      rest' <- map_fields rest ;;
      ret (match r with
           | Some c' => (k, c') :: rest'
           | None => rest'
           end)
  end.

(** [array.map(child => pass(child))]; an element [undefined] is [null] in
    the JSON of the array. *)
Fixpoint map_elems (l : list value) : M S (list value) :=
  match l with
  | [] => ret []
  | c :: rest =>
      r <- pass c ;;
      rest' <- map_elems rest ;;
      ret (match r with
           | Some c' => c' :: rest'
           | None => JNull :: rest'
           end)
  end.
End Children.

(** *** Detection of common subexpressions *)

(** [getExpressionKey(expr)]; the key of a binary expression is a string,
    every other key is the value of a property of the node. *)
Fixpoint getExpressionKey (expr : value) : option value :=
  if negb (truthy (Some expr)) then Some (JStr (js_String_value expr))
  else
    match expr with
    | JObj fs =>
        if is_str "BinaryExpression" (assoc "type" fs) then
          let undefinedKey := Some (JStr "undefined") in
          let leftKey := on_field getExpressionKey undefinedKey "left" fs in
          let rightKey := on_field getExpressionKey undefinedKey "right" fs in
          Some (JStr (js_String leftKey ++ js_String (assoc "operator" fs)
                      ++ js_String rightKey))
        else if is_str "Identifier" (assoc "type" fs) then assoc "name" fs
        else if is_str "NumericLiteral" (assoc "type" fs) then assoc "value" fs
        else assoc "type" fs
    | JArr _ => None
    | atom => Some (JStr (js_String_value atom))
    end.

(** The state of [findCommonExpressions]: the [expressionMap] of the call
    of [commonSubexpressionElimination], and what every pass works on. *)
Record cse_state : Type := mkCseState {
  expressionMap : list (string * value);
  outer : pass_state
}.

(** The part of [findCommonExpressions] that follows the traversal of the
    children. *)
Definition detect_node (fs : list (string * value)) : M cse_state (option value) :=
  let currentNode := JObj fs in
  if is_str "BinaryExpression" (assoc "type" fs) then
    let exprKey := js_String (getExpressionKey currentNode) in
    fun s =>
      match assoc exprKey (expressionMap s) with
      | Some _ =>
          let (_, o) :=
            record_optimization commonSubexpressionEliminations_
              ("Found common subexpression: " ++ exprKey) currentNode (outer s) in
          (Normal (Some currentNode), {| expressionMap := expressionMap s; outer := o |})
      | None =>
          (Normal (Some currentNode),
           {| expressionMap := assoc_set exprKey currentNode (expressionMap s);
              outer := outer s |})
      end
  else ret (Some currentNode).

Fixpoint findCommonExpressions (currentNode : value) : M cse_state (option value) :=
  match currentNode with
  | JObj fs => fs' <- map_fields findCommonExpressions fs ;; detect_node fs'
  | JArr l => l' <- map_elems findCommonExpressions l ;; ret (Some (JArr l'))
  | atom => ret (Some atom)
  end.

Definition commonSubexpressionElimination (n : value) : Pass (option value) :=
  fun s =>
    let (out, s') :=
      findCommonExpressions (deepCloneNode n) {| expressionMap := []; outer := s |} in
    (out, outer s').

(** *** Elimination of dead code *)

(** The test of the [filter] of [deadCodeElimination], for a statement
    that is not [null]. *)
Definition is_dead (stmt : value) : bool :=
  is_str "ExpressionStatement" (prop "type" stmt)
  && truthy (prop "expression" stmt)
  && is_str "NumericLiteral" (prop_of "type" (prop "expression" stmt)).

(** The callback of the [filter], for its effects. *)
Definition filter_statement (stmt : value) : Pass unit :=
  if nullish (Some stmt) then throw (read_of_nullish "null" "type")
  else if is_dead stmt then
    record_optimization deadCodeEliminations_
      "Removed dead code: standalone numeric literal" stmt
  else ret tt.

Section Kept.
Context (pass : value -> Pass (option value)).

(** [body.filter(...).map(stmt => pass(stmt))], once the filter has run
    over the whole of [body]: the statements it dropped are skipped. *)
Fixpoint map_kept (body : list value) : Pass (list value) :=
  match body with
  | [] => ret []
  | stmt :: rest =>
      if is_dead stmt then map_kept rest
      else
        r <- pass stmt ;;
        rest' <- map_kept rest ;;
        ret (match r with
             | Some stmt' => stmt' :: rest'
             | None => JNull :: rest'
             end)
  end.

(** The two assignments to [optimizedNode.body]. *)
Definition eliminate_in_body (body : value) : Pass value :=
  match body with
  | JArr stmts =>
      for_each filter_statement stmts ;;
      stmts' <- map_kept stmts ;;
      ret (JArr stmts')
  | _ => throw (TypeError "optimizedNode.body.filter is not a function")
  end.

(** The same, at the key [body] of the entries of a Program. *)
Fixpoint eliminate_in_program (fs : list (string * value)) : Pass (list (string * value)) :=
  match fs with
  | [] => ret []
  | (k, c) :: rest =>
      if String.eqb k "body" then
        c' <- eliminate_in_body c ;; ret ((k, c') :: rest)
      else
        rest' <- eliminate_in_program rest ;; ret ((k, c) :: rest')
  end.
End Kept.

Fixpoint deadCodeElimination (n : value) : Pass (option value) :=
  match deepCloneNode n with
  | JObj fs =>
      if is_str "Program" (assoc "type" fs) && truthy (assoc "body" fs) then
        fs' <- eliminate_in_program deadCodeElimination fs ;; ret (Some (JObj fs'))
      else
        fs' <- map_fields deadCodeElimination fs ;; ret (Some (JObj fs'))
  | JArr l => l' <- map_elems deadCodeElimination l ;; ret (Some (JArr l'))
  | atom => ret (Some atom)
  end.

(** *** Notions used in the statements about the optimizer *)

(** What a pass does to its state: it records an optimization (a log
    entry, its counter, the total and [optimizationCount]) or a warning. *)
Inductive event : Type :=
| Recorded (c : counter) (text : string) (n : value)
| Warned (w : string).

Definition apply_event (s : pass_state) (e : event) : pass_state :=
  match e with
  | Recorded c text n => snd (record_optimization c text n s)
  | Warned w => snd (warn w s)
  end.

Definition apply_events (es : list event) (s : pass_state) : pass_state :=
  fold_left apply_event es s.

(** The number of optimizations among the events. *)
Fixpoint recorded (es : list event) : nat :=
  match es with
  | [] => 0
  | Recorded _ _ _ :: rest => S (recorded rest)
  | Warned _ :: rest => recorded rest
  end.

(** The computation [c] completes with [out] after the events [es],
    whatever the state it starts from. *)
Definition writes {A : Type} (c : Pass A) (out : completion A) (es : list event) : Prop :=
  forall s, c s = (out, apply_events es s).

(** The kind-specific fields the passes read: the kind tag of a node is a
    string, a BinaryExpression has both operands, and the body of a Program
    is a list of statements. *)
Definition well_formed_node (fs : list (string * value)) : bool :=
  match assoc "type" fs with
  | None => true
  | Some (JStr kind) =>
      (if String.eqb kind "BinaryExpression"
       then negb (nullish (assoc "left" fs)) && negb (nullish (assoc "right" fs))
       else true)
      && (if String.eqb kind "Program" && truthy (assoc "body" fs)
          then match assoc "body" fs with
               | Some (JArr stmts) => forallb (fun s => negb (nullish (Some s))) stmts
               | _ => false
               end
          else true)
  | Some _ => false
  end.

Fixpoint well_formed (v : value) : bool :=
  match v with
  | JArr l => forallb well_formed l
  | JObj fs =>
      (fix all (fs : list (string * value)) : bool :=
         match fs with
         | [] => true
         | (_, c) :: rest => well_formed c && all rest
         end) fs
      && well_formed_node fs
  | _ => true
  end.

(** What a pass keeps of the shape of a tree: a value that is neither an
    array nor an object as it is, an array as an array, with no [null]
    among its elements if there was none, and an object as something that
    is not [null]. *)
Definition shape_kept (v v' : value) : Prop :=
  match v with
  | JObj _ => v' <> JNull
  | JArr l =>
      exists l', v' = JArr l'
                 /\ (Forall (fun a => a <> JNull) l -> Forall (fun b => b <> JNull) l')
  | atom => v' = atom
  end.

Section Passes.
Context {host : HostArith}.

(** [parseFloat(x.value)] *)
Definition number_of (x : option value) : num :=
  parseFloat (js_String (prop_of "value" x)).

(** *** Constant folding *)

(** The part of [constantFolding] that follows the traversal of the
    children, on the entries [fs] of [optimizedNode]. *)
Definition fold_node (fs : list (string * value)) : Pass (option value) :=
  let optimizedNode := JObj fs in
  if is_str "BinaryExpression" (assoc "type" fs) then
    let left := assoc "left" fs in
    let right := assoc "right" fs in
    if nullish left then throw (read_of_nullish (js_String left) "type")
    else if is_str "NumericLiteral" (prop_of "type" left) then
      if nullish right then throw (read_of_nullish (js_String right) "type")
      else if is_str "NumericLiteral" (prop_of "type" right) then
        let leftValue := number_of left in
        let rightValue := number_of right in
        let operator := assoc "operator" fs in
        let folded (resultValue : num) : Pass (option value) :=
          record_optimization constantFoldings_
            ("Folded constant expression: " ++ num_toString leftValue ++ " "
             ++ js_String operator ++ " " ++ num_toString rightValue ++ " = "
             ++ num_toString resultValue)
            optimizedNode ;;
          ret (Some (foldedNode (num_toString resultValue)
                       (assoc "line" fs) (assoc "column" fs))) in
        if is_str "+" operator then folded (num_add leftValue rightValue)
        else if is_str "-" operator then folded (num_sub leftValue rightValue)
        else if is_str "*" operator then folded (num_mul leftValue rightValue)
        else if is_str "/" operator then
          if negb (is_zero rightValue) then folded (num_div leftValue rightValue)
          else
            warn "Division by zero detected during constant folding" ;;
            ret (Some optimizedNode)
        else if is_str "%" operator then
          if negb (is_zero rightValue) then folded (num_rem leftValue rightValue)
          else
            warn "Modulo by zero detected during constant folding" ;;
            ret (Some optimizedNode)
        else ret (Some optimizedNode)
      else ret (Some optimizedNode)
    else ret (Some optimizedNode)
  else ret (Some optimizedNode).

(** [constantFolding(node, result)] for a [node] that is not [undefined].
    On an array the method does what it does on the array value of a key:
    it maps itself over the elements. *)
Fixpoint constantFolding (n : value) : Pass (option value) :=
  match deepCloneNode n with
  | JObj fs => fs' <- map_fields constantFolding fs ;; fold_node fs'
  | JArr l => l' <- map_elems constantFolding l ;; ret (Some (JArr l'))
  | atom => ret (Some atom)
  end.

(** *** Algebraic simplification *)

(** [x.type === 'NumericLiteral' && test(parseFloat(x.value))] *)
Definition literal_with (test : num -> bool) (x : option value) : Pass bool :=
  if nullish x then throw (read_of_nullish (js_String x) "type")
  else ret (is_str "NumericLiteral" (prop_of "type" x) && test (number_of x)).

(** The part of [algebraicSimplification] that follows the traversal of the
    children.  The tests of the operator exclude one another, so the rules
    are grouped by operator, in the order of the source. *)
Definition simplify_node (fs : list (string * value)) : Pass (option value) :=
  let optimizedNode := JObj fs in
  if is_str "BinaryExpression" (assoc "type" fs) then
    let left := assoc "left" fs in
    let right := assoc "right" fs in
    let operator := assoc "operator" fs in
    let simplified (text : string) (kept : option value) : Pass (option value) :=
      record_optimization algebraicSimplifications_ text optimizedNode ;; ret kept in
    if is_str "+" operator then
      b <- literal_with is_zero right ;;
      if b then simplified "Simplified x + 0 to x" left
      else
        b <- literal_with is_zero left ;;
        if b then simplified "Simplified 0 + x to x" right
        else ret (Some optimizedNode)
    else if is_str "-" operator then
      b <- literal_with is_zero right ;;
      if b then simplified "Simplified x - 0 to x" left
      else ret (Some optimizedNode)
    else if is_str "*" operator then
      b <- literal_with is_one right ;;
      if b then simplified "Simplified x * 1 to x" left
      else
        b <- literal_with is_one left ;;
        if b then simplified "Simplified 1 * x to x" right
        else
          b1 <- literal_with is_zero right ;;
          b2 <- (if b1 then ret true else literal_with is_zero left) ;;
          if b2 then
            simplified "Simplified x * 0 to 0"
              (Some (foldedNode "0" (assoc "line" fs) (assoc "column" fs)))
          else ret (Some optimizedNode)
    else if is_str "/" operator then
      b <- literal_with is_one right ;;
      if b then simplified "Simplified x / 1 to x" left
      else ret (Some optimizedNode)
    else ret (Some optimizedNode)
  else ret (Some optimizedNode).

Fixpoint algebraicSimplification (n : value) : Pass (option value) :=
  match deepCloneNode n with
  | JObj fs => fs' <- map_fields algebraicSimplification fs ;; simplify_node fs'
  | JArr l => l' <- map_elems algebraicSimplification l ;; ret (Some (JArr l'))
  | atom => ret (Some atom)
  end.

(** *** The driver *)

(** A pass on a tree that may be [undefined]: [if (!node ...) return node]. *)
Definition on_tree (pass : value -> Pass (option value)) (ast : option value)
  : Pass (option value) :=
  match ast with
  | Some n => pass n
  | None => ret None
  end.

Definition performOptimizationPass (opts : options) (ast : option value)
  : Pass (option value) :=
  ast1 <- (if enableConstantFolding opts then on_tree constantFolding ast else ret ast) ;;
  ast2 <- (if enableAlgebraicSimplification opts
           then on_tree algebraicSimplification ast1 else ret ast1) ;;
  ast3 <- (if enableCommonSubexpressionElimination opts
           then on_tree commonSubexpressionElimination ast2 else ret ast2) ;;
  (if enableDeadCodeElimination opts then on_tree deadCodeElimination ast3 else ret ast3).

(** [this.currentPass++] *)
Definition next_pass : Pass unit :=
  modify (fun s =>
    {| this := {| optimizationCount := optimizationCount (this s);
                  currentPass := S (currentPass (this s)) |};
       result := result s |}).

(** The [while] loop of [optimize], from the test of its condition on; it
    returns [optimizedAST] and [hasChanges] as the loop leaves them.  Every
    iteration increments [currentPass], so [fuel = maxOptimizationPasses]
    iterations are all there can be. *)
Fixpoint optimize_loop (fuel : nat) (opts : options) (optimizedAST : option value)
  (hasChanges : bool) : Pass (option value * bool) :=
  match fuel with
  | O => ret (optimizedAST, hasChanges)
  | S fuel' =>
      pass <- gets (fun s => currentPass (this s)) ;;
      if hasChanges && Nat.ltb pass (maxOptimizationPasses opts) then
        next_pass ;;
        passStartCount <- gets (fun s => optimizationCount (this s)) ;;
        optimizedAST' <- performOptimizationPass opts optimizedAST ;;
        count <- gets (fun s => optimizationCount (this s)) ;;
        optimize_loop fuel' opts optimizedAST' (Nat.ltb passStartCount count)
      else ret (optimizedAST, hasChanges)
  end.

(** The body of the [try] block of [optimize]. *)
Definition optimize_body (opts : options) (ast : value) : Pass (option value * bool) :=
  modify (fun s =>
    {| this := {| optimizationCount := optimizationCount (this s); currentPass := 0 |};
       result := result s |}) ;;
  optimize_loop (maxOptimizationPasses opts) opts (Some (deepCloneAST ast)) true.

Definition set_outcome (ast : option value) (r : OptimizationResult) : OptimizationResult :=
  {| success := true; optimizedAST := ast; optimizations := optimizations r;
     statistics := statistics r; errors := errors r; warnings := warnings r |}.

(** [optimize(ast)] on the optimizer [o]: the result, and the optimizer as
    the call leaves it. *)
Definition optimize (opts : options) (o : Optimizer) (ast : value)
  : OptimizationResult * Optimizer :=
  match optimize_body opts ast {| this := o; result := new_result |} with
  | (Normal (optimizedAST, _), s) => (set_outcome optimizedAST (result s), this s)
  | (Throw e, s) =>
      (addError {| message := "Optimization error: " ++ exn_message e;
                   line := 0; column := 0 |} (result s),
       this s)
  end.
End Passes.

(** *** Notions used in the statements about the optimizer *)

(** [c] writes some events and completes with an outcome, and [Q] holds of
    both. *)
Definition W {A : Type} (c : Pass A) (Q : completion A -> list event -> Prop) : Prop :=
  exists out es, writes c out es /\ Q out es.

Definition values (fs : list (string * value)) : list value := map snd fs.

Definition all_well_formed (l : list value) : Prop :=
  Forall (fun v => well_formed v = true) l.

(** The result [v'] of a pass on a well-formed [v]. *)
Definition kept (v v' : value) : Prop := well_formed v' = true /\ shape_kept v v'.

(** A pass on [v]: if it completes without having recorded an optimization
    it returns [v]; on a well-formed [v] it completes, with a well-formed
    tree of the shape of [v]. *)
Definition pass_spec (v : value) (out : completion (option value)) (es : list event)
  : Prop :=
  (forall r, out = Normal r -> recorded es = 0 -> r = Some v)
  /\ (well_formed v = true -> exists v', out = Normal (Some v') /\ kept v v').

Definition same_key_kept (e e' : string * value) : Prop :=
  fst e' = fst e /\ kept (snd e) (snd e').

Definition fields_spec (fs : list (string * value))
  (out : completion (list (string * value))) (es : list event) : Prop :=
  (forall fs', out = Normal fs' -> recorded es = 0 -> fs' = fs)
  /\ (all_well_formed (values fs) ->
      exists fs', out = Normal fs' /\ Forall2 same_key_kept fs fs').

Definition elems_spec (l : list value) (out : completion (list value)) (es : list event)
  : Prop :=
  (forall l', out = Normal l' -> recorded es = 0 -> l' = l)
  /\ (all_well_formed l -> exists l', out = Normal l' /\ Forall2 kept l l').

(** What the rewriting of a node, after that of its children, is to do. *)
Definition rule_spec (fs : list (string * value)) (out : completion (option value))
  (es : list event) : Prop :=
  (forall r, out = Normal r -> recorded es = 0 -> r = Some (JObj fs))
  /\ (all_well_formed (values fs) -> well_formed_node fs = true ->
      exists v', out = Normal (Some v') /\ well_formed v' = true /\ v' <> JNull).

Definition is_cse_record (e : event) : Prop :=
  exists text n, e = Recorded commonSubexpressionEliminations_ text n.

(** [c] returns [a] after events that are all detections, whatever the
    [expressionMap] and the state it starts from. *)
Definition detects {A : Type} (c : M cse_state A) (a : A) : Prop :=
  forall m, exists es m',
    Forall is_cse_record es
    /\ forall o, c {| expressionMap := m; outer := o |}
                 = (Normal a, {| expressionMap := m'; outer := apply_events es o |}).

Definition statement_list (b : value) : Prop :=
  exists stmts, b = JArr stmts /\ Forall (fun s => s <> JNull) stmts.

Definition well_formed_tree (ast : option value) : Prop :=
  match ast with
  | Some v => well_formed v = true
  | None => True
  end.

(** A pass, or a round, on a tree that may be [undefined]. *)
Definition tree_spec (ast : option value) (out : completion (option value))
  (es : list event) : Prop :=
  (forall r, out = Normal r -> recorded es = 0 -> r = ast)
  /\ (well_formed_tree ast -> exists ast', out = Normal ast' /\ well_formed_tree ast').

(** The state in which [optimize] enters its loop. *)
Definition entry_state (o : Optimizer) : pass_state :=
  {| this := {| optimizationCount := optimizationCount o; currentPass := 0 |};
     result := new_result |}.

Definition NumericLiteral (text : string) : value :=
  JObj [("type", JStr "NumericLiteral"); ("value", JStr text)].

Definition Identifier (name : string) : value :=
  JObj [("type", JStr "Identifier"); ("name", JStr name)].

Definition BinaryExpression (operator : string) (left right : value) : value :=
  JObj [("type", JStr "BinaryExpression"); ("operator", JStr operator);
        ("left", left); ("right", right)].

Definition ExpressionStatement (expression : value) : value :=
  JObj [("type", JStr "ExpressionStatement"); ("expression", expression)].

Definition Program (body : list value) : value :=
  JObj [("type", JStr "Program"); ("body", JArr body)].

(** Two statements that compute [a + b]. *)
Definition twice_a_plus_b : value :=
  Program [ ExpressionStatement (BinaryExpression "+" (Identifier "a") (Identifier "b"));
            ExpressionStatement (BinaryExpression "+" (Identifier "a") (Identifier "b")) ].

(** The sum of a product and a difference from the tests of the
    repository: [(2 * 3) + (y - 0)]. *)
Definition six_plus_y : value :=
  BinaryExpression "+"
    (BinaryExpression "*" (NumericLiteral "2") (NumericLiteral "3"))
    (BinaryExpression "-" (Identifier "y") (NumericLiteral "0")).

(** A tree that takes a fourth round: each level is folded one round after
    the level below it. *)
Definition level (v : string) (e : value) : value :=
  BinaryExpression "-"
    (BinaryExpression "*" (Identifier v) (BinaryExpression "+" e (NumericLiteral "1")))
    (NumericLiteral "1").

Definition three_levels : value :=
  level "w" (level "v"
    (BinaryExpression "-" (BinaryExpression "*" (Identifier "x") (NumericLiteral "0"))
       (NumericLiteral "1"))).

(** A value that is neither an array nor an object. *)
Definition atomic (v : value) : bool :=
  match v with
  | JArr _ | JObj _ => false
  | _ => true
  end.

(** A NumericLiteral node with the text [text]: its other fields (the
    position) are atomic. *)
Definition literal_node (v : value) (text : string) : Prop :=
  exists fs, v = JObj fs
             /\ assoc "type" fs = Some (JStr "NumericLiteral")
             /\ assoc "value" fs = Some (JStr text)
             /\ Forall (fun c => atomic c = true) (values fs).

(** Whether the folder checks the divisor of the operator. *)
Definition divides (operator : string) : bool :=
  String.eqb operator "/" || String.eqb operator "%".

Definition zero_warning (operator : string) : string :=
  if String.eqb operator "/" then "Division by zero detected during constant folding"
  else "Modulo by zero detected during constant folding".

Section HostNotions.
Context {host : HostArith}.

(** A round on [ast] returns [ast] and records no optimization. *)
Definition quiet (opts : options) (ast : option value) : Prop :=
  exists es, writes (performOptimizationPass opts ast) (Normal ast) es /\ recorded es = 0.

(** The host operation an operator of the folder stands for. *)
Definition native (operator : string) : option (num -> num -> num) :=
  if String.eqb operator "+" then Some num_add
  else if String.eqb operator "-" then Some num_sub
  else if String.eqb operator "*" then Some num_mul
  else if String.eqb operator "/" then Some num_div
  else if String.eqb operator "%" then Some num_rem
  else None.

End HostNotions.

(** *** Further notions used in the statements about the optimizer *)

(** The counters agree with one another, with the log and with the count
    of the optimizer, which was [base] when the result was created. *)
Definition consistent (base : nat) (s : pass_state) : Prop :=
  let st := statistics (result s) in
  totalOptimizations st
  = constantFoldings st + algebraicSimplifications st
    + commonSubexpressionEliminations st + deadCodeEliminations st
  /\ totalOptimizations st = List.length (optimizations (result s))
  /\ optimizationCount (this s) = base + totalOptimizations st.

(** The result is as [new OptimizationResult()] made it, up to what the
    passes write. *)
Definition untouched (s : pass_state) : Prop :=
  success (result s) = false
  /\ optimizedAST (result s) = Some JNull
  /\ errors (result s) = [].

(** Expressions made of numeric literals and binary operators. *)
Inductive constant_expression : Type :=
| CLiteral (text : string)
| CBinary (operator : string) (left right : constant_expression).

Fixpoint tree_of (e : constant_expression) : value :=
  match e with
  | CLiteral text => NumericLiteral text
  | CBinary operator l r => BinaryExpression operator (tree_of l) (tree_of r)
  end.

Fixpoint operators (e : constant_expression) : nat :=
  match e with
  | CLiteral _ => 0
  | CBinary _ l r => S (operators l + operators r)
  end.

Section ConstantNotions.
Context {host : HostArith}.

(** The text of the literal the expression stands for, each operator
    applied by the host to the numbers read from the texts of its operands;
    [None] where an operator is not one of the folder or a divisor is
    zero. *)
Fixpoint folded_text (e : constant_expression) : option string :=
  match e with
  | CLiteral text => Some text
  | CBinary operator l r =>
      match folded_text l, folded_text r, native operator with
      | Some a, Some b, Some f =>
          if divides operator && is_zero (parseFloat b) then None
          else Some (num_toString (f (parseFloat a) (parseFloat b)))
      | _, _, _ => None
      end
  end.
End ConstantNotions.

Section IdentityNotions.
Context {host : HostArith}.

(** Whether [x op n] is [x] for the simplifier: [x + 0], [x - 0], [x * 1]
    and [x / 1]. *)
Definition right_identity (operator : string) (n : num) : bool :=
  ((String.eqb operator "+" || String.eqb operator "-") && is_zero n)
  || ((String.eqb operator "*" || String.eqb operator "/") && is_one n).

(** Whether [n op x] is [x] for the simplifier: [0 + x] and [1 * x]. *)
Definition left_identity (operator : string) (n : num) : bool :=
  (String.eqb operator "+" && is_zero n) || (String.eqb operator "*" && is_one n).
End IdentityNotions.

(** The neutral element as the descriptions of the log print it. *)
Definition neutral_text (operator : string) : string :=
  if String.eqb operator "+" || String.eqb operator "-" then "0" else "1".

(** The keys of the BinaryExpression nodes of a tree, in the order in which
    [findCommonExpressions] comes to them: the children of a node first, in
    the order of its keys, then the node. *)
Fixpoint binary_keys (v : value) : list string :=
  match v with
  | JObj fs =>
      (fix children (fs0 : list (string * value)) : list string :=
         match fs0 with
         | [] => []
         | (_, c) :: rest => binary_keys c ++ children rest
         end) fs
      ++ (if is_str "BinaryExpression" (assoc "type" fs)
          then [js_String (getExpressionKey (JObj fs))]
          else [])
  | JArr l => flat_map binary_keys l
  | _ => []
  end.

(** How many of the keys [ks] repeat a key of [seen] or an earlier one of
    [ks], and the keys seen in the end. *)
Fixpoint repeats (seen ks : list string) : nat :=
  match ks with
  | [] => 0
  | k :: rest =>
      if existsb (String.eqb k) seen then S (repeats seen rest)
      else repeats (seen ++ [k]) rest
  end.

Fixpoint seen_after (seen ks : list string) : list string :=
  match ks with
  | [] => seen
  | k :: rest =>
      if existsb (String.eqb k) seen then seen_after seen rest
      else seen_after (seen ++ [k]) rest
  end.

(** [c] returns [a]; its detections are the repeats among the keys [ks],
    which it adds to the [expressionMap]. *)
Definition counts {A : Type} (c : M cse_state A) (a : A) (ks : list string) : Prop :=
  forall m, exists es m',
    Forall is_cse_record es
    /\ List.length es = repeats (map fst m) ks
    /\ map fst m' = seen_after (map fst m) ks
    /\ forall o, c {| expressionMap := m; outer := o |}
                 = (Normal a, {| expressionMap := m'; outer := apply_events es o |}).

(** No node of the tree is of the kind ['NumericLiteral']. *)
Fixpoint no_literal (v : value) : bool :=
  match v with
  | JObj fs =>
      negb (is_str "NumericLiteral" (assoc "type" fs))
      && (fix all (fs0 : list (string * value)) : bool :=
            match fs0 with
            | [] => true
            | (_, c) :: rest => no_literal c && all rest
            end) fs
  | JArr l => forallb no_literal l
  | _ => true
  end.

(** No statement list of a Program of the tree has a statement that
    [deadCodeElimination] removes, or one that is [null]. *)
Fixpoint settled (v : value) : bool :=
  match v with
  | JObj fs =>
      (fix all (fs0 : list (string * value)) : bool :=
         match fs0 with
         | [] => true
         | (_, c) :: rest => settled c && all rest
         end) fs
      && (if is_str "Program" (assoc "type" fs) && truthy (assoc "body" fs)
          then match assoc "body" fs with
               | Some (JArr stmts) =>
                   forallb (fun s => negb (nullish (Some s)) && negb (is_dead s)) stmts
               | _ => false
               end
          else true)
  | JArr l => forallb settled l
  | _ => true
  end.

(** The counters, the warnings and the errors that detections leave alone. *)
Definition only_detections (s : pass_state) : Prop :=
  constantFoldings (statistics (result s)) = 0
  /\ algebraicSimplifications (statistics (result s)) = 0
  /\ deadCodeEliminations (statistics (result s)) = 0
  /\ warnings (result s) = []
  /\ errors (result s) = [].

End Opt.

(** ** Notions used in the statements about the peephole pass *)

(** What the loop of [optimizeInstructions] leaves of a stream. *)
Definition scan (instrs : list instruction) : list instruction :=
  fst (peephole_loop (List.length instrs) instrs 0%Z false).

(** The same scan by recursion on the stream: drop an adjacent PUSH/POP
    pair and go on with what follows it, keep any other instruction. *)
Fixpoint peep (l : list instruction) : list instruction :=
  match l with
  | [] => []
  | x :: rest =>
      match rest with
      | [] => [x]
      | y :: rest' => if is_push_pop x y then peep rest' else x :: peep rest
      end
  end.

(** Whether the scan deletes a pair: the flag [optimized]. *)
Fixpoint peep_changed (l : list instruction) : bool :=
  match l with
  | [] => false
  | x :: rest =>
      match rest with
      | [] => false
      | y :: rest' => if is_push_pop x y then true else peep_changed rest
      end
  end.

(** How many pairs the scan deletes: the number of times the loop of
    [optimizeInstructions] runs [splice(i, 2)]. *)
Fixpoint peep_pairs (l : list instruction) : nat :=
  match l with
  | [] => 0
  | x :: rest =>
      match rest with
      | [] => 0
      | y :: rest' => if is_push_pop x y then S (peep_pairs rest') else peep_pairs rest
      end
  end.

(** The stored addresses are the indices, as [addInstruction] leaves them. *)
Definition addresses_from (k : nat) (l : list instruction) : Prop :=
  forall j ins, nth_error l j = Some ins -> address ins = k + j.

(** ** Notions used in the statements about the code generator *)

(** What a walk of the tree leaves of the result [r0] it started from: the
    variable table, the listing, the flag and the errors are untouched, and
    the instruction stream has grown by instructions that are no HALT. *)
Definition walk_frame (r0 : CodeGenerationResult) (g : generator) : Prop :=
  symbolTable (result g) = symbolTable r0
  /\ assembly (result g) = assembly r0
  /\ success (result g) = success r0
  /\ errors (result g) = errors r0
  /\ exists more,
       instructions (result g) = instructions r0 ++ more
       /\ Forall (fun i => opcode_of i <> HALT) more.

(** The state in which [generate] starts the walk: the variable table
    seeded from the symbol table, then the prologue. *)
Definition seed (symtab : option (list (string * value))) : Gen unit :=
  match symtab with
  | Some entries => initializeSymbolTable entries
  | None => ret tt
  end ;;
  generateProgramEntry.

(** ** Further notions and the trees of the examples *)


Fixpoint size (v : value) : nat :=
  match v with
  | JArr l => S ((fix sum (l : list value) : nat :=
                    match l with
                    | [] => 0
                    | e :: rest => size e + sum rest
                    end) l)
  | JObj fs => S ((fix sum (fs : list (string * value)) : nat :=
                     match fs with
                     | [] => 0
                     | (_, c) :: rest => size c + sum rest
                     end) fs)
  | _ => 1
  end.

Definition preserves {A : Type} (P : generator -> Prop) (c : Gen A) : Prop :=
  forall g out g', c g = (out, g') -> P g -> P g'.

(** What [generate] returns once the walk has completed normally. *)
Definition finish (opts : options) (r : CodeGenerationResult) : CodeGenerationResult :=
  let rendered := generateAssembly (addInstruction HALT ONull "程序结束" r) in
  set_success true
    (if optimizeCode opts then optimizeInstructions opts rendered else rendered).

Definition literal_statement (n : string) : value :=
  JObj [("type", JStr "ExpressionStatement");
        ("expression", JObj [("type", JStr "Literal"); ("value", JNum n)])].

(** A program whose second statement reads the undeclared variable [q]. *)
Definition program_reading_q : value :=
  JObj [("type", JStr "Program");
        ("body", JArr [ literal_statement "1";
                        JObj [("type", JStr "Identifier"); ("name", JStr "q")];
                        literal_statement "2" ])].

(** A declaration of [x] with the initializer [10]. *)
Definition declaration_of_x : value :=
  JObj [("type", JStr "VariableDeclaration");
        ("declarations",
         JArr [ JObj [("type", JStr "VariableDeclarator");
                      ("id", JObj [("type", JStr "Identifier"); ("name", JStr "x")]);
                      ("init", JObj [("type", JStr "Literal"); ("value", JNum "10")])] ])].

(** An assignment of [10] to [x]. *)
Definition assignment_to_x : value :=
  JObj [("type", JStr "AssignmentExpression");
        ("left", JObj [("type", JStr "Identifier"); ("name", JStr "x")]);
        ("right", JObj [("type", JStr "Literal"); ("value", JNum "10")])].

(** An expression statement whose expression the generator does not
    support: a numeric literal as the optimizer writes them. *)
Definition discarded_literal : value :=
  JObj [("type", JStr "ExpressionStatement");
        ("expression", JObj [("type", JStr "NumericLiteral"); ("value", JStr "42")])].

(** ** Further notions used in the statements about the code generator *)

Definition variable_names (entries : list (string * value)) : list string :=
  map fst (filter (fun e => is_str "variable" (prop "type" (snd e))) entries).

(** What a computation threw, if it did. *)
Definition thrown {A : Type} (out : completion A) : option exn :=
  match out with
  | Normal _ => None
  | Throw e => Some e
  end.

(** A computation that leaves a state related to the one it started from,
    the relation depending on what it threw. *)
Definition relates {A : Type} (R : generator -> option exn -> generator -> Prop)
  (c : Gen A) : Prop :=
  forall g out g', c g = (out, g') -> R g (thrown out) g'.

(** The exceptions of a run: the three errors the generator throws, for a
    variable without address and for an operator that is not one of its
    [switch], and the TypeErrors of the engine: for reading [type] or
    [name] of a value that is [null] or [undefined] (the [left] of an
    assignment, the [id] of a declaration, an entry of the symbol table),
    for reading [init] of a declaration that is [null], and for a
    [declarations] that cannot be iterated. *)
Inductive walk_error : exn -> Prop :=
| undefined_variable_error (name : option value) :
    walk_error (undefined_variable name)
| binary_operator_error (operator : option value) :
    binary_opcode operator = None ->
    walk_error (Error ("不支持的二元运算符: " ++ js_String operator))
| unary_operator_error (operator : option value) :
    unary_opcode operator = None ->
    walk_error (Error ("不支持的一元运算符: " ++ js_String operator))
| nullish_read_error (x : option value) (name : string) :
    nullish x = true -> In name ["type"; "name"] ->
    walk_error (cannot_read x name)
| null_declaration_error :
    walk_error (cannot_read (Some JNull) "init")
| not_iterable_error :
    walk_error (TypeError "node.declarations is not iterable").

(** The labels the instructions of a stream refer to. *)
Definition jump_targets (l : list instruction) : list string :=
  flat_map (fun i => match operand_of i with OLabel n => [n] | _ => [] end) l.

(** From [r] to [r'] the label table has kept its labels and the stream has
    grown by instructions whose labels are in the table of [r'] or among
    the [pending] ones. *)
Definition labels_resolved (pending : list string) (r r' : CodeGenerationResult) : Prop :=
  incl (map fst (labelTable r)) (map fst (labelTable r'))
  /\ exists more,
       instructions r' = instructions r ++ more
       /\ forall l, In l (jump_targets more) ->
                    In l (map fst (labelTable r')) \/ In l pending.

(** [labels_resolved] for a walk that completes. *)
Definition walk_labels (g : generator) (o : option exn) (g' : generator) : Prop :=
  o = None -> labels_resolved [] (result g) (result g').


(** A conditional print. *)
Definition print_if_true : value :=
  JObj [("type", JStr "IfStatement");
        ("test", JObj [("type", JStr "Literal"); ("value", JBool true)]);
        ("consequent",
         JObj [("type", JStr "PrintStatement");
               ("expression", JObj [("type", JStr "Literal"); ("value", JNum "1")])])].

(** Expressions: literals, variables and operators. *)
Inductive expression : Type :=
| ELiteral (v : value)
| EIdentifier (name : string)
| EBinary (operator : string) (left right : expression)
| EUnary (operator : string) (argument : expression).

(** The node of an expression, as the code generator reads it. *)
Fixpoint node_of (e : expression) : value :=
  match e with
  | ELiteral v => JObj [("type", JStr "Literal"); ("value", v)]
  | EIdentifier name => JObj [("type", JStr "Identifier"); ("name", JStr name)]
  | EBinary operator l r =>
      JObj [("type", JStr "BinaryExpression"); ("operator", JStr operator);
            ("left", node_of l); ("right", node_of r)]
  | EUnary operator a =>
      JObj [("type", JStr "UnaryExpression"); ("operator", JStr operator);
            ("argument", node_of a)]
  end.

(** The expression in postfix order: the operands of an operator, from left
    to right, then the operator; [None] when a variable has no address in
    [table] or an operator is not one of the generator. *)
Fixpoint postfix (table : list (string * nat)) (e : expression)
  : option (list (opcode * operand)) :=
  match e with
  | ELiteral v => Some [(LOAD, OImm (Some v))]
  | EIdentifier name =>
      match assoc name table with
      | Some a => Some [(LOAD_VAR, OAddr (Some a))]
      | None => None
      end
  | EBinary operator l r =>
      match postfix table l, postfix table r, binary_opcode (Some (JStr operator)) with
      | Some cl, Some cr, Some op => Some (cl ++ cr ++ [(op, ONull)])
      | _, _, _ => None
      end
  | EUnary operator a =>
      match postfix table a, unary_opcode (Some (JStr operator)) with
      | Some ca, Some op => Some (ca ++ [(op, ONull)])
      | _, _ => None
      end
  end.

(** The opcode and the operand of an instruction. *)
Definition signature (i : instruction) : opcode * operand := (opcode_of i, operand_of i).

(** What the walk of the node of [e] does, by [postfix]. *)
Definition compiles (e : expression) (g : generator) : Prop :=
  match postfix (symbolTable (result g)) e with
  | Some code =>
      exists g' more,
        generateNode (node_of e) g = (Normal tt, g')
        /\ instructions (result g') = instructions (result g) ++ more
        /\ map signature more = code
        /\ symbolTable (result g') = symbolTable (result g)
  | None =>
      exists err g', generateNode (node_of e) g = (Throw err, g') /\ walk_error err
  end.

(** The prefixes [generateLabel] is called with. *)
Definition label_prefixes : list string := ["else"; "endif"; "loop"; "endloop"].

(** [name] is a label that [generateLabel] makes when [labelCounter] is [n]. *)
Definition label_numbered (name : string) (n : nat) : Prop :=
  exists prefix,
    In prefix label_prefixes /\ name = (prefix ++ "_" ++ nat_to_string n)%string.

(** The labels of the table that [generateLabel] can make were made before:
    their numbers are below [labelCounter]. *)
Definition labels_below_counter (g : generator) : Prop :=
  forall name n,
    In name (map fst (labelTable (result g))) -> label_numbered name n ->
    n < labelCounter g.

(** From [g] to [g'] the counter has not gone back, the labels of [g] have
    kept their addresses, the new ones have numbers from [floor] on that
    were given out before [g'], and the stream has only grown. *)
Definition kept_from (floor : nat) (g g' : generator) : Prop :=
  labelCounter g <= labelCounter g'
  /\ (forall name a, assoc name (labelTable (result g)) = Some a ->
                     assoc name (labelTable (result g')) = Some a)
  /\ (forall name, In name (map fst (labelTable (result g'))) ->
                   In name (map fst (labelTable (result g)))
                   \/ exists n, label_numbered name n /\ floor <= n < labelCounter g')
  /\ exists more, instructions (result g') = instructions (result g) ++ more.

(** The new labels are those made from [g] on. *)
Definition labels_kept (g g' : generator) : Prop := kept_from (labelCounter g) g g'.

(** [labels_kept] for a walk that completes, from a state whose labels are
    below the counter. *)
Definition walk_numbers (g : generator) (o : option exn) (g' : generator) : Prop :=
  o = None -> labels_below_counter g -> labels_below_counter g' /\ labels_kept g g'.

(** A loop over a literal. *)
Definition print_while_true : value :=
  JObj [("type", JStr "WhileStatement");
        ("test", JObj [("type", JStr "Literal"); ("value", JBool true)]);
        ("body",
         JObj [("type", JStr "PrintStatement");
               ("expression", JObj [("type", JStr "Literal"); ("value", JNum "1")])])].

(* ================================================================== *)
(** * Part II: properties                                               *)
(* ================================================================== *)

(** ** The peephole pass *)

Lemma peep_short (l : list instruction) :
  (List.length l <= 1)%nat -> peep l = l /\ peep_changed l = false.
Proof.
  destruct l as [|x [|y rest]]; simpl; intros H; try (split; reflexivity); lia.
Qed.

(** The loop, started at index [length pre] with enough fuel, leaves [pre]
    and scans the rest as [peep] does. *)
Lemma peephole_loop_peep :
  forall fuel pre suf o,
    (List.length suf <= fuel)%nat ->
    peephole_loop fuel (pre ++ suf) (Z.of_nat (List.length pre)) o
    = (pre ++ peep suf, o || peep_changed suf).
Proof.
  induction fuel as [|fuel IH]; intros pre suf o Hfuel.
  - destruct suf; [|simpl in Hfuel; lia]. simpl.
    now rewrite orb_false_r.
  - cbn [peephole_loop]. rewrite length_app.
    destruct suf as [|x [|y rest]].
    + replace (Z.of_nat (List.length pre) <? Z.of_nat (List.length pre + List.length (@nil instruction)) - 1)%Z
        with false by (symmetry; apply Z.ltb_ge; simpl; lia).
      simpl. now rewrite orb_false_r.
    + replace (Z.of_nat (List.length pre) <? Z.of_nat (List.length pre + List.length [x]) - 1)%Z
        with false by (symmetry; apply Z.ltb_ge; simpl; lia).
      simpl. now rewrite orb_false_r.
    + replace (Z.of_nat (List.length pre) <? Z.of_nat (List.length pre + List.length (x :: y :: rest)) - 1)%Z
        with true by (symmetry; apply Z.ltb_lt; simpl; lia).
      rewrite Nat2Z.id.
      replace (Z.to_nat (Z.of_nat (List.length pre) + 1)) with (S (List.length pre)) by lia.
      assert (E1 : nth_error (pre ++ x :: y :: rest) (List.length pre) = Some x).
      { rewrite nth_error_app2 by lia. now rewrite Nat.sub_diag. }
      assert (E2 : nth_error (pre ++ x :: y :: rest) (S (List.length pre)) = Some y).
      { rewrite nth_error_app2 by lia.
        now replace (S (List.length pre) - List.length pre)%nat with 1%nat by lia. }
      rewrite E1, E2.
      cbn [peep peep_changed].
      destruct (is_push_pop x y) eqn:E.
      * replace (Z.of_nat (List.length pre) - 1 + 1)%Z with (Z.of_nat (List.length pre)) by lia.
        assert (Hs : splice2 (List.length pre) (pre ++ x :: y :: rest) = pre ++ rest).
        { unfold splice2. rewrite firstn_app, Nat.sub_diag, firstn_all. simpl.
          rewrite app_nil_r. rewrite skipn_app, skipn_all2 by lia.
          replace (List.length pre + 2 - List.length pre)%nat with 2%nat by lia.
          reflexivity. }
        rewrite Hs, IH by (simpl in Hfuel; lia).
        now rewrite orb_true_r.
      * replace (Z.of_nat (List.length pre) + 1)%Z
          with (Z.of_nat (List.length (pre ++ [x]))) by (rewrite length_app; simpl; lia).
        replace (pre ++ x :: y :: rest) with ((pre ++ [x]) ++ y :: rest)
          by (rewrite <- app_assoc; reflexivity).
        rewrite IH by (simpl in *; lia).
        rewrite <- app_assoc. reflexivity.
Qed.

Lemma peephole_loop_enough_fuel (fuel : nat) (l : list instruction) :
  (List.length l <= fuel)%nat ->
  peephole_loop fuel l 0%Z false = (peep l, peep_changed l).
Proof.
  intros H. apply (peephole_loop_peep fuel [] l false H).
Qed.

Lemma scan_peep (l : list instruction) : scan l = peep l.
Proof.
  unfold scan. now rewrite peephole_loop_enough_fuel.
Qed.

(** Induction along the scan. *)
Lemma peep_ind2 (P : list instruction -> Prop) :
  P [] ->
  (forall x, P [x]) ->
  (forall x y rest, is_push_pop x y = true -> P rest -> P (x :: y :: rest)) ->
  (forall x y rest, is_push_pop x y = false -> P (y :: rest) -> P (x :: y :: rest)) ->
  forall l, P l.
Proof.
  intros Hnil Hone Hdel Hkeep l.
  remember (List.length l) as n eqn:Hn.
  revert l Hn. induction n as [n IH] using lt_wf_ind. intros l Hn.
  destruct l as [|x [|y rest]]; auto.
  destruct (is_push_pop x y) eqn:E.
  - apply Hdel; auto. apply (IH (List.length rest)); simpl in Hn; [lia | reflexivity].
  - apply Hkeep; auto. apply (IH (List.length (y :: rest))); simpl in *; [lia | reflexivity].
Qed.

Lemma is_push_pop_opcodes (a b : instruction) :
  is_push_pop a b = true <-> opcode_of a = PUSH /\ opcode_of b = POP.
Proof.
  unfold is_push_pop. rewrite andb_true_iff. split.
  - intros [Ha Hb]. destruct (opcode_of a); try discriminate Ha.
    destruct (opcode_of b); try discriminate Hb. auto.
  - intros [-> ->]. split; reflexivity.
Qed.






Lemma renumber_from_nth (l : list instruction) :
  forall k j, nth_error (renumber_from k l) j
              = option_map (set_address (k + j)) (nth_error l j).
Proof.
  induction l as [|x l IH]; intros k j.
  - destruct j; reflexivity.
  - destruct j as [|j]; simpl.
    + now rewrite Nat.add_0_r.
    + rewrite IH. now replace (S k + j) with (k + S j) by lia.
Qed.

Lemma renumber_from_length (l : list instruction) :
  forall k, List.length (renumber_from k l) = List.length l.
Proof.
  induction l as [|x l IH]; intros k; simpl; [reflexivity | now rewrite IH].
Qed.


Lemma optimizeInstructions_instructions (opts : options) (r : CodeGenerationResult) :
  optimizeCode opts = true ->
  instructions (optimizeInstructions opts r)
  = if peep_changed (instructions r)
    then renumber_from 0 (peep (instructions r))
    else peep (instructions r).
Proof.
  intros Ho. unfold optimizeInstructions. rewrite Ho. cbn [negb].
  rewrite peephole_loop_enough_fuel by lia.
  destruct (peep_changed (instructions r)); reflexivity.
Qed.



(** ** Induction on trees *)

Lemma size_elem (l : list value) (e : value) : In e l -> size e < size (JArr l).
Proof.
  intros H. cbn [size]. apply Nat.lt_succ_r.
  induction l as [|x l IH]; [destruct H|].
  destruct H as [->|H]; [lia|]. specialize (IH H). lia.
Qed.

Lemma size_field (fs : list (string * value)) (c : value) :
  In c (map snd fs) -> size c < size (JObj fs).
Proof.
  intros H. cbn [size]. apply Nat.lt_succ_r.
  induction fs as [|[k x] fs IH]; [destruct H|].
  destruct H as [H|H]; [simpl in H; subst; lia|]. specialize (IH H). lia.
Qed.

Lemma assoc_In {A : Type} (name : string) (fs : list (string * A)) (c : A) :
  assoc name fs = Some c -> In c (map snd fs).
Proof.
  induction fs as [|[k x] fs IH]; simpl; [discriminate|].
  destruct (String.eqb k name); intros H.
  - injection H as ->. now left.
  - right. now apply IH.
Qed.

Lemma value_size_ind (P : value -> Prop) :
  (forall v, (forall w, size w < size v -> P w) -> P v) -> forall v, P v.
Proof.
  intros H v. remember (size v) as n eqn:Hn. revert v Hn.
  induction n as [n IH] using lt_wf_ind. intros v ->.
  apply H. intros w Hw. now apply (IH (size w)).
Qed.

(** Structural induction, with the hypothesis for every element and for
    the value of every entry. *)
Lemma value_ind (P : value -> Prop) :
  P JNull ->
  (forall b, P (JBool b)) ->
  (forall t, P (JNum t)) ->
  (forall s, P (JStr s)) ->
  (forall l, Forall P l -> P (JArr l)) ->
  (forall fs, Forall (fun e => P (snd e)) fs -> P (JObj fs)) ->
  forall v, P v.
Proof.
  intros Hnull Hbool Hnum Hstr Harr Hobj.
  induction v as [v IH] using value_size_ind.
  destruct v as [| b | t | s | l | fs]; auto.
  - apply Harr. apply Forall_forall. intros e He. apply IH. now apply size_elem.
  - apply Hobj. apply Forall_forall. intros [k c] He. apply IH. apply size_field.
    apply in_map_iff. now exists (k, c).
Qed.

Lemma on_field_assoc {A : Type} (f : value -> A) (absent : A) (name : string)
  (fs : list (string * value)) :
  on_field f absent name fs
  = match assoc name fs with
    | Some c => f c
    | None => absent
    end.
Proof.
  induction fs as [|[k c] fs IH]; simpl; [reflexivity|].
  now destruct (String.eqb k name).
Qed.

(** ** What a walk of the generator leaves alone *)

Section Preservation.
Variable P : generator -> Prop.

Lemma preserves_ret {A : Type} (a : A) : preserves P (ret a).
Proof. intros g out g' H Hg. injection H as _ <-. exact Hg. Qed.

Lemma preserves_throw {A : Type} (e : exn) : preserves P (@throw generator A e).
Proof. intros g out g' H Hg. injection H as _ <-. exact Hg. Qed.

Lemma preserves_gets {A : Type} (f : generator -> A) : preserves P (gets f).
Proof. intros g out g' H Hg. injection H as _ <-. exact Hg. Qed.

Lemma preserves_bind {A B : Type} (c : Gen A) (k : A -> Gen B) :
  preserves P c -> (forall a, preserves P (k a)) -> preserves P (bind c k).
Proof.
  intros Hc Hk g out g' H Hg. unfold bind in H.
  destruct (c g) as [[a|e] g1] eqn:E.
  - apply (Hk a g1 out g' H). apply (Hc g _ g1 E Hg).
  - injection H as _ <-. apply (Hc g _ g1 E Hg).
Qed.

Lemma preserves_for_each {A : Type} (f : A -> Gen unit) (l : list A) :
  (forall x, In x l -> preserves P (f x)) -> preserves P (for_each f l).
Proof.
  induction l as [|x l IH]; intros H; simpl.
  - apply preserves_ret.
  - apply preserves_bind; [apply H; now left|].
    intros _. apply IH. intros y Hy. apply H. now right.
Qed.

Lemma preserves_on_field {A : Type} (f : value -> Gen A) (absent : Gen A)
  (name : string) (fs : list (string * value)) :
  (forall c, In c (map snd fs) -> preserves P (f c)) ->
  preserves P absent ->
  preserves P (on_field f absent name fs).
Proof.
  intros Hf Ha. rewrite on_field_assoc.
  destruct (assoc name fs) as [c|] eqn:E; [|exact Ha].
  apply Hf. now apply (assoc_In name).
Qed.

(** The updates a walk makes, which [P] is to survive. *)
Hypothesis P_emit : forall op arg cmt g,
  op <> HALT -> P g -> P (snd (emit op arg cmt g)).
Hypothesis P_label : forall name g, P g -> P (snd (on_result (addLabel name) g)).
Hypothesis P_warning : forall w g, P g -> P (snd (on_result (push_warning w) g)).
Hypothesis P_counter : forall prefix g, P g -> P (snd (generateLabel prefix g)).

Lemma preserves_emit (op : opcode) (arg : operand) (cmt : string) :
  op <> HALT -> preserves P (emit op arg cmt).
Proof.
  intros Hop g out g' H Hg. replace g' with (snd (emit op arg cmt g)) by now rewrite H.
  now apply P_emit.
Qed.

Lemma preserves_addLabel (name : string) : preserves P (on_result (addLabel name)).
Proof.
  intros g out g' H Hg.
  replace g' with (snd (on_result (addLabel name) g)) by now rewrite H.
  now apply P_label.
Qed.

Lemma preserves_unsupported_node (node : value) : preserves P (unsupported_node node).
Proof.
  intros g out g' H Hg. unfold unsupported_node in H.
  match type of H with on_result (push_warning ?w) g = _ =>
    replace g' with (snd (on_result (push_warning w) g)) by now rewrite H end.
  now apply P_warning.
Qed.

Lemma preserves_generateLabel (prefix : string) : preserves P (generateLabel prefix).
Proof.
  intros g out g' H Hg. replace g' with (snd (generateLabel prefix g)) by now rewrite H.
  now apply P_counter.
Qed.

Lemma binary_opcode_not_HALT (operator : option value) (op : opcode) :
  binary_opcode operator = Some op -> op <> HALT.
Proof.
  unfold binary_opcode.
  repeat match goal with
         | |- (if ?c then _ else _) = _ -> _ => destruct c
         end; intros H; try discriminate H; injection H as <-; discriminate.
Qed.

Lemma unary_opcode_not_HALT (operator : option value) (op : opcode) :
  unary_opcode operator = Some op -> op <> HALT.
Proof.
  unfold unary_opcode.
  repeat match goal with
         | |- (if ?c then _ else _) = _ -> _ => destruct c
         end; intros H; try discriminate H; injection H as <-; discriminate.
Qed.

Ltac preserve_step :=
  first
    [ apply preserves_ret
    | apply preserves_throw
    | apply preserves_gets
    | apply preserves_emit; discriminate
    | apply preserves_addLabel
    | apply preserves_generateLabel
    | apply preserves_unsupported_node
    | apply preserves_bind; [|intros ?] ].

Lemma generateNode_preserves (node : value) : preserves P (generateNode node).
Proof.
  induction node as [node IH] using value_size_ind.
  assert (Hchild : forall name fs, node = JObj fs ->
            preserves P (generateChild generateNode name fs)).
  { intros name fs ->. apply preserves_on_field; [|apply preserves_ret].
    intros c Hc. apply IH. now apply size_field. }
  assert (Hstmts : forall fs, node = JObj fs ->
            preserves P (generateStatements generateNode fs)).
  { intros fs ->. apply preserves_on_field; [|apply preserves_ret].
    intros body Hbody. destruct body; try apply preserves_ret.
    apply preserves_for_each. intros x Hx. apply IH.
    apply Nat.lt_trans with (size (JArr elems)); [now apply size_elem|now apply size_field]. }
  destruct node as [| b | t | s | l | fs]; cbn [generateNode];
    try (match goal with |- preserves P (if ?c then _ else _) => destruct c end;
         preserve_step).
  cbn [truthy negb]. unfold generateNode_switch.
  repeat match goal with
         | |- preserves P (if ?c then _ else _) => destruct c
         end.
  - apply Hstmts; reflexivity.
  - (* VariableDeclaration *)
    apply preserves_on_field; [|apply preserves_ret].
    intros ds Hds. destruct (truthy (Some ds)); [|apply preserves_ret].
    destruct ds; try preserve_step.
    apply preserves_for_each. intros d Hd. unfold generateDeclarator.
    destruct d; try preserve_step.
    apply preserves_on_field; [|apply preserves_ret].
    intros init Hinit. destruct (truthy (Some init)); [|apply preserves_ret].
    apply preserves_bind.
    + apply IH.
      apply Nat.lt_trans with (size (JObj fields)); [now apply size_field|].
      apply Nat.lt_trans with (size (JArr elems)); [now apply size_elem|now apply size_field].
    + intros _. destruct (nullish (assoc "id" fields)); repeat preserve_step.
  - (* AssignmentExpression *)
    unfold generateAssignment. apply preserves_bind; [now apply Hchild|intros _].
    destruct (nullish (assoc "left" fs)); [preserve_step|].
    destruct (is_str "Identifier" (prop_of "type" (assoc "left" fs))); [|preserve_step].
    preserve_step; [preserve_step|].
    destruct (table_get a (prop_of "name" (assoc "left" fs))); preserve_step.
  - (* BinaryExpression *)
    unfold generateBinaryExpression.
    apply preserves_bind; [now apply Hchild|intros _].
    apply preserves_bind; [now apply Hchild|intros _].
    destruct (binary_opcode (assoc "operator" fs)) as [op|] eqn:E; [|preserve_step].
    apply preserves_emit. now apply (binary_opcode_not_HALT _ _ E).
  - (* UnaryExpression *)
    unfold generateUnaryExpression.
    apply preserves_bind; [now apply Hchild|intros _].
    destruct (unary_opcode (assoc "operator" fs)) as [op|] eqn:E; [|preserve_step].
    apply preserves_emit. now apply (unary_opcode_not_HALT _ _ E).
  - unfold generateLiteral. preserve_step.
  - unfold generateIdentifier. preserve_step; [preserve_step|].
    destruct (table_get a (assoc "name" fs)); preserve_step.
  - (* IfStatement *)
    unfold generateIfStatement.
    repeat (first [ apply preserves_bind; [now apply Hchild|intros _]
                  | preserve_step ]).
  - (* WhileStatement *)
    unfold generateWhileStatement.
    repeat (first [ apply preserves_bind; [now apply Hchild|intros _]
                  | preserve_step ]).
  - apply Hstmts; reflexivity.
  - unfold generateExpressionStatement.
    apply preserves_bind; [now apply Hchild|intros _]. preserve_step.
  - unfold generatePrintStatement.
    apply preserves_bind; [now apply Hchild|intros _]. preserve_step.
  - preserve_step.
Qed.

Lemma generateDeclarator_preserves (d : value) :
  preserves P (generateDeclarator generateNode d).
Proof.
  unfold generateDeclarator. destruct d; try preserve_step.
  apply preserves_on_field; [|apply preserves_ret].
  intros init _. destruct (truthy (Some init)); [|apply preserves_ret].
  apply preserves_bind; [apply generateNode_preserves|intros _].
  destruct (nullish (assoc "id" fields)); repeat preserve_step.
Qed.
End Preservation.

(** ** The walk of the code generator *)

Lemma generateNode_frame (node : value) (g : generator) (out : completion unit)
  (g' : generator) :
  generateNode node g = (out, g') -> walk_frame (result g) g'.
Proof.
  intros H.
  apply (generateNode_preserves (walk_frame (result g))) with (node := node) (g := g) (out := out).
  - intros op arg cmt g1 Hop (Hs & Ha & Hb & He & more & Hi & Hm).
    repeat split; try assumption. exists (more ++
      [ {| address := List.length (instructions (result g1)); opcode_of := op;
           operand_of := operand_or_null arg; comment := cmt |} ]).
    split.
    + simpl. rewrite Hi. now rewrite app_assoc.
    + apply Forall_app. split; [assumption|]. constructor; [exact Hop|constructor].
  - intros name g1 H1. exact H1.
  - intros w g1 H1. exact H1.
  - intros prefix g1 H1. exact H1.
  - exact H.
  - repeat split. exists []. split; [now rewrite app_nil_r|constructor].
Qed.

(** ** A run of [generate] *)

Lemma generate_eq (opts : options) (ast : option value)
  (symtab : option (list (string * value))) :
  generate opts ast symtab
  = match seed symtab new_generator with
    | (Throw e, g) => generation_error e (result g)
    | (Normal _, g1) =>
        match generateNode_opt ast g1 with
        | (Throw e, g2) => generation_error e (result g2)
        | (Normal _, g2) => finish opts (result g2)
        end
    end.
Proof.
  assert (Hrun : forall (init : Gen unit),
            match (init ;; generateProgramEntry ;; generateNode_opt ast ;;
                   generateProgramExit ;; on_result generateAssembly ;;
                   (if optimizeCode opts then on_result (optimizeInstructions opts)
                    else ret tt) ;;
                   on_result (set_success true)) new_generator with
            | (Normal _, g) => result g
            | (Throw e, g) => generation_error e (result g)
            end
            = match (init ;; generateProgramEntry) new_generator with
              | (Throw e, g) => generation_error e (result g)
              | (Normal _, g1) =>
                  match generateNode_opt ast g1 with
                  | (Throw e, g2) => generation_error e (result g2)
                  | (Normal _, g2) => finish opts (result g2)
                  end
              end).
  { intros init. cbv beta delta [bind].
    destruct (init new_generator) as [[[]|e] g0]; [|reflexivity].
    destruct (generateProgramEntry g0) as [[[]|e] g1]; [|reflexivity].
    destruct (generateNode_opt ast g1) as [[[]|e] g2]; [|reflexivity].
    unfold finish. simpl. destruct (optimizeCode opts); reflexivity. }
  apply Hrun.
Qed.

Lemma initializeSymbolTable_from_frame (entries : list (string * value)) :
  forall addr g out g',
    initializeSymbolTable_from addr entries g = (out, g') ->
    instructions (result g') = instructions (result g)
    /\ assembly (result g') = assembly (result g)
    /\ success (result g') = success (result g)
    /\ errors (result g') = errors (result g).
Proof.
  induction entries as [|[name info] entries IH]; intros addr g out g' H.
  - injection H as _ <-. repeat split.
  - cbn [initializeSymbolTable_from] in H.
    destruct (nullish (Some info)).
    + injection H as _ <-. repeat split.
    + destruct (is_str "variable" (prop "type" info)).
      * unfold bind in H. simpl in H. apply IH in H. simpl in H. exact H.
      * now apply IH in H.
Qed.

(** The state in which the walk starts. *)
Lemma seed_normal (symtab : option (list (string * value))) (g1 : generator) :
  seed symtab new_generator = (Normal tt, g1) ->
  instructions (result g1)
  = [ {| address := 0; opcode_of := PUSH; operand_of := ONum 0;
         comment := "程序开始，初始化栈帧" |} ]
  /\ assembly (result g1) = ""
  /\ success (result g1) = false
  /\ errors (result g1) = [].
Proof.
  assert (F : forall (init : Gen unit),
            (forall out g0, init new_generator = (out, g0) ->
               instructions (result g0) = [] /\ assembly (result g0) = ""
               /\ success (result g0) = false /\ errors (result g0) = []) ->
            (init ;; generateProgramEntry) new_generator = (Normal tt, g1) ->
            instructions (result g1)
            = [ {| address := 0; opcode_of := PUSH; operand_of := ONum 0;
                   comment := "程序开始，初始化栈帧" |} ]
            /\ assembly (result g1) = "" /\ success (result g1) = false
            /\ errors (result g1) = []).
  { intros init Hinit. cbv beta delta [bind].
    destruct (init new_generator) as [[[]|e] g0] eqn:E; [|discriminate].
    destruct (Hinit _ _ eq_refl) as (Fi & Fa & Fs & Fe).
    intros H. injection H as <-. simpl. rewrite Fi. repeat split; assumption. }
  apply F. intros out g0 E. destruct symtab as [entries|].
  - apply initializeSymbolTable_from_frame in E. exact E.
  - injection E as _ <-. repeat split.
Qed.

Lemma generateNode_obj (fs : list (string * value)) :
  generateNode (JObj fs) = generateNode_switch generateNode (JObj fs) fs.
Proof. reflexivity. Qed.

Lemma generateNode_Identifier (fs : list (string * value)) :
  assoc "type" fs = Some (JStr "Identifier") ->
  generateNode (JObj fs) = generateIdentifier fs.
Proof.
  intros H. rewrite generateNode_obj. unfold generateNode_switch. now rewrite H.
Qed.

(** C4.  Generating code for an Identifier whose name has no entry in the
    variable-address table (the table seeded from the symbol table given to
    [generate]) yields a result with [success = false] and one error record,
    whose message ends with the name of the variable. *)
Theorem generate_undefined_identifier :
  forall (opts : options) (fs : list (string * value)) (name : string)
         (symtab : option (list (string * value))) (g1 : generator),
    assoc "type" fs = Some (JStr "Identifier") ->
    assoc "name" fs = Some (JStr name) ->
    seed symtab new_generator = (Normal tt, g1) ->
    assoc name (symbolTable (result g1)) = None ->
    let r := generate opts (Some (JObj fs)) symtab in
    success r = false
    /\ errors r = [ {| error_type := "generation_error";
                       error_message := "未定义的变量: " ++ name |} ].
Proof.
  intros opts fs name symtab g1 Htype Hname Hseed Habsent r.
  unfold r. rewrite generate_eq, Hseed. cbn [generateNode_opt].
  rewrite (generateNode_Identifier fs Htype).
  unfold generateIdentifier, bind, gets. rewrite Hname. cbn [table_get].
  rewrite Habsent. cbn [throw].
  destruct (seed_normal symtab g1 Hseed) as (_ & _ & _ & He).
  split; [reflexivity|]. simpl. rewrite He. reflexivity.
Qed.

Lemma generate_undefined_identifier_witness :
  success (generate default_options
             (Some (JObj [("type", JStr "Identifier"); ("name", JStr "q")])) None) = false
  /\ errors (generate default_options
               (Some (JObj [("type", JStr "Identifier"); ("name", JStr "q")])) None)
     = [ {| error_type := "generation_error"; error_message := "未定义的变量: q" |} ].
Proof.
  exact (generate_undefined_identifier default_options
           [("type", JStr "Identifier"); ("name", JStr "q")] "q" None
           (snd (seed None new_generator)) eq_refl eq_refl eq_refl eq_refl).
Defined.

(** ** A fatal error during the walk *)

Lemma for_each_throw {A : Type} (f : A -> Gen unit) (pre : list A) :
  forall (bad : A) (post : list A) (g ga gb : generator) (e : exn),
    for_each f pre g = (Normal tt, ga) ->
    f bad ga = (Throw e, gb) ->
    for_each f (pre ++ bad :: post) g = (Throw e, gb).
Proof.
  induction pre as [|x pre IH]; intros bad post g ga gb e Hpre Hbad.
  - injection Hpre as <-. simpl. unfold bind. now rewrite Hbad.
  - simpl in *. unfold bind in *.
    destruct (f x g) as [[[]|e'] g0]; [|discriminate Hpre].
    now apply (IH bad post g0 ga gb e).
Qed.

(** C10.  When the walk of the tree throws (an undefined variable in an
    Identifier or an assignment, an unsupported binary or unary operator, or
    any other exception), the run ends there: the result has
    [success = false], holds one error record with the message of the
    exception, its listing is the empty string, its instruction stream is
    what had been emitted when the exception was thrown, and no HALT is in
    it.  In a statement list, the statements after the one that throws are
    not generated: whatever they are, the walk of the list ends in the state
    of the throw. *)
Theorem generate_aborts_on_fatal_error :
  forall (opts : options) (ast : option value)
         (symtab : option (list (string * value))) (g1 g2 : generator) (e : exn),
    seed symtab new_generator = (Normal tt, g1) ->
    generateNode_opt ast g1 = (Throw e, g2) ->
    let r := generate opts ast symtab in
    success r = false
    /\ errors r = [ {| error_type := "generation_error"; error_message := exn_message e |} ]
    /\ assembly r = ""
    /\ instructions r = instructions (result g2)
    /\ (forall ins, In ins (instructions r) -> opcode_of ins <> HALT)
    /\ (forall fs pre bad post g ga gb e',
          (is_str "Program" (assoc "type" fs) || is_str "BlockStatement" (assoc "type" fs)
           = true) ->
          assoc "body" fs = Some (JArr (pre ++ bad :: post)) ->
          for_each generateNode pre g = (Normal tt, ga) ->
          generateNode bad ga = (Throw e', gb) ->
          generateNode (JObj fs) g = (Throw e', gb)).
Proof.
  intros opts ast symtab g1 g2 e Hseed Hwalk r.
  assert (Hr : r = generation_error e (result g2)).
  { unfold r. now rewrite generate_eq, Hseed, Hwalk. }
  destruct (seed_normal symtab g1 Hseed) as (Hi & Ha & Hs & He).
  assert (Hframe : walk_frame (result g1) g2).
  { destruct ast as [node|].
    - now apply (generateNode_frame node g1 (Throw e)).
    - discriminate Hwalk. }
  destruct Hframe as (_ & Fa & _ & Fe & more & Fi & Fm).
  rewrite Hr. unfold generation_error.
  cbn [set_success push_error success errors assembly instructions].
  rewrite Fe, He, Fa, Ha.
  do 4 (split; [reflexivity|]). split.
  - intros ins Hin. rewrite Fi, Hi in Hin. apply in_app_or in Hin.
    destruct Hin as [[<-|[]]|Hin]; [discriminate|].
    rewrite Forall_forall in Fm. now apply Fm.
  - intros fs pre bad post g ga gb e' Htype Hbody Hpre Hbad.
    rewrite generateNode_obj. unfold generateNode_switch.
    assert (Hs' : generateStatements generateNode fs g = (Throw e', gb)).
    { unfold generateStatements. rewrite on_field_assoc, Hbody.
      now apply for_each_throw with (ga := ga). }
    destruct (assoc "type" fs) as [[| | |s| |]|]; try discriminate Htype.
    apply orb_true_iff in Htype. cbn [is_str] in Htype.
    destruct Htype as [Ht|Ht]; apply String.eqb_eq in Ht; subst s; exact Hs'.
Qed.

(** The faults of the generator are exceptions of the walk. *)
Lemma undefined_identifier_throws (fs : list (string * value)) (g : generator) :
  assoc "type" fs = Some (JStr "Identifier") ->
  table_get (symbolTable (result g)) (assoc "name" fs) = None ->
  generateNode (JObj fs) g = (Throw (undefined_variable (assoc "name" fs)), g).
Proof.
  intros Htype Hget. rewrite (generateNode_Identifier fs Htype).
  unfold generateIdentifier, bind, gets. now rewrite Hget.
Qed.

Lemma undefined_assignment_target_throws (fs : list (string * value)) (left : value)
  (g g1 : generator) :
  assoc "type" fs = Some (JStr "AssignmentExpression") ->
  generateChild generateNode "right" fs g = (Normal tt, g1) ->
  assoc "left" fs = Some left ->
  prop "type" left = Some (JStr "Identifier") ->
  table_get (symbolTable (result g1)) (prop "name" left) = None ->
  generateNode (JObj fs) g = (Throw (undefined_variable (prop "name" left)), g1).
Proof.
  intros Htype Hright Hleft Hlt Hget. rewrite generateNode_obj.
  unfold generateNode_switch. rewrite Htype. cbn [is_str String.eqb Ascii.eqb Bool.eqb].
  unfold generateAssignment, bind. rewrite Hright, Hleft.
  destruct left; try discriminate Hlt.
  cbn [nullish prop_of]. rewrite Hlt. cbn [is_str]. rewrite String.eqb_refl.
  unfold gets. now rewrite Hget.
Qed.

Lemma unsupported_binary_operator_throws (fs : list (string * value)) (g g1 g2 : generator) :
  assoc "type" fs = Some (JStr "BinaryExpression") ->
  generateChild generateNode "left" fs g = (Normal tt, g1) ->
  generateChild generateNode "right" fs g1 = (Normal tt, g2) ->
  binary_opcode (assoc "operator" fs) = None ->
  generateNode (JObj fs) g
  = (Throw (Error ("不支持的二元运算符: " ++ js_String (assoc "operator" fs))), g2).
Proof.
  intros Htype Hl Hr Hop. rewrite generateNode_obj.
  unfold generateNode_switch. rewrite Htype. cbn [is_str String.eqb Ascii.eqb Bool.eqb].
  unfold generateBinaryExpression, bind. now rewrite Hl, Hr, Hop.
Qed.

Lemma unsupported_unary_operator_throws (fs : list (string * value)) (g g1 : generator) :
  assoc "type" fs = Some (JStr "UnaryExpression") ->
  generateChild generateNode "argument" fs g = (Normal tt, g1) ->
  unary_opcode (assoc "operator" fs) = None ->
  generateNode (JObj fs) g
  = (Throw (Error ("不支持的一元运算符: " ++ js_String (assoc "operator" fs))), g1).
Proof.
  intros Htype Ha Hop. rewrite generateNode_obj.
  unfold generateNode_switch. rewrite Htype. cbn [is_str String.eqb Ascii.eqb Bool.eqb].
  unfold generateUnaryExpression, bind. now rewrite Ha, Hop.
Qed.

Lemma generate_aborts_on_fatal_error_witness :
  success (generate default_options (Some program_reading_q) None) = false
  /\ assembly (generate default_options (Some program_reading_q) None) = ""
  /\ map opcode_of (instructions (generate default_options (Some program_reading_q) None))
     = [PUSH; LOAD; POP].
Proof.
  destruct (generate_aborts_on_fatal_error default_options (Some program_reading_q) None
              (snd (seed None new_generator))
              (snd (generateNode_opt (Some program_reading_q) (snd (seed None new_generator))))
              (Error "未定义的变量: q") eq_refl eq_refl)
    as (Hs & _ & Ha & Hi & _).
  split; [exact Hs|]. split; [exact Ha|]. rewrite Hi. reflexivity.
Defined.

(** ** Variable declarations *)

Lemma for_each_app {A : Type} (f : A -> Gen unit) (pre : list A) :
  forall (x : A) (post : list A) (g ga : generator),
    for_each f pre g = (Normal tt, ga) ->
    for_each f (pre ++ x :: post) g = (f x ;; for_each f post) ga.
Proof.
  induction pre as [|y pre IH]; intros x post g ga Hpre.
  - injection Hpre as <-. reflexivity.
  - simpl in *. unfold bind in *.
    destruct (f y g) as [[[]|e'] g0]; [|discriminate Hpre].
    now apply IH.
Qed.

(** The walk never writes the variable-address table. *)
Lemma preserves_symbolTable_hyps (t : list (string * nat)) :
  let P := fun g => symbolTable (result g) = t in
  (forall op arg cmt g, op <> HALT -> P g -> P (snd (emit op arg cmt g)))
  /\ (forall name g, P g -> P (snd (on_result (addLabel name) g)))
  /\ (forall w g, P g -> P (snd (on_result (push_warning w) g)))
  /\ (forall prefix g, P g -> P (snd (generateLabel prefix g))).
Proof. repeat split; intros; assumption. Qed.

Lemma generateNode_symbolTable (node : value) (g : generator) (out : completion unit)
  (g' : generator) :
  generateNode node g = (out, g') -> symbolTable (result g') = symbolTable (result g).
Proof.
  intros H. destruct (generateNode_frame node g out g' H) as (Hs & _). exact Hs.
Qed.

Lemma declarators_symbolTable (ds : list value) (g : generator) (out : completion unit)
  (g' : generator) :
  for_each (generateDeclarator generateNode) ds g = (out, g') ->
  symbolTable (result g') = symbolTable (result g).
Proof.
  intros H.
  destruct (preserves_symbolTable_hyps (symbolTable (result g))) as (H1 & H2 & H3 & H4).
  apply (preserves_for_each (fun g0 => symbolTable (result g0) = symbolTable (result g))
           (generateDeclarator generateNode) ds) with (g := g) (out := out);
    [|exact H|reflexivity].
  intros d _. apply generateDeclarator_preserves; assumption.
Qed.

(** C5.  The code does not do what the claim says.  For the declaration
    of a name with no seeded entry, [generateVariableDeclaration] assigns no
    address: [symbolTable.get] returns [undefined], which the default
    [operand = null] of [addInstruction] turns into [null], so that the
    STORE has no operand, the listing prints it without an address, the
    table stays empty, and the run succeeds.  The sibling paths test
    [address !== undefined]: [generateAssignment] and [generateIdentifier]
    throw for the same name. *)
Lemma declaration_without_seed_gets_no_address :
  success (generate default_options (Some declaration_of_x) None) = true
  /\ symbolTable (generate default_options (Some declaration_of_x) None) = []
  /\ map (fun i => (opcode_of i, operand_of i))
         (instructions (generate default_options (Some declaration_of_x) None))
     = [ (PUSH, ONum 0); (LOAD, OImm (Some (JNum "10"))); (STORE, ONull); (HALT, ONull) ]
  /\ assembly (generate default_options (Some declaration_of_x) None)
     = join newline
         [ "; 编译器生成的汇编代码"; "; 目标机：基于栈的虚拟机"; "";
           "0000: PUSH 0 ; 程序开始，初始化栈帧";
           "0001: LOAD 10 ; 加载常量 10";
           "0002: STORE ; 存储到变量 x";
           "0003: HALT ; 程序结束" ]
  /\ ~ (exists a ins,
          assoc "x" (symbolTable (generate default_options (Some declaration_of_x) None))
          = Some a
          /\ In ins (instructions (generate default_options (Some declaration_of_x) None))
          /\ opcode_of ins = STORE /\ operand_of ins = OAddr (Some a))
  /\ errors (generate default_options (Some assignment_to_x) None)
     = [ {| error_type := "generation_error"; error_message := "未定义的变量: x" |} ]
  /\ errors (generate default_options
               (Some (JObj [("type", JStr "Identifier"); ("name", JStr "x")])) None)
     = [ {| error_type := "generation_error"; error_message := "未定义的变量: x" |} ].
Proof.
  split; [reflexivity|]. split; [reflexivity|]. split; [reflexivity|].
  split; [vm_compute; reflexivity|]. split; [|split; reflexivity].
  intros (a & ins & Ha & _). discriminate Ha.
Qed.

(** X23.  For every declarator of a VariableDeclaration with an
    initializer, whose declared name has a seeded entry in the
    variable-address table, the generator emits, right after the code of the
    initializer, a STORE whose operand is the seeded address, and goes on
    with the declarators that follow; the walk assigns no address: the table
    it leaves is the table it found. *)
Theorem declaration_stores_at_seeded_address :
  forall (fs dfs : list (string * value)) (pre post : list value) (init : value)
         (name : string) (addr : nat) (g ga gb : generator),
    assoc "type" fs = Some (JStr "VariableDeclaration") ->
    assoc "declarations" fs = Some (JArr (pre ++ JObj dfs :: post)) ->
    assoc "init" dfs = Some init ->
    truthy (Some init) = true ->
    prop_of "name" (assoc "id" dfs) = Some (JStr name) ->
    assoc name (symbolTable (result g)) = Some addr ->
    for_each (generateDeclarator generateNode) pre g = (Normal tt, ga) ->
    generateNode init ga = (Normal tt, gb) ->
    let stored := snd (emit STORE (OAddr (Some addr)) ("存储到变量 " ++ name) gb) in
    generateNode (JObj fs) g = for_each (generateDeclarator generateNode) post stored
    /\ instructions (result stored)
       = instructions (result gb)
         ++ [ {| address := List.length (instructions (result gb)); opcode_of := STORE;
                 operand_of := OAddr (Some addr); comment := "存储到变量 " ++ name |} ]
    /\ (forall out g', generateNode (JObj fs) g = (out, g') ->
                       symbolTable (result g') = symbolTable (result g)).
Proof.
  intros fs dfs pre post init name addr g ga gb Htype Hdecls Hinit Htruthy Hname Hseeded
         Hpre Hgen stored.
  split; [|split].
  - rewrite generateNode_obj. unfold generateNode_switch. rewrite Htype.
    cbn [is_str String.eqb Ascii.eqb Bool.eqb].
    unfold generateVariableDeclaration. rewrite on_field_assoc, Hdecls.
    cbn [truthy]. rewrite (for_each_app _ pre (JObj dfs) post g ga Hpre).
    unfold bind at 1. cbn [generateDeclarator]. rewrite on_field_assoc, Hinit, Htruthy.
    unfold bind at 1. rewrite Hgen.
    assert (Hid : nullish (assoc "id" dfs) = false).
    { destruct (assoc "id" dfs) as [[]|]; try reflexivity; discriminate Hname. }
    rewrite Hid, Hname. unfold bind at 1, gets. cbn [table_get js_String js_String_value].
    rewrite (generateNode_symbolTable init ga _ gb Hgen).
    rewrite (declarators_symbolTable pre g _ ga Hpre), Hseeded.
    reflexivity.
  - reflexivity.
  - intros out g' H. exact (generateNode_symbolTable _ _ _ _ H).
Qed.

Lemma declaration_stores_at_seeded_address_witness :
  map (fun i => (opcode_of i, operand_of i))
    (instructions
       (result (snd (generateNode declaration_of_x
                       (snd (seed (Some [("x", JObj [("type", JStr "variable")])])
                               new_generator))))))
  = [ (PUSH, ONum 0); (LOAD, OImm (Some (JNum "10"))); (STORE, OAddr (Some 0)) ].
Proof.
  destruct (declaration_stores_at_seeded_address
              [("type", JStr "VariableDeclaration");
               ("declarations",
                JArr [ JObj [("type", JStr "VariableDeclarator");
                             ("id", JObj [("type", JStr "Identifier"); ("name", JStr "x")]);
                             ("init", JObj [("type", JStr "Literal"); ("value", JNum "10")])] ])]
              [("type", JStr "VariableDeclarator");
               ("id", JObj [("type", JStr "Identifier"); ("name", JStr "x")]);
               ("init", JObj [("type", JStr "Literal"); ("value", JNum "10")])]
              [] [] (JObj [("type", JStr "Literal"); ("value", JNum "10")]) "x" 0
              (snd (seed (Some [("x", JObj [("type", JStr "variable")])]) new_generator))
              (snd (seed (Some [("x", JObj [("type", JStr "variable")])]) new_generator))
              (snd (generateNode (JObj [("type", JStr "Literal"); ("value", JNum "10")])
                      (snd (seed (Some [("x", JObj [("type", JStr "variable")])])
                              new_generator))))
              eq_refl eq_refl eq_refl eq_refl eq_refl eq_refl eq_refl eq_refl)
    as (Hrun & _ & _).
  unfold declaration_of_x. rewrite Hrun. reflexivity.
Defined.

(** ** The listing *)

Lemma peep_unchanged (l : list instruction) : peep_changed l = false -> peep l = l.
Proof.
  induction l as [|x|x y rest E IH|x y rest E IH] using peep_ind2; intros H;
    try reflexivity.
  - cbn [peep_changed] in H. rewrite E in H. discriminate H.
  - change ((if is_push_pop x y then true else peep_changed (y :: rest)) = false) in H.
    change ((if is_push_pop x y then peep rest else x :: peep (y :: rest)) = x :: y :: rest).
    rewrite E in *. now rewrite IH.
Qed.

(** On a successful run the listing is rendered from the stream as the walk
    and the epilogue left it, before the peephole pass; the stream of the
    result is what the pass makes of it. *)
Lemma generate_renders_before_peephole :
  forall (opts : options) (ast : option value)
         (symtab : option (list (string * value))) (g1 g2 : generator),
    seed symtab new_generator = (Normal tt, g1) ->
    generateNode_opt ast g1 = (Normal tt, g2) ->
    let emitted := addInstruction HALT ONull "程序结束" (result g2) in
    let r := generate opts ast symtab in
    success r = true
    /\ assembly r = join newline (assembly_lines emitted)
    /\ instructions r
       = if optimizeCode opts
         then instructions (optimizeInstructions opts emitted)
         else instructions emitted.
Proof.
  intros opts ast symtab g1 g2 Hseed Hwalk emitted r.
  unfold r. rewrite generate_eq, Hseed, Hwalk. unfold finish. fold emitted.
  destruct (optimizeCode opts) eqn:Ho.
  - split; [reflexivity|]. unfold optimizeInstructions. rewrite Ho. cbn [negb].
    cbn [generateAssembly set_assembly instructions].
    destruct (peephole_loop (List.length (instructions emitted)) (instructions emitted) 0 false)
      as [instrs [|]]; repeat split.
  - repeat split.
Qed.

(** C2 fails on the code.  For [discarded_literal] the walk emits
    [PUSH 0; POP; HALT]; the peephole pass deletes the pair and leaves
    [HALT] at address 0, but the listing, rendered before the pass, still
    has the three lines. *)
Lemma generate_listing_keeps_deleted_instructions :
  map (fun i => (address i, opcode_of i))
      (instructions (generate default_options (Some discarded_literal) None))
  = [ (0, HALT) ]
  /\ assembly (generate default_options (Some discarded_literal) None)
     = join newline
         [ "; 编译器生成的汇编代码"; "; 目标机：基于栈的虚拟机"; "";
           "0000: PUSH 0 ; 程序开始，初始化栈帧";
           "0001: POP ; 弹出表达式结果";
           "0002: HALT ; 程序结束" ].
Proof. split; reflexivity. Qed.

(** X1.  Where the peephole pass deletes nothing, the listing of a
    successful run does have one line for each instruction of the result, in
    address order. *)
Lemma generate_listing_without_deletion :
  forall (opts : options) (ast : option value)
         (symtab : option (list (string * value))) (g1 g2 : generator),
    seed symtab new_generator = (Normal tt, g1) ->
    generateNode_opt ast g1 = (Normal tt, g2) ->
    peep_changed (instructions (addInstruction HALT ONull "程序结束" (result g2))) = false ->
    let r := generate opts ast symtab in
    assembly r = join newline (assembly_lines r).
Proof.
  intros opts ast symtab g1 g2 Hseed Hwalk Hsame r.
  destruct (generate_renders_before_peephole opts ast symtab g1 g2 Hseed Hwalk)
    as (_ & Ha & Hi).
  fold r in Ha, Hi. rewrite Ha.
  set (emitted := addInstruction HALT ONull "程序结束" (result g2)) in *.
  assert (Hsame_i : instructions r = instructions emitted).
  { rewrite Hi. destruct (optimizeCode opts) eqn:Ho; [|reflexivity].
    rewrite optimizeInstructions_instructions by assumption. rewrite Hsame.
    now apply peep_unchanged. }
  assert (Hsame_t : symbolTable r = symbolTable emitted).
  { unfold r. rewrite generate_eq, Hseed, Hwalk. unfold finish. fold emitted.
    destruct (optimizeCode opts) eqn:Ho; [|reflexivity].
    unfold optimizeInstructions. rewrite Ho. cbn [negb].
    destruct (peephole_loop (List.length (instructions (generateAssembly emitted)))
                (instructions (generateAssembly emitted)) 0 false) as [instrs [|]];
      reflexivity. }
  unfold assembly_lines. now rewrite Hsame_i, Hsame_t.
Qed.

Lemma generate_listing_without_deletion_witness :
  assembly (generate default_options None None)
  = join newline (assembly_lines (generate default_options None None)).
Proof.
  exact (generate_listing_without_deletion default_options None None
           (snd (seed None new_generator)) (snd (seed None new_generator))
           eq_refl eq_refl eq_refl).
Defined.

(* ================================================================== *)
(** ** The optimizer                                                    *)
(* ================================================================== *)

Module OptFacts.
Import Opt.

(** *** Computations as writers of events *)

Lemma apply_events_app (es1 es2 : list event) (s : pass_state) :
  apply_events (es1 ++ es2) s = apply_events es2 (apply_events es1 s).
Proof. apply fold_left_app. Qed.

Lemma recorded_app (es1 es2 : list event) :
  recorded (es1 ++ es2) = recorded es1 + recorded es2.
Proof.
  induction es1 as [|[c text n|w] es1 IH]; simpl; [reflexivity| |]; now rewrite IH.
Qed.

Lemma W_ret {A : Type} (a : A) (Q : completion A -> list event -> Prop) :
  Q (Normal a) [] -> W (ret a) Q.
Proof. intros H. exists (Normal a), []. split; [intros s; reflexivity|exact H]. Qed.

Lemma W_throw {A : Type} (e : exn) (Q : completion A -> list event -> Prop) :
  Q (Throw e) [] -> W (throw e) Q.
Proof. intros H. exists (Throw e), []. split; [intros s; reflexivity|exact H]. Qed.

Lemma W_record (c : counter) (text : string) (n : value)
  (Q : completion unit -> list event -> Prop) :
  Q (Normal tt) [Recorded c text n] -> W (record_optimization c text n) Q.
Proof.
  intros H. exists (Normal tt), [Recorded c text n]. split; [intros s; reflexivity|exact H].
Qed.

Lemma W_warn (w : string) (Q : completion unit -> list event -> Prop) :
  Q (Normal tt) [Warned w] -> W (warn w) Q.
Proof.
  intros H. exists (Normal tt), [Warned w]. split; [intros s; reflexivity|exact H].
Qed.

Lemma W_bind {A B : Type} (c : Pass A) (k : A -> Pass B)
  (Q1 : completion A -> list event -> Prop) (Q : completion B -> list event -> Prop) :
  W c Q1 ->
  (forall a es1, Q1 (Normal a) es1 -> W (k a) (fun out es2 => Q out (es1 ++ es2))) ->
  (forall e es1, Q1 (Throw e) es1 -> Q (Throw e) es1) ->
  W (bind c k) Q.
Proof.
  intros (out1 & es1 & Hc & H1) Hk He. destruct out1 as [a|e].
  - destruct (Hk a es1 H1) as (out2 & es2 & Hka & H2).
    exists out2, (es1 ++ es2). split; [|exact H2].
    intros s. unfold bind. rewrite Hc, Hka. now rewrite apply_events_app.
  - exists (Throw e), es1. split; [|now apply He].
    intros s. unfold bind. now rewrite Hc.
Qed.

Lemma W_weaken {A : Type} (c : Pass A) (Q Q' : completion A -> list event -> Prop) :
  W c Q -> (forall out es, Q out es -> Q' out es) -> W c Q'.
Proof. intros (out & es & Hc & H) HQ. exists out, es. split; [exact Hc|now apply HQ]. Qed.

(** *** What the passes are shown to do *)

Lemma recorded_app_0 (es1 es2 : list event) :
  recorded (es1 ++ es2) = 0 -> recorded es1 = 0 /\ recorded es2 = 0.
Proof. rewrite recorded_app. lia. Qed.

Lemma map_fields_spec (pass : value -> Pass (option value)) (fs : list (string * value)) :
  Forall (fun e => W (pass (snd e)) (pass_spec (snd e))) fs ->
  W (map_fields pass fs) (fields_spec fs).
Proof.
  induction fs as [|[k c] fs IH]; intros H.
  - apply W_ret. split.
    + intros fs' E _. now injection E as <-.
    + intros _. exists []. split; [reflexivity|constructor].
  - inversion H as [|? ? Hc Hfs]; subst. cbn [map_fields].
    eapply W_bind; [exact Hc| |].
    + intros r es1 [Hsame Hwf]. cbn [snd] in *.
      eapply W_bind; [exact (IH Hfs)| |].
      * intros rest' es2 [Hsame' Hwf']. apply W_ret. rewrite app_nil_r. split.
        -- intros fs' E Hz. injection E as <-.
           apply recorded_app_0 in Hz. destruct Hz as [Hz1 Hz2].
           rewrite (Hsame r eq_refl Hz1), (Hsame' rest' eq_refl Hz2). reflexivity.
        -- intros Hall. inversion Hall as [|? ? Hwc Hwfs]; subst.
           destruct (Hwf Hwc) as (c' & E & Hk). injection E as ->.
           destruct (Hwf' Hwfs) as (fs' & E & Hks). injection E as <-.
           exists ((k, c') :: rest'). split; [reflexivity|].
           constructor; [split; [reflexivity|exact Hk]|exact Hks].
      * intros e es2 [_ Hwf']. split; [discriminate|].
        intros Hall. inversion Hall as [|? ? Hwc Hwfs]; subst.
        destruct (Hwf' Hwfs) as (fs' & E & _). discriminate E.
    + intros e es1 [_ Hwf]. split; [discriminate|].
      intros Hall. inversion Hall as [|? ? Hwc Hwfs]; subst. cbn [snd] in *.
      destruct (Hwf Hwc) as (c' & E & _). discriminate E.
Qed.

Lemma map_elems_spec (pass : value -> Pass (option value)) (l : list value) :
  Forall (fun c => W (pass c) (pass_spec c)) l ->
  W (map_elems pass l) (elems_spec l).
Proof.
  induction l as [|c l IH]; intros H.
  - apply W_ret. split.
    + intros l' E _. now injection E as <-.
    + intros _. exists []. split; [reflexivity|constructor].
  - inversion H as [|? ? Hc Hl]; subst. cbn [map_elems].
    eapply W_bind; [exact Hc| |].
    + intros r es1 [Hsame Hwf].
      eapply W_bind; [exact (IH Hl)| |].
      * intros rest' es2 [Hsame' Hwf']. apply W_ret. rewrite app_nil_r. split.
        -- intros l' E Hz. injection E as <-.
           apply recorded_app_0 in Hz. destruct Hz as [Hz1 Hz2].
           rewrite (Hsame r eq_refl Hz1), (Hsame' rest' eq_refl Hz2). reflexivity.
        -- intros Hall. inversion Hall as [|? ? Hwc Hwl]; subst.
           destruct (Hwf Hwc) as (c' & E & Hk). injection E as ->.
           destruct (Hwf' Hwl) as (l' & E & Hks). injection E as <-.
           exists (c' :: rest'). split; [reflexivity|].
           constructor; assumption.
      * intros e es2 [_ Hwf']. split; [discriminate|].
        intros Hall. inversion Hall as [|? ? Hwc Hwl]; subst.
        destruct (Hwf' Hwl) as (l' & E & _). discriminate E.
    + intros e es1 [_ Hwf]. split; [discriminate|].
      intros Hall. inversion Hall as [|? ? Hwc Hwl]; subst.
      destruct (Hwf Hwc) as (c' & E & _). discriminate E.
Qed.

(** *** Well-formed trees *)

Lemma well_formed_arr (l : list value) :
  well_formed (JArr l) = true <-> all_well_formed l.
Proof.
  cbn [well_formed]. unfold all_well_formed. rewrite forallb_forall, Forall_forall. tauto.
Qed.

Lemma well_formed_obj (fs : list (string * value)) :
  well_formed (JObj fs) = true
  <-> all_well_formed (values fs) /\ well_formed_node fs = true.
Proof.
  cbn [well_formed]. rewrite andb_true_iff.
  assert (H : (fix all (fs0 : list (string * value)) : bool :=
                 match fs0 with
                 | [] => true
                 | (_, c) :: rest => well_formed c && all rest
                 end) fs = true <-> all_well_formed (values fs)).
  { unfold all_well_formed, values. induction fs as [|[k c] fs IH]; simpl.
    - split; [constructor|reflexivity].
    - rewrite andb_true_iff, IH. split.
      + intros [H1 H2]. now constructor.
      + intros H. inversion H; subst. now split. }
  now rewrite H.
Qed.

Lemma shape_kept_not_null (v v' : value) : shape_kept v v' -> v <> JNull -> v' <> JNull.
Proof.
  destruct v; cbn [shape_kept]; intros H Hv; try (subst v'; exact Hv); try exact H.
  destruct H as (l' & -> & _). discriminate.
Qed.

Lemma shape_kept_refl (v : value) : shape_kept v v.
Proof.
  destruct v; cbn [shape_kept]; try reflexivity; try discriminate.
  exists elems. split; [reflexivity|]. auto.
Qed.

Lemma assoc_kept (fs fs' : list (string * value)) (k : string) :
  Forall2 same_key_kept fs fs' ->
  match assoc k fs with
  | Some c => exists c', assoc k fs' = Some c' /\ kept c c'
  | None => assoc k fs' = None
  end.
Proof.
  induction 1 as [|[k1 c1] [k2 c2] fs fs' [Hk Hc] _ IH]; [reflexivity|].
  cbn [fst snd] in *. subst k2. cbn [assoc].
  destruct (String.eqb k1 k); [|exact IH]. now exists c2.
Qed.

Lemma values_kept (fs fs' : list (string * value)) :
  Forall2 same_key_kept fs fs' -> all_well_formed (values fs').
Proof.
  induction 1 as [|e e' fs fs' [_ [Hw _]] _ IH]; constructor; assumption.
Qed.

Lemma elems_kept (l l' : list value) :
  Forall2 kept l l' ->
  all_well_formed l'
  /\ (Forall (fun a => a <> JNull) l -> Forall (fun b => b <> JNull) l').
Proof.
  induction 1 as [|a b l l' [Hw Hs] _ [IH1 IH2]]; split; try constructor; try assumption.
  - inversion H; subst. now apply (shape_kept_not_null a).
  - inversion H; subst. now apply IH2.
Qed.

Lemma nullish_not_null (c : value) : nullish (Some c) = false <-> c <> JNull.
Proof. destruct c; simpl; split; intros H; congruence. Qed.

Lemma well_formed_node_kept (fs fs' : list (string * value)) :
  Forall2 same_key_kept fs fs' ->
  well_formed_node fs = true -> well_formed_node fs' = true.
Proof.
  intros H. unfold well_formed_node.
  pose proof (assoc_kept fs fs' "type" H) as Ht.
  pose proof (assoc_kept fs fs' "left" H) as Hl.
  pose proof (assoc_kept fs fs' "right" H) as Hr.
  pose proof (assoc_kept fs fs' "body" H) as Hb.
  destruct (assoc "type" fs) as [t|]; [|now rewrite Ht].
  destruct Ht as (t' & -> & _ & Ht).
  destruct t; try discriminate. cbn [shape_kept] in Ht. subst t'.
  rewrite !andb_true_iff. intros [H1 H2]. split.
  - destruct (String.eqb s "BinaryExpression"); [|reflexivity].
    apply andb_true_iff in H1. destruct H1 as [Hl1 Hr1].
    apply negb_true_iff in Hl1, Hr1.
    destruct (assoc "left" fs) as [l|]; [|discriminate Hl1].
    destruct (assoc "right" fs) as [r|]; [|discriminate Hr1].
    destruct Hl as (l' & -> & _ & Hl). destruct Hr as (r' & -> & _ & Hr).
    apply nullish_not_null in Hl1, Hr1.
    apply (shape_kept_not_null _ _ Hl) in Hl1. apply (shape_kept_not_null _ _ Hr) in Hr1.
    apply nullish_not_null in Hl1, Hr1. now rewrite Hl1, Hr1.
  - destruct (String.eqb s "Program"); [|reflexivity]. cbn [andb] in *.
    destruct (assoc "body" fs) as [b|].
    + destruct Hb as (b' & -> & Hwb & Hb).
      destruct b; cbn [shape_kept] in Hb; try (subst b'; exact H2).
      * destruct Hb as (l' & -> & Hb). cbn [truthy] in *.
        apply forallb_forall. intros x Hx.
        rewrite forallb_forall in H2.
        assert (Hnn : Forall (fun a => a <> JNull) elems).
        { apply Forall_forall. intros y Hy.
          apply nullish_not_null, negb_true_iff, H2, Hy. }
        apply Hb in Hnn. rewrite Forall_forall in Hnn.
        apply negb_true_iff, nullish_not_null, Hnn, Hx.
      * discriminate H2.
    + rewrite Hb. reflexivity.
Qed.

(** *** A pass that rewrites the children first *)

Section BottomUp.
Variable pass : value -> Pass (option value).
Variable rule : list (string * value) -> Pass (option value).
Hypothesis pass_obj : forall fs, pass (JObj fs) = (fs' <- map_fields pass fs ;; rule fs')%js.
Hypothesis pass_arr :
  forall l, pass (JArr l) = (l' <- map_elems pass l ;; ret (Some (JArr l')))%js.
Hypothesis pass_atom :
  forall v, match v with
            | JArr _ | JObj _ => True
            | _ => pass v = ret (Some v)
            end.
Hypothesis rule_ok : forall fs, W (rule fs) (rule_spec fs).

Lemma atom_spec (v : value) :
  match v with
  | JArr _ | JObj _ => True
  | _ => W (ret (Some v)) (pass_spec v)
  end.
Proof.
  destruct v; try exact I; apply W_ret; (split;
    [ intros r E _; now injection E as <-
    | intros _; eexists; split; [reflexivity|split; reflexivity] ]).
Qed.

Lemma bottom_up_spec (v : value) : W (pass v) (pass_spec v).
Proof.
  induction v as [| b | t | s | l IH | fs IH] using value_ind.
  - rewrite (pass_atom JNull). exact (atom_spec JNull).
  - rewrite (pass_atom (JBool b)). exact (atom_spec (JBool b)).
  - rewrite (pass_atom (JNum t)). exact (atom_spec (JNum t)).
  - rewrite (pass_atom (JStr s)). exact (atom_spec (JStr s)).
  - rewrite pass_arr. eapply W_bind; [exact (map_elems_spec pass l IH)| |].
    + intros l' es1 [Hsame Hwf]. apply W_ret. rewrite app_nil_r. split.
      * intros r E Hz. injection E as <-. now rewrite (Hsame l' eq_refl Hz).
      * intros Hw. apply well_formed_arr in Hw.
        destruct (Hwf Hw) as (l2 & E & Hk). injection E as <-.
        destruct (elems_kept _ _ Hk) as [Hw' Hs].
        exists (JArr l'). split; [reflexivity|]. split.
        -- now apply well_formed_arr.
        -- exists l'. now split.
    + intros e es1 [_ Hwf]. split; [discriminate|].
      intros Hw. apply well_formed_arr in Hw.
      destruct (Hwf Hw) as (l2 & E & _). discriminate E.
  - rewrite pass_obj. eapply W_bind; [exact (map_fields_spec pass fs IH)| |].
    + intros fs' es1 [Hsame Hwf].
      apply (W_weaken _ _ _ (rule_ok fs')). intros out es2 [Rsame Rwf]. split.
      * intros r E Hz. apply recorded_app_0 in Hz. destruct Hz as [Hz1 Hz2].
        rewrite <- (Hsame fs' eq_refl Hz1). now apply Rsame.
      * intros Hw. apply well_formed_obj in Hw. destruct Hw as [Hall Hnode].
        destruct (Hwf Hall) as (fs2 & E & Hk). injection E as <-.
        destruct (Rwf (values_kept _ _ Hk) (well_formed_node_kept _ _ Hk Hnode))
          as (v' & -> & Hw' & Hn).
        exists v'. split; [reflexivity|]. split; [exact Hw'|exact Hn].
    + intros e es1 [_ Hwf]. split; [discriminate|].
      intros Hw. apply well_formed_obj in Hw. destruct Hw as [Hall _].
      destruct (Hwf Hall) as (fs2 & E & _). discriminate E.
Qed.
End BottomUp.

(** *** The rewriting of one node *)

Lemma rule_ret (fs : list (string * value)) : W (ret (Some (JObj fs))) (rule_spec fs).
Proof.
  apply W_ret. split.
  - intros r E _. now injection E as <-.
  - intros Hall Hnode. exists (JObj fs). split; [reflexivity|]. split; [|discriminate].
    apply well_formed_obj. now split.
Qed.

Lemma rule_throw (fs : list (string * value)) (e : exn) :
  (all_well_formed (values fs) -> well_formed_node fs = true -> False) ->
  W (throw e) (rule_spec fs).
Proof.
  intros H. apply W_throw. split; [discriminate|].
  intros Hall Hnode. destruct (H Hall Hnode).
Qed.

Lemma rule_record (fs : list (string * value)) (c : counter) (text : string)
  (n : value) (kept_node : option value) :
  (all_well_formed (values fs) -> well_formed_node fs = true ->
   exists v', kept_node = Some v' /\ well_formed v' = true /\ v' <> JNull) ->
  W (record_optimization c text n ;; ret kept_node)%js (rule_spec fs).
Proof.
  intros H.
  apply W_bind with (Q1 := fun out es => out = Normal tt /\ es = [Recorded c text n]).
  - apply W_record. now split.
  - intros [] es1 [_ ->]. apply W_ret. split.
    + intros r _ Hz. discriminate Hz.
    + intros Hall Hnode. destruct (H Hall Hnode) as (v' & -> & Hw & Hn).
      exists v'. now split.
  - intros e es1 [E _]. discriminate E.
Qed.

Lemma rule_warn (fs : list (string * value)) (w : string) :
  W (warn w ;; ret (Some (JObj fs)))%js (rule_spec fs).
Proof.
  apply W_bind with (Q1 := fun out es => out = Normal tt /\ es = [Warned w]).
  - apply W_warn. now split.
  - intros [] es1 [_ ->]. apply (W_weaken _ _ _ (rule_ret fs)).
    intros out es2 [H1 H2]. split; [|exact H2].
    intros r E Hz. apply H1; [exact E|]. exact Hz.
  - intros e es1 [E _]. discriminate E.
Qed.

Lemma well_formed_child (fs : list (string * value)) (k : string) (c : value) :
  all_well_formed (values fs) -> assoc k fs = Some c -> well_formed c = true.
Proof.
  intros Hall Hc. unfold all_well_formed in Hall. rewrite Forall_forall in Hall.
  apply Hall. now apply (assoc_In k).
Qed.

(** The operands of a well-formed BinaryExpression. *)
Lemma well_formed_operands (fs : list (string * value)) :
  is_str "BinaryExpression" (assoc "type" fs) = true ->
  all_well_formed (values fs) -> well_formed_node fs = true ->
  (exists l, assoc "left" fs = Some l /\ well_formed l = true /\ l <> JNull)
  /\ (exists r, assoc "right" fs = Some r /\ well_formed r = true /\ r <> JNull).
Proof.
  intros Ht Hall Hnode. unfold well_formed_node in Hnode.
  destruct (assoc "type" fs) as [[| | |kind| |]|]; try discriminate Ht.
  cbn [is_str] in Ht. rewrite Ht in Hnode.
  apply andb_true_iff in Hnode. destruct Hnode as [Hlr _].
  apply andb_true_iff in Hlr. destruct Hlr as [Hl Hr].
  apply negb_true_iff in Hl, Hr.
  destruct (assoc "left" fs) as [l|] eqn:El; [|discriminate Hl].
  destruct (assoc "right" fs) as [r|] eqn:Er; [|discriminate Hr].
  split; [exists l|exists r]; (split; [reflexivity|]); split;
    try (now apply nullish_not_null);
    eapply well_formed_child; eassumption.
Qed.

Lemma well_formed_foldedNode (fs : list (string * value)) (text : string) :
  all_well_formed (values fs) ->
  well_formed (foldedNode text (assoc "line" fs) (assoc "column" fs)) = true.
Proof.
  intros Hall. unfold foldedNode.
  destruct (assoc "line" fs) as [l|] eqn:El; destruct (assoc "column" fs) as [c|] eqn:Ec;
    cbn -[String.eqb]; 
    try rewrite (well_formed_child fs "line" l Hall El);
    try rewrite (well_formed_child fs "column" c Hall Ec); reflexivity.
Qed.

Section WithHost.
Context {host : HostArith}.

Lemma fold_node_spec (fs : list (string * value)) : W (fold_node fs) (rule_spec fs).
Proof.
  unfold fold_node.
  destruct (is_str "BinaryExpression" (assoc "type" fs)) eqn:Et; [|apply rule_ret].
  pose proof (well_formed_operands fs Et) as Hops.
  destruct (nullish (assoc "left" fs)) eqn:El.
  { apply rule_throw. intros Hall Hnode.
    destruct (Hops Hall Hnode) as [(l & E & _ & Hl) _]. rewrite E in El.
    apply nullish_not_null in Hl. congruence. }
  destruct (is_str "NumericLiteral" (prop_of "type" (assoc "left" fs))); [|apply rule_ret].
  destruct (nullish (assoc "right" fs)) eqn:Er.
  { apply rule_throw. intros Hall Hnode.
    destruct (Hops Hall Hnode) as [_ (r & E & _ & Hr)]. rewrite E in Er.
    apply nullish_not_null in Hr. congruence. }
  destruct (is_str "NumericLiteral" (prop_of "type" (assoc "right" fs))); [|apply rule_ret].
  assert (Hfolded : forall text text',
            W (record_optimization constantFoldings_ text (JObj fs) ;;
               ret (Some (foldedNode text' (assoc "line" fs) (assoc "column" fs))))%js
              (rule_spec fs)).
  { intros text text'. apply rule_record. intros Hall _.
    eexists. split; [reflexivity|]. split; [now apply well_formed_foldedNode|discriminate]. }
  cbv zeta.
  repeat match goal with
         | |- W (if ?c then _ else _) _ => destruct c
         end;
    first [ apply Hfolded | apply rule_warn | apply rule_ret ].
Qed.

Lemma constantFolding_spec (v : value) : W (constantFolding v) (pass_spec v).
Proof.
  apply bottom_up_spec with (rule := fold_node).
  - reflexivity.
  - reflexivity.
  - intros [| | | | |]; try exact I; reflexivity.
  - exact fold_node_spec.
Qed.

(** The test of an operand either throws, on an operand that is [null] or
    [undefined], or answers without an event. *)
Lemma rule_literal_with (fs : list (string * value)) (test : num -> bool)
  (x : option value) (k : bool -> Pass (option value)) :
  (forall b, W (k b) (rule_spec fs)) ->
  (nullish x = true ->
   all_well_formed (values fs) -> well_formed_node fs = true -> False) ->
  W (b <- literal_with test x ;; k b)%js (rule_spec fs).
Proof.
  intros Hk Hx. unfold literal_with. destruct (nullish x) eqn:E.
  - apply W_bind with (Q1 := fun out es => exists e, out = Throw e /\ es = []).
    + apply W_throw. eexists. now split.
    + intros b es1 (e & E1 & _). discriminate E1.
    + intros e es1 (e' & _ & ->). split; [discriminate|].
      intros Hall Hnode. destruct (Hx eq_refl Hall Hnode).
  - apply W_bind with (Q1 := fun out es => (exists b, out = Normal b) /\ es = []).
    + apply W_ret. split; [now eexists|reflexivity].
    + intros b es1 [_ ->]. apply Hk.
    + intros e es1 [(b & E1) _]. discriminate E1.
Qed.

Lemma simplify_node_spec (fs : list (string * value)) : W (simplify_node fs) (rule_spec fs).
Proof.
  unfold simplify_node.
  destruct (is_str "BinaryExpression" (assoc "type" fs)) eqn:Et; [|apply rule_ret].
  pose proof (well_formed_operands fs Et) as Hops.
  assert (Hleft : nullish (assoc "left" fs) = true ->
                  all_well_formed (values fs) -> well_formed_node fs = true -> False).
  { intros El Hall Hnode. destruct (Hops Hall Hnode) as [(l & E & _ & Hl) _].
    rewrite E in El. apply nullish_not_null in Hl. congruence. }
  assert (Hright : nullish (assoc "right" fs) = true ->
                   all_well_formed (values fs) -> well_formed_node fs = true -> False).
  { intros Er Hall Hnode. destruct (Hops Hall Hnode) as [_ (r & E & _ & Hr)].
    rewrite E in Er. apply nullish_not_null in Hr. congruence. }
  assert (Hkeep_left : forall text,
            W (record_optimization algebraicSimplifications_ text (JObj fs) ;;
               ret (assoc "left" fs))%js (rule_spec fs)).
  { intros text. apply rule_record. intros Hall Hnode.
    destruct (Hops Hall Hnode) as [(l & E & Hw & Hl) _]. exists l. now rewrite E. }
  assert (Hkeep_right : forall text,
            W (record_optimization algebraicSimplifications_ text (JObj fs) ;;
               ret (assoc "right" fs))%js (rule_spec fs)).
  { intros text. apply rule_record. intros Hall Hnode.
    destruct (Hops Hall Hnode) as [_ (r & E & Hw & Hr)]. exists r. now rewrite E. }
  assert (Hzero : forall text text',
            W (record_optimization algebraicSimplifications_ text (JObj fs) ;;
               ret (Some (foldedNode text' (assoc "line" fs) (assoc "column" fs))))%js
              (rule_spec fs)).
  { intros text text'. apply rule_record. intros Hall _.
    eexists. split; [reflexivity|]. split; [now apply well_formed_foldedNode|discriminate]. }
  cbv zeta.
  repeat match goal with
         | |- W (if ?c then _ else _) _ => destruct c
         | |- W (bind (literal_with _ (assoc "left" fs)) _) _ =>
             apply rule_literal_with; [intros ?|exact Hleft]
         | |- W (bind (literal_with _ (assoc "right" fs)) _) _ =>
             apply rule_literal_with; [intros ?|exact Hright]
         | |- W (bind (ret true) _) _ =>
             apply W_bind with (Q1 := fun out es => out = Normal true /\ es = []);
             [ apply W_ret; now split
             | intros ? ? [_ ->]
             | intros ? ? [E1 _]; discriminate E1 ]
         | |- W (bind (if ?c then _ else _) _) _ => destruct c
         end;
    first [ apply Hkeep_left | apply Hkeep_right | apply Hzero | apply rule_ret ].
Qed.

Lemma algebraicSimplification_spec (v : value) :
  W (algebraicSimplification v) (pass_spec v).
Proof.
  apply bottom_up_spec with (rule := simplify_node).
  - reflexivity.
  - reflexivity.
  - intros [| | | | |]; try exact I; reflexivity.
  - exact simplify_node_spec.
Qed.
End WithHost.

(** *** The detection of common subexpressions *)

Lemma detects_ret {A : Type} (a : A) : detects (ret a) a.
Proof. intros m. exists [], m. split; [constructor|reflexivity]. Qed.

Lemma detects_bind {A B : Type} (c : M cse_state A) (k : A -> M cse_state B) (a : A) (b : B) :
  detects c a -> detects (k a) b -> detects (bind c k) b.
Proof.
  intros Hc Hk m. destruct (Hc m) as (es1 & m1 & F1 & E1).
  destruct (Hk m1) as (es2 & m2 & F2 & E2).
  exists (es1 ++ es2), m2. split; [now apply Forall_app|].
  intros o. unfold bind. rewrite E1, E2. now rewrite apply_events_app.
Qed.

Lemma detect_node_detects (fs : list (string * value)) :
  detects (detect_node fs) (Some (JObj fs)).
Proof.
  unfold detect_node.
  destruct (is_str "BinaryExpression" (assoc "type" fs)); [|apply detects_ret].
  intros m. cbn [expressionMap outer].
  destruct (assoc (js_String (getExpressionKey (JObj fs))) m).
  - eexists [Recorded commonSubexpressionEliminations_ _ _], m. split.
    + constructor; [|constructor]. eexists; eexists; reflexivity.
    + intros o. reflexivity.
  - eexists [], _. split; [constructor|]. intros o. reflexivity.
Qed.

Lemma map_fields_detects (fs : list (string * value)) :
  Forall (fun e => detects (findCommonExpressions (snd e)) (Some (snd e))) fs ->
  detects (map_fields findCommonExpressions fs) fs.
Proof.
  induction fs as [|[k c] fs IH]; intros H; [apply detects_ret|].
  inversion H as [|? ? Hc Hfs]; subst. cbn [map_fields snd] in *.
  eapply detects_bind; [exact Hc|].
  eapply detects_bind; [exact (IH Hfs)|]. apply detects_ret.
Qed.

Lemma map_elems_detects (l : list value) :
  Forall (fun c => detects (findCommonExpressions c) (Some c)) l ->
  detects (map_elems findCommonExpressions l) l.
Proof.
  induction l as [|c l IH]; intros H; [apply detects_ret|].
  inversion H as [|? ? Hc Hl]; subst. cbn [map_elems].
  eapply detects_bind; [exact Hc|].
  eapply detects_bind; [exact (IH Hl)|]. apply detects_ret.
Qed.

Lemma findCommonExpressions_detects (v : value) :
  detects (findCommonExpressions v) (Some v).
Proof.
  induction v as [| b | t | s | l IH | fs IH] using value_ind;
    try apply detects_ret; cbn [findCommonExpressions].
  - eapply detects_bind; [exact (map_elems_detects l IH)|apply detects_ret].
  - eapply detects_bind; [exact (map_fields_detects fs IH)|apply detect_node_detects].
Qed.

(** What detections do to the state. *)
Lemma apply_cse_records (es : list event) :
  Forall is_cse_record es ->
  forall s,
    let s' := apply_events es s in
    success (result s') = success (result s)
    /\ optimizedAST (result s') = optimizedAST (result s)
    /\ errors (result s') = errors (result s)
    /\ warnings (result s') = warnings (result s)
    /\ constantFoldings (statistics (result s')) = constantFoldings (statistics (result s))
    /\ algebraicSimplifications (statistics (result s'))
       = algebraicSimplifications (statistics (result s))
    /\ deadCodeEliminations (statistics (result s'))
       = deadCodeEliminations (statistics (result s))
    /\ commonSubexpressionEliminations (statistics (result s'))
       = commonSubexpressionEliminations (statistics (result s)) + List.length es
    /\ totalOptimizations (statistics (result s'))
       = totalOptimizations (statistics (result s)) + List.length es
    /\ optimizationCount (this s') = optimizationCount (this s) + List.length es
    /\ List.length (optimizations (result s'))
       = List.length (optimizations (result s)) + List.length es.
Proof.
  induction 1 as [|e es (text & n & ->) _ IH]; intros s.
  - cbn. repeat split; lia.
  - cbn [apply_events fold_left apply_event].
    specialize (IH (snd (record_optimization commonSubexpressionEliminations_ text n s))).
    cbn zeta in IH. unfold apply_events in *.
    destruct IH as (H1 & H2 & H3 & H4 & H5 & H6 & H7 & H8 & H9 & H10 & H11).
    cbn zeta. rewrite H1, H2, H3, H4, H5, H6, H7, H8, H9, H10, H11.
    cbn. rewrite length_app. cbn. repeat split; lia.
Qed.

Lemma commonSubexpressionElimination_events (v : value) :
  exists es,
    Forall is_cse_record es
    /\ writes (commonSubexpressionElimination v) (Normal (Some v)) es.
Proof.
  destruct (findCommonExpressions_detects v []) as (es & m' & F & E).
  exists es. split; [exact F|].
  intros s. unfold commonSubexpressionElimination, deepCloneNode. now rewrite E.
Qed.

(** C8.  For every input tree (and for [undefined]) the detector of common
    subexpressions returns the tree it was given: it completes normally with
    that very tree.  All it does to its state is to record detections: the
    log grows by as many entries as the counter of common subexpressions,
    the total and [optimizationCount] grow by, and the other counters, the
    warnings, the errors, the flag and the tree of the result stay as they
    were. *)
Theorem commonSubexpressionElimination_returns_its_input :
  forall (ast : option value) (s : pass_state),
    exists (detections : nat) (s' : pass_state),
      on_tree commonSubexpressionElimination ast s = (Normal ast, s')
      /\ success (result s') = success (result s)
      /\ optimizedAST (result s') = optimizedAST (result s)
      /\ errors (result s') = errors (result s)
      /\ warnings (result s') = warnings (result s)
      /\ constantFoldings (statistics (result s')) = constantFoldings (statistics (result s))
      /\ algebraicSimplifications (statistics (result s'))
         = algebraicSimplifications (statistics (result s))
      /\ deadCodeEliminations (statistics (result s'))
         = deadCodeEliminations (statistics (result s))
      /\ commonSubexpressionEliminations (statistics (result s'))
         = commonSubexpressionEliminations (statistics (result s)) + detections
      /\ totalOptimizations (statistics (result s'))
         = totalOptimizations (statistics (result s)) + detections
      /\ optimizationCount (this s') = optimizationCount (this s) + detections
      /\ List.length (optimizations (result s'))
         = List.length (optimizations (result s)) + detections.
Proof.
  intros [v|] s.
  - destruct (commonSubexpressionElimination_events v) as (es & F & E).
    exists (List.length es), (apply_events es s). split; [apply E|].
    exact (apply_cse_records es F s).
  - exists 0, s. split; [reflexivity|]. repeat split; lia.
Qed.

Lemma commonSubexpressionElimination_spec (v : value) :
  W (commonSubexpressionElimination v) (pass_spec v).
Proof.
  destruct (commonSubexpressionElimination_events v) as (es & _ & E).
  exists (Normal (Some v)), es. split; [exact E|]. split.
  - intros r Er _. now injection Er as <-.
  - intros Hw. exists v. split; [reflexivity|]. split; [exact Hw|apply shape_kept_refl].
Qed.

(** *** The elimination of dead code *)

Lemma filter_statements_spec (stmts : list value) :
  W (for_each filter_statement stmts)
    (fun out es =>
       (out = Normal tt -> recorded es = 0 -> Forall (fun s => is_dead s = false) stmts)
       /\ (Forall (fun s => s <> JNull) stmts -> out = Normal tt)).
Proof.
  induction stmts as [|stmt stmts IH].
  - apply W_ret. split; [constructor|reflexivity].
  - cbn [for_each].
    apply W_bind with
      (Q1 := fun out es =>
               match out with
               | Normal _ => stmt <> JNull /\ (recorded es = 0 -> is_dead stmt = false)
               | Throw _ => stmt = JNull /\ es = []
               end).
    + unfold filter_statement. destruct (nullish (Some stmt)) eqn:En.
      * apply W_throw. split; [|reflexivity]. destruct stmt; try discriminate En. reflexivity.
      * apply nullish_not_null in En. destruct (is_dead stmt).
        -- apply W_record. split; [exact En|]. discriminate.
        -- apply W_ret. now split.
    + intros [] es1 [Hn Hd]. apply (W_weaken _ _ _ IH). intros out es2 [H1 H2]. split.
      * intros E Hz. apply recorded_app_0 in Hz. destruct Hz as [Hz1 Hz2].
        constructor; [now apply Hd|now apply H1].
      * intros Hall. exact (H2 (Forall_inv_tail Hall)).
    + intros e es1 [-> ->]. split; [discriminate|].
      intros Hall. pose proof (Forall_inv Hall) as Hnn. cbn beta in Hnn. congruence.
Qed.

Lemma map_kept_spec (pass : value -> Pass (option value)) (stmts : list value) :
  Forall (fun c => W (pass c) (pass_spec c)) stmts ->
  W (map_kept pass stmts)
    (fun out es =>
       (forall l', out = Normal l' -> recorded es = 0 ->
                   Forall (fun s => is_dead s = false) stmts -> l' = stmts)
       /\ (all_well_formed stmts -> Forall (fun s => s <> JNull) stmts ->
           exists l', out = Normal l' /\ all_well_formed l'
                      /\ Forall (fun s => s <> JNull) l')).
Proof.
  induction stmts as [|stmt stmts IH]; intros H.
  - apply W_ret. split.
    + intros l' E _ _. now injection E as <-.
    + intros _ _. exists []. repeat split; constructor.
  - inversion H as [|? ? Hc Hl]; subst. cbn [map_kept].
    destruct (is_dead stmt) eqn:Ed.
    + apply (W_weaken _ _ _ (IH Hl)). intros out es [H1 H2]. split.
      * intros l' _ _ Hd. pose proof (Forall_inv Hd) as Hd1. cbn beta in Hd1. congruence.
      * intros Hw Hn. exact (H2 (Forall_inv_tail Hw) (Forall_inv_tail Hn)).
    + eapply W_bind; [exact Hc| |].
      * intros r es1 [Hsame Hwf].
        eapply W_bind; [exact (IH Hl)| |].
        -- intros rest' es2 [Hsame' Hwf']. apply W_ret. rewrite app_nil_r. split.
           ++ intros l' E Hz Hd. injection E as <-.
              apply recorded_app_0 in Hz. destruct Hz as [Hz1 Hz2].
              rewrite (Hsame r eq_refl Hz1).
              now rewrite (Hsame' rest' eq_refl Hz2 (Forall_inv_tail Hd)).
           ++ intros Hw Hn.
              destruct (Hwf (Forall_inv Hw)) as (c' & E & Hk & Hs). injection E as ->.
              destruct (Hwf' (Forall_inv_tail Hw) (Forall_inv_tail Hn))
                as (l' & E & Hw' & Hn'). injection E as <-.
              exists (c' :: rest'). split; [reflexivity|]. split; constructor; auto.
              apply (shape_kept_not_null stmt); [exact Hs|exact (Forall_inv Hn)].
        -- intros e es2 [_ Hwf']. split; [discriminate|].
           intros Hw Hn.
           destruct (Hwf' (Forall_inv_tail Hw) (Forall_inv_tail Hn)) as (l' & E & _).
           discriminate E.
      * intros e es1 [_ Hwf]. split; [discriminate|].
        intros Hw Hn.
        destruct (Hwf (Forall_inv Hw)) as (c' & E & _). discriminate E.
Qed.

Lemma eliminate_in_body_spec (pass : value -> Pass (option value)) (b : value) :
  (forall stmts, b = JArr stmts -> Forall (fun c => W (pass c) (pass_spec c)) stmts) ->
  W (eliminate_in_body pass b)
    (fun out es =>
       (forall b', out = Normal b' -> recorded es = 0 -> b' = b)
       /\ (well_formed b = true -> statement_list b ->
           exists b', out = Normal b' /\ kept b b')).
Proof.
  intros Hpass. unfold eliminate_in_body.
  destruct b as [| | | | stmts |];
    try (apply W_throw; split; [discriminate|];
         intros _ (stmts & E & _); discriminate E).
  eapply W_bind; [apply filter_statements_spec| |].
  - intros [] es1 [Hnone Hrun].
    eapply W_bind; [apply (map_kept_spec pass stmts (Hpass stmts eq_refl))| |].
    + intros l' es2 [Hsame Hwf]. apply W_ret. rewrite app_nil_r. split.
      * intros b' E Hz. injection E as <-.
        apply recorded_app_0 in Hz. destruct Hz as [Hz1 Hz2].
        now rewrite (Hsame l' eq_refl Hz2 (Hnone eq_refl Hz1)).
      * intros Hw (stmts' & E & Hn). injection E as <-.
        apply well_formed_arr in Hw.
        destruct (Hwf Hw Hn) as (l2 & E & Hw' & Hn'). injection E as <-.
        exists (JArr l'). split; [reflexivity|]. split.
        -- now apply well_formed_arr.
        -- exists l'. split; [reflexivity|]. intros _. exact Hn'.
    + intros e es2 [_ Hwf]. split; [discriminate|].
      intros Hw (stmts' & E & Hn). injection E as <-. apply well_formed_arr in Hw.
      destruct (Hwf Hw Hn) as (l2 & E & _). discriminate E.
  - intros e es1 [_ Hrun]. split; [discriminate|].
    intros _ (stmts' & E & Hn). injection E as <-.
    specialize (Hrun Hn). discriminate Hrun.
Qed.

Lemma kept_refl (c : value) : well_formed c = true -> kept c c.
Proof. intros H. split; [exact H|apply shape_kept_refl]. Qed.

Lemma same_key_kept_refl (fs : list (string * value)) :
  all_well_formed (values fs) -> Forall2 same_key_kept fs fs.
Proof.
  induction fs as [|[k c] fs IH]; intros H; constructor.
  - split; [reflexivity|]. apply kept_refl. exact (Forall_inv H).
  - apply IH. exact (Forall_inv_tail H).
Qed.

Lemma eliminate_in_program_spec (pass : value -> Pass (option value))
  (fs : list (string * value)) :
  (forall b stmts, assoc "body" fs = Some b -> b = JArr stmts ->
                   Forall (fun c => W (pass c) (pass_spec c)) stmts) ->
  W (eliminate_in_program pass fs)
    (fun out es =>
       (forall fs', out = Normal fs' -> recorded es = 0 -> fs' = fs)
       /\ (all_well_formed (values fs) ->
           (forall b, assoc "body" fs = Some b -> statement_list b) ->
           exists fs', out = Normal fs' /\ Forall2 same_key_kept fs fs')).
Proof.
  induction fs as [|[k c] fs IH]; intros Hpass.
  - apply W_ret. split.
    + intros fs' E _. now injection E as <-.
    + intros _ _. exists []. split; [reflexivity|constructor].
  - cbn [eliminate_in_program]. cbn [assoc] in Hpass.
    destruct (String.eqb k "body") eqn:Ek.
    + eapply W_bind;
        [apply (eliminate_in_body_spec pass c);
         intros stmts E; exact (Hpass c stmts eq_refl E)| |].
      * intros c' es1 [Hsame Hwf]. apply W_ret. rewrite app_nil_r. split.
        -- intros fs' E Hz. injection E as <-. now rewrite (Hsame c' eq_refl Hz).
        -- intros Hall Hbody. cbn [assoc] in Hbody. rewrite Ek in Hbody.
           destruct (Hwf (Forall_inv Hall) (Hbody c eq_refl)) as (c2 & E & Hk).
           injection E as <-. exists ((k, c') :: fs). split; [reflexivity|].
           constructor; [split; [reflexivity|exact Hk]|].
           apply same_key_kept_refl. exact (Forall_inv_tail Hall).
      * intros e es1 [_ Hwf]. split; [discriminate|].
        intros Hall Hbody. cbn [assoc] in Hbody. rewrite Ek in Hbody.
        destruct (Hwf (Forall_inv Hall) (Hbody c eq_refl)) as (c2 & E & _).
        discriminate E.
    + eapply W_bind; [apply IH; exact Hpass| |].
      * intros rest' es1 [Hsame Hwf]. apply W_ret. rewrite app_nil_r. split.
        -- intros fs' E Hz. injection E as <-. now rewrite (Hsame rest' eq_refl Hz).
        -- intros Hall Hbody. cbn [assoc] in Hbody. rewrite Ek in Hbody.
           destruct (Hwf (Forall_inv_tail Hall) Hbody) as (fs2 & E & Hk).
           injection E as <-. exists ((k, c) :: rest'). split; [reflexivity|].
           constructor; [|exact Hk]. split; [reflexivity|].
           apply kept_refl. exact (Forall_inv Hall).
      * intros e es1 [_ Hwf]. split; [discriminate|].
        intros Hall Hbody. cbn [assoc] in Hbody. rewrite Ek in Hbody.
        destruct (Hwf (Forall_inv_tail Hall) Hbody) as (fs2 & E & _). discriminate E.
Qed.

(** The body of a well-formed Program, when it is not falsy. *)
Lemma well_formed_body (fs : list (string * value)) :
  is_str "Program" (assoc "type" fs) && truthy (assoc "body" fs) = true ->
  well_formed_node fs = true ->
  forall b, assoc "body" fs = Some b -> statement_list b.
Proof.
  intros Hc Hnode b Hb. unfold well_formed_node in Hnode.
  apply andb_true_iff in Hc. destruct Hc as [Ht Hbody].
  destruct (assoc "type" fs) as [[| | |kind| |]|]; try discriminate Ht.
  cbn [is_str] in Ht. rewrite Ht, Hbody in Hnode.
  apply andb_true_iff in Hnode. destruct Hnode as [_ Hnode]. cbn [andb] in Hnode.
  rewrite Hb in Hnode. destruct b; try discriminate Hnode.
  exists elems. split; [reflexivity|].
  apply Forall_forall. intros x Hx. rewrite forallb_forall in Hnode.
  apply nullish_not_null, negb_true_iff, Hnode, Hx.
Qed.

Lemma deadCodeElimination_spec (v : value) : W (deadCodeElimination v) (pass_spec v).
Proof.
  induction v as [v IH] using value_size_ind.
  destruct v as [| b | t | s | l | fs];
    try (apply W_ret; split;
         [ intros r E _; now injection E as <-
         | intros _; eexists; split; [reflexivity|split; reflexivity] ]).
  - (* an array *)
    cbn [deadCodeElimination deepCloneNode].
    assert (Hl : Forall (fun c => W (deadCodeElimination c) (pass_spec c)) l).
    { apply Forall_forall. intros c Hc. apply IH. now apply size_elem. }
    eapply W_bind; [exact (map_elems_spec deadCodeElimination l Hl)| |].
    + intros l' es1 [Hsame Hwf]. apply W_ret. rewrite app_nil_r. split.
      * intros r E Hz. injection E as <-. now rewrite (Hsame l' eq_refl Hz).
      * intros Hw. apply well_formed_arr in Hw.
        destruct (Hwf Hw) as (l2 & E & Hk). injection E as <-.
        destruct (elems_kept _ _ Hk) as [Hw' Hs].
        exists (JArr l'). split; [reflexivity|]. split.
        -- now apply well_formed_arr.
        -- exists l'. now split.
    + intros e es1 [_ Hwf]. split; [discriminate|].
      intros Hw. apply well_formed_arr in Hw.
      destruct (Hwf Hw) as (l2 & E & _). discriminate E.
  - (* an object *)
    cbn [deadCodeElimination deepCloneNode].
    assert (Hfinish : forall (c : Pass (list (string * value))),
              W c (fun out es =>
                     (forall fs', out = Normal fs' -> recorded es = 0 -> fs' = fs)
                     /\ (well_formed (JObj fs) = true ->
                         exists fs', out = Normal fs' /\ Forall2 same_key_kept fs fs')) ->
              W (fs' <- c ;; ret (Some (JObj fs')))%js (pass_spec (JObj fs))).
    { intros c Hc. eapply W_bind; [exact Hc| |].
      - intros fs' es1 [Hsame Hwf]. apply W_ret. rewrite app_nil_r. split.
        + intros r E Hz. injection E as <-. now rewrite (Hsame fs' eq_refl Hz).
        + intros Hw. destruct (Hwf Hw) as (fs2 & E & Hk). injection E as <-.
          apply well_formed_obj in Hw. destruct Hw as [_ Hnode].
          exists (JObj fs'). split; [reflexivity|]. split; [|discriminate].
          apply well_formed_obj. split;
            [exact (values_kept _ _ Hk)|exact (well_formed_node_kept _ _ Hk Hnode)].
      - intros e es1 [_ Hwf]. split; [discriminate|].
        intros Hw. destruct (Hwf Hw) as (fs2 & E & _). discriminate E. }
    destruct (is_str "Program" (assoc "type" fs) && truthy (assoc "body" fs)) eqn:Ec.
    + apply Hfinish.
      assert (Hstmts : forall b stmts, assoc "body" fs = Some b -> b = JArr stmts ->
                Forall (fun c => W (deadCodeElimination c) (pass_spec c)) stmts).
      { intros b stmts Hb E. apply Forall_forall. intros c Hc. apply IH. subst b.
        apply Nat.lt_trans with (size (JArr stmts)); [now apply size_elem|].
        apply size_field. now apply (assoc_In "body"). }
      apply (W_weaken _ _ _ (eliminate_in_program_spec deadCodeElimination fs Hstmts)).
      intros out es [H1 H2]. split; [exact H1|].
      intros Hw. apply well_formed_obj in Hw. destruct Hw as [Hall Hnode].
      apply H2; [exact Hall|]. now apply well_formed_body.
    + apply Hfinish.
      assert (Hfs : Forall (fun e => W (deadCodeElimination (snd e)) (pass_spec (snd e))) fs).
      { apply Forall_forall. intros [k c] Hc. apply IH. apply size_field.
        apply in_map_iff. now exists (k, c). }
      apply (W_weaken _ _ _ (map_fields_spec deadCodeElimination fs Hfs)).
      intros out es [H1 H2]. split; [exact H1|].
      intros Hw. apply well_formed_obj in Hw. destruct Hw as [Hall _]. now apply H2.
Qed.

(** *** What events do to the state *)

Lemma apply_events_this (es : list event) :
  forall s,
    currentPass (this (apply_events es s)) = currentPass (this s)
    /\ optimizationCount (this (apply_events es s))
       = optimizationCount (this s) + recorded es.
Proof.
  induction es as [|[c text n|w] es IH]; intros s.
  - cbn. split; lia.
  - cbn [apply_events fold_left apply_event recorded].
    destruct (IH (snd (record_optimization c text n s))) as [H1 H2].
    unfold apply_events in *. rewrite H1, H2. cbn. split; lia.
  - cbn [apply_events fold_left apply_event recorded].
    destruct (IH (snd (warn w s))) as [H1 H2].
    unfold apply_events in *. rewrite H1, H2. cbn. split; lia.
Qed.

(** Events without an optimization among them are warnings. *)
Lemma apply_events_quiet (es : list event) :
  recorded es = 0 ->
  forall s,
    this (apply_events es s) = this s
    /\ success (result (apply_events es s)) = success (result s)
    /\ optimizedAST (result (apply_events es s)) = optimizedAST (result s)
    /\ optimizations (result (apply_events es s)) = optimizations (result s)
    /\ statistics (result (apply_events es s)) = statistics (result s)
    /\ errors (result (apply_events es s)) = errors (result s).
Proof.
  induction es as [|[c text n|w] es IH]; intros Hz s.
  - cbn. repeat split.
  - discriminate Hz.
  - cbn [apply_events fold_left apply_event].
    destruct (IH Hz (snd (warn w s))) as (H1 & H2 & H3 & H4 & H5 & H6).
    unfold apply_events in *. rewrite H1, H2, H3, H4, H5, H6. cbn. repeat split.
Qed.

(** No event touches the flag, the tree or the errors of the result. *)
Lemma apply_events_frame (es : list event) :
  forall s,
    success (result (apply_events es s)) = success (result s)
    /\ optimizedAST (result (apply_events es s)) = optimizedAST (result s)
    /\ errors (result (apply_events es s)) = errors (result s).
Proof.
  induction es as [|[c text n|w] es IH]; intros s.
  - cbn. repeat split.
  - cbn [apply_events fold_left apply_event].
    destruct (IH (snd (record_optimization c text n s))) as (H1 & H2 & H3).
    unfold apply_events in *. rewrite H1, H2, H3. cbn. repeat split.
  - cbn [apply_events fold_left apply_event].
    destruct (IH (snd (warn w s))) as (H1 & H2 & H3).
    unfold apply_events in *. rewrite H1, H2, H3. cbn. repeat split.
Qed.

(** *** A round *)

Lemma on_tree_spec (pass : value -> Pass (option value)) (ast : option value) :
  (forall v, W (pass v) (pass_spec v)) -> W (on_tree pass ast) (tree_spec ast).
Proof.
  intros Hpass. destruct ast as [v|]; cbn [on_tree].
  - apply (W_weaken _ _ _ (Hpass v)). intros out es [H1 H2]. split; [exact H1|].
    intros Hw. destruct (H2 Hw) as (v' & -> & Hk & _). now exists (Some v').
  - apply W_ret. split; [intros r E _; now injection E as <-|].
    intros _. now exists None.
Qed.

Lemma skipped_spec (ast : option value) : W (ret ast) (tree_spec ast).
Proof.
  apply W_ret. split; [intros r E _; now injection E as <-|].
  intros Hw. now exists ast.
Qed.

Lemma tree_spec_bind (c : Pass (option value)) (k : option value -> Pass (option value))
  (ast : option value) :
  W c (tree_spec ast) -> (forall ast1, W (k ast1) (tree_spec ast1)) ->
  W (bind c k) (tree_spec ast).
Proof.
  intros Hc Hk. eapply W_bind; [exact Hc| |].
  - intros ast1 es1 [Hsame Hwf]. apply (W_weaken _ _ _ (Hk ast1)).
    intros out es2 [Hsame' Hwf']. split.
    + intros r E Hz. apply recorded_app_0 in Hz. destruct Hz as [Hz1 Hz2].
      rewrite <- (Hsame ast1 eq_refl Hz1). now apply Hsame'.
    + intros Hw. destruct (Hwf Hw) as (ast2 & E & Hw2). injection E as <-.
      now apply Hwf'.
  - intros e es1 [_ Hwf]. split; [discriminate|].
    intros Hw. destruct (Hwf Hw) as (ast2 & E & _). discriminate E.
Qed.

Section Driver.
Context {host : HostArith}.

Lemma performOptimizationPass_spec (opts : options) (ast : option value) :
  W (performOptimizationPass opts ast) (tree_spec ast).
Proof.
  unfold performOptimizationPass.
  apply tree_spec_bind.
  { destruct (enableConstantFolding opts); [|apply skipped_spec].
    apply on_tree_spec, constantFolding_spec. }
  intros ast1. apply tree_spec_bind.
  { destruct (enableAlgebraicSimplification opts); [|apply skipped_spec].
    apply on_tree_spec, algebraicSimplification_spec. }
  intros ast2. apply tree_spec_bind.
  { destruct (enableCommonSubexpressionElimination opts); [|apply skipped_spec].
    apply on_tree_spec, commonSubexpressionElimination_spec. }
  intros ast3.
  destruct (enableDeadCodeElimination opts); [|apply skipped_spec].
  apply on_tree_spec, deadCodeElimination_spec.
Qed.

(** *** The loop of the driver *)

(** One iteration of the loop. *)
Lemma optimize_loop_step (fuel : nat) (opts : options) (ast : option value) (h : bool)
  (s : pass_state) :
  optimize_loop (S fuel) opts ast h s
  = if h && Nat.ltb (currentPass (this s)) (maxOptimizationPasses opts)
    then match performOptimizationPass opts ast (snd (next_pass s)) with
         | (Normal ast1, s2) =>
             optimize_loop fuel opts ast1
               (Nat.ltb (optimizationCount (this s)) (optimizationCount (this s2))) s2
         | (Throw e, s2) => (Throw e, s2)
         end
    else (Normal (ast, h), s).
Proof.
  cbn [optimize_loop]. unfold bind at 1. unfold gets at 1.
  destruct (h && Nat.ltb (currentPass (this s)) (maxOptimizationPasses opts));
    [|reflexivity].
  unfold bind. cbn [next_pass modify gets snd].
  destruct (performOptimizationPass opts ast _) as [[ast1|e] s2]; reflexivity.
Qed.

(** On a well-formed tree the loop completes; it runs no round beyond
    [maxOptimizationPasses], and when it leaves [hasChanges] set it has run
    them all. *)
Lemma optimize_loop_well_formed (opts : options) (fuel : nat) :
  forall (ast : option value) (h : bool) (s : pass_state),
    well_formed_tree ast ->
    exists ast' h' s',
      optimize_loop fuel opts ast h s = (Normal (ast', h'), s')
      /\ well_formed_tree ast'
      /\ success (result s') = success (result s)
      /\ errors (result s') = errors (result s)
      /\ currentPass (this s) <= currentPass (this s')
      /\ (h = true -> 0 < fuel ->
          currentPass (this s) < maxOptimizationPasses opts ->
          currentPass (this s) < currentPass (this s'))
      /\ (currentPass (this s) <= maxOptimizationPasses opts ->
          currentPass (this s') <= maxOptimizationPasses opts)
      /\ (maxOptimizationPasses opts <= currentPass (this s) + fuel ->
          h' = true -> maxOptimizationPasses opts <= currentPass (this s')).
Proof.
  induction fuel as [|fuel IH]; intros ast h s Hw.
  - exists ast, h, s. cbn. repeat split; try assumption; lia.
  - rewrite optimize_loop_step.
    destruct h; cbn [andb];
      [destruct (Nat.ltb (currentPass (this s)) (maxOptimizationPasses opts)) eqn:Elt|].
    + apply Nat.ltb_lt in Elt.
      destruct (performOptimizationPass_spec opts ast) as (out & es & Hrun & _ & Hwf).
      destruct (Hwf Hw) as (ast1 & -> & Hw1). rewrite Hrun.
      set (s2 := apply_events es (snd (next_pass s))).
      destruct (apply_events_this es (snd (next_pass s))) as [Hp Hc].
      destruct (apply_events_frame es (snd (next_pass s))) as (Fs & _ & Fe).
      fold s2 in Hp, Hc, Fs, Fe. cbn in Hp, Hc, Fs, Fe.
      destruct (IH ast1
                  (Nat.ltb (optimizationCount (this s)) (optimizationCount (this s2)))
                  s2 Hw1)
        as (ast' & h' & s' & E & Hw' & Hs & He & Hle & _ & Hmax & Hall).
      exists ast', h', s'. rewrite E. rewrite Hp in *.
      repeat split; try assumption; try congruence; try lia.
      intros Hfuel Hh. apply Hall; [lia|exact Hh].
    + apply Nat.ltb_ge in Elt. exists ast, true, s.
      repeat split; try assumption; lia.
    + exists ast, false, s. repeat split; try assumption; try lia; discriminate.
Qed.

(** On any tree at all, also one on which a pass throws, the loop runs no
    round beyond [maxOptimizationPasses]. *)
Lemma optimize_loop_bound (opts : options) (fuel : nat) :
  forall (ast : option value) (h : bool) (s : pass_state),
    currentPass (this s) <= maxOptimizationPasses opts ->
    currentPass (this (snd (optimize_loop fuel opts ast h s)))
    <= maxOptimizationPasses opts.
Proof.
  induction fuel as [|fuel IH]; intros ast h s Hle.
  - exact Hle.
  - rewrite optimize_loop_step.
    destruct (h && Nat.ltb (currentPass (this s)) (maxOptimizationPasses opts)) eqn:Hc;
      [|exact Hle].
    apply andb_prop in Hc. destruct Hc as [_ Elt]. apply Nat.ltb_lt in Elt.
    destruct (performOptimizationPass_spec opts ast) as (out & es & Hrun & _).
    rewrite Hrun.
    destruct (apply_events_this es (snd (next_pass s))) as [Hp _].
    destruct out as [ast1|e].
    + apply IH. rewrite Hp. cbn. lia.
    + cbn [snd]. rewrite Hp. cbn. lia.
Qed.

Lemma optimize_body_eq (opts : options) (o : Optimizer) (ast : value) :
  optimize_body opts ast {| this := o; result := new_result |}
  = optimize_loop (maxOptimizationPasses opts) opts (Some ast) true (entry_state o).
Proof. reflexivity. Qed.

Lemma optimize_eq (opts : options) (o : Optimizer) (ast : value) :
  optimize opts o ast
  = match optimize_body opts ast {| this := o; result := new_result |} with
    | (Normal (optimizedAST, _), s) => (set_outcome optimizedAST (result s), this s)
    | (Throw e, s) =>
        (addError {| message := "Optimization error: " ++ exn_message e;
                     line := 0; column := 0 |} (result s),
         this s)
    end.
Proof. reflexivity. Qed.

(** C6.  With [maxOptimizationPasses = 3], on every input tree the driver
    runs at most three rounds, also when a pass throws.  On a tree whose
    nodes carry their kind-specific fields ([well_formed]) it runs at least
    one round, and exactly three when the loop leaves [hasChanges] set, that
    is when every round reported a change (the loop stops at the first one
    that reports none); it then returns a result with [success = true] and
    no error. *)
Theorem optimize_at_most_three_rounds :
  forall (opts : options) (o : Optimizer) (ast : value),
    maxOptimizationPasses opts = 3 ->
    currentPass (snd (optimize opts o ast)) <= 3
    /\ (well_formed ast = true ->
        exists (optimized : option value) (hasChanges : bool) (s' : pass_state),
          optimize_body opts ast {| this := o; result := new_result |}
          = (Normal (optimized, hasChanges), s')
          /\ optimize opts o ast = (set_outcome optimized (result s'), this s')
          /\ success (fst (optimize opts o ast)) = true
          /\ errors (fst (optimize opts o ast)) = []
          /\ 1 <= currentPass (snd (optimize opts o ast)) <= 3
          /\ (hasChanges = true -> currentPass (snd (optimize opts o ast)) = 3)).
Proof.
  intros opts o ast Hmax. split.
  - rewrite optimize_eq, optimize_body_eq.
    pose proof (optimize_loop_bound opts (maxOptimizationPasses opts) (Some ast) true
                  (entry_state o)) as Hb.
    rewrite Hmax in Hb |- *.
    destruct (optimize_loop 3 opts (Some ast) true (entry_state o)) as [[[a h]|e] s'];
      cbn [snd] in *; apply Hb; cbn; lia.
  - intros Hw.
    rewrite optimize_eq, optimize_body_eq.
    destruct (optimize_loop_well_formed opts (maxOptimizationPasses opts)
                (Some ast) true (entry_state o) Hw)
      as (ast' & h' & s' & E & _ & _ & He & _ & Hprogress & Hle & Hall).
    rewrite E. exists ast', h', s'. rewrite Hmax in *. cbn in He, Hprogress, Hle, Hall.
    cbn [fst snd set_outcome success errors].
    split; [reflexivity|]. split; [reflexivity|]. split; [reflexivity|].
    split; [exact He|]. split.
    + split; [apply Hprogress; [reflexivity|lia|lia]|apply Hle; lia].
    + intros Hh. apply Nat.le_antisymm; [apply Hle; lia|apply Hall; [lia|exact Hh]].
Qed.
End Driver.

(** *** The round bound on an example *)

Lemma optimize_at_most_three_rounds_witness :
  success (fst (@optimize integer_host default_options new_optimizer twice_a_plus_b)) = true
  /\ currentPass (snd (@optimize integer_host default_options new_optimizer twice_a_plus_b))
     = 3.
Proof.
  destruct (@optimize_at_most_three_rounds integer_host default_options new_optimizer
              twice_a_plus_b eq_refl)
    as [_ Hrun].
  destruct (Hrun eq_refl) as (optimized & hasChanges & s' & E & _ & Hs & _ & _ & Hall).
  split; [exact Hs|]. apply Hall.
  vm_compute in E. now injection E as _ <- _.
Defined.

(** *** A second invocation *)

Section SecondInvocation.
Context {host : HostArith}.

Lemma optimize_loop_unchanged (fuel : nat) (opts : options) (ast : option value)
  (s : pass_state) :
  optimize_loop fuel opts ast false s = (Normal (ast, false), s).
Proof. destruct fuel; [reflexivity|]. now rewrite optimize_loop_step. Qed.

(** A loop that ends with [hasChanges] cleared ends on a tree on which a
    round is quiet. *)
Lemma optimize_loop_converged (opts : options) (fuel : nat) :
  forall (ast : option value) (h : bool) (s : pass_state) (ast' : option value)
         (s' : pass_state),
    optimize_loop fuel opts ast h s = (Normal (ast', false), s') ->
    (h = false -> quiet opts ast) ->
    quiet opts ast'.
Proof.
  induction fuel as [|fuel IH]; intros ast h s ast' s' E Hq.
  - cbn in E. injection E as Ea Eh _. subst ast'. now apply Hq.
  - rewrite optimize_loop_step in E.
    destruct (h && Nat.ltb (currentPass (this s)) (maxOptimizationPasses opts)).
    + destruct (performOptimizationPass_spec opts ast) as (out & es & Hrun & Hsame & _).
      rewrite Hrun in E. destruct out as [ast1|e]; [|discriminate E].
      apply (IH _ _ _ _ _ E). intros Hlt. apply Nat.ltb_ge in Hlt.
      destruct (apply_events_this es (snd (next_pass s))) as [_ Hc].
      rewrite Hc in Hlt. cbn in Hlt.
      assert (Hz : recorded es = 0) by lia.
      rewrite (Hsame ast1 eq_refl Hz) in *. exists es. now split.
    + injection E as Ea Eh _. subst ast'. now apply Hq.
Qed.

(** On such a tree the loop runs at most one round, which changes neither
    the tree nor a counter. *)
Lemma optimize_loop_quiet (opts : options) (fuel : nat) (ast : option value)
  (s : pass_state) :
  quiet opts ast ->
  exists h' s',
    optimize_loop fuel opts ast true s = (Normal (ast, h'), s')
    /\ optimizationCount (this s') = optimizationCount (this s)
    /\ currentPass (this s') <= S (currentPass (this s))
    /\ optimizations (result s') = optimizations (result s)
    /\ statistics (result s') = statistics (result s)
    /\ errors (result s') = errors (result s).
Proof.
  intros (es & Hrun & Hz). destruct fuel as [|fuel].
  - exists true, s. cbn. repeat split. lia.
  - rewrite optimize_loop_step. cbn [andb].
    destruct (Nat.ltb (currentPass (this s)) (maxOptimizationPasses opts)).
    + rewrite Hrun.
      destruct (apply_events_quiet es Hz (snd (next_pass s)))
        as (Ht & _ & _ & Ho & Hst & He).
      rewrite Ht. cbn [next_pass modify snd this optimizationCount].
      rewrite Nat.ltb_irrefl, optimize_loop_unchanged.
      exists false, (apply_events es (snd (next_pass s))).
      rewrite Ht, Ho, Hst, He. cbn. repeat split. lia.
    + exists true, s. repeat split. lia.
Qed.

(** C3, amended.  When the first invocation of the driver has converged
    (its loop ended because a round reported no change, not at the round
    limit) on a tree [produced], a second invocation on [produced] completes
    with that same tree and reports no change: its counters are all zero,
    its log is empty and [optimizationCount] is what the first invocation
    left. *)
Theorem optimize_again_after_convergence :
  forall (opts : options) (o : Optimizer) (ast produced : value) (s1 : pass_state),
    optimize_body opts ast {| this := o; result := new_result |}
    = (Normal (Some produced, false), s1) ->
    let first := optimize opts o ast in
    let second := optimize opts (snd first) produced in
    optimizedAST (fst first) = Some produced
    /\ success (fst second) = true
    /\ optimizedAST (fst second) = Some produced
    /\ statistics (fst second) = statistics new_result
    /\ optimizations (fst second) = []
    /\ errors (fst second) = []
    /\ optimizationCount (snd second) = optimizationCount (snd first)
    /\ currentPass (snd second) <= 1.
Proof.
  intros opts o ast produced s1 E first second.
  assert (Hfirst : first = (set_outcome (Some produced) (result s1), this s1)).
  { unfold first. now rewrite optimize_eq, E. }
  assert (Hq : quiet opts (Some produced)).
  { rewrite optimize_body_eq in E.
    apply (optimize_loop_converged opts _ _ _ _ _ _ E). discriminate. }
  destruct (optimize_loop_quiet opts (maxOptimizationPasses opts) (Some produced)
              (entry_state (this s1)) Hq)
    as (h' & s2 & E2 & Hc & Hp & Ho & Hst & He).
  assert (Hsecond : second = (set_outcome (Some produced) (result s2), this s2)).
  { unfold second. rewrite Hfirst. cbn [snd].
    now rewrite optimize_eq, optimize_body_eq, E2. }
  rewrite Hsecond, Hfirst. cbn [fst snd set_outcome success optimizedAST statistics
                                  optimizations errors].
  rewrite Hst, Ho, He, Hc. cbn in Hp |- *. repeat split. exact Hp.
Qed.
End SecondInvocation.

Lemma optimize_again_after_convergence_witness :
  statistics
    (fst (@optimize integer_host default_options
            (snd (@optimize integer_host default_options new_optimizer six_plus_y))
            (BinaryExpression "+" (NumericLiteral "6") (Identifier "y"))))
  = statistics new_result.
Proof.
  destruct (@optimize_again_after_convergence integer_host default_options new_optimizer
              six_plus_y (BinaryExpression "+" (NumericLiteral "6") (Identifier "y"))
              (snd (@optimize_body integer_host default_options six_plus_y
                      {| this := new_optimizer; result := new_result |}))
              eq_refl)
    as (_ & _ & _ & Hstat & _).
  exact Hstat.
Defined.

(** C3, as stated, fails.  The detector of common subexpressions records a
    detection for a repeated key in every round and never rewrites the
    tree: the driver returns [twice_a_plus_b] as it is, and a second
    invocation on it reports three changes again. *)
Lemma optimize_again_reports_detections :
  optimizedAST (fst (@optimize integer_host default_options new_optimizer twice_a_plus_b))
  = Some twice_a_plus_b
  /\ statistics
       (fst (@optimize integer_host default_options
               (snd (@optimize integer_host default_options new_optimizer twice_a_plus_b))
               twice_a_plus_b))
     = {| constantFoldings := 0; algebraicSimplifications := 0;
          commonSubexpressionEliminations := 3; deadCodeEliminations := 0;
          totalOptimizations := 3 |}.
Proof. split; vm_compute; reflexivity. Qed.

(** The round limit alone also breaks the property: after three rounds the
    driver returns [0 - 1], which a second invocation folds. *)
Lemma optimize_again_after_round_limit :
  optimizedAST (fst (@optimize integer_host default_options new_optimizer three_levels))
  = Some (BinaryExpression "-" (NumericLiteral "0") (NumericLiteral "1"))
  /\ currentPass (snd (@optimize integer_host default_options new_optimizer three_levels)) = 3
  /\ statistics
       (fst (@optimize integer_host default_options
               (snd (@optimize integer_host default_options new_optimizer three_levels))
               (BinaryExpression "-" (NumericLiteral "0") (NumericLiteral "1"))))
     = {| constantFoldings := 1; algebraicSimplifications := 0;
          commonSubexpressionEliminations := 0; deadCodeEliminations := 0;
          totalOptimizations := 1 |}.
Proof. repeat split; vm_compute; reflexivity. Qed.

(** *** Constant folding of two literals *)

Section Folding.
Context {host : HostArith}.

Lemma map_fields_inert {S : Type} (pass : value -> M S (option value))
  (fs : list (string * value)) (s : S) :
  Forall (fun c => pass c s = (Normal (Some c), s)) (values fs) ->
  map_fields pass fs s = (Normal fs, s).
Proof.
  induction fs as [|[k c] fs IH]; intros H; [reflexivity|].
  cbn [map_fields]. unfold bind at 1. cbn [values map snd] in H.
  rewrite (Forall_inv H). unfold bind at 1. rewrite (IH (Forall_inv_tail H)). reflexivity.
Qed.

Lemma constantFolding_atomic (v : value) (s : pass_state) :
  atomic v = true -> constantFolding v s = (Normal (Some v), s).
Proof. destruct v; try discriminate; reflexivity. Qed.

Lemma constantFolding_literal (v : value) (text : string) (s : pass_state) :
  literal_node v text -> constantFolding v s = (Normal (Some v), s).
Proof.
  intros (fs & -> & Ht & _ & Hatoms). cbn [constantFolding deepCloneNode].
  unfold bind. rewrite map_fields_inert.
  - unfold fold_node. now rewrite Ht.
  - apply Forall_forall. intros c Hc. apply constantFolding_atomic.
    rewrite Forall_forall in Hatoms. now apply Hatoms.
Qed.

(** C1.  The node is a BinaryExpression whose operands [l] and [r] are
    NumericLiteral nodes with the texts [a] and [b] and whose other fields
    are atomic.  For an operator among [+ - * / %], and a divisor that is
    not zero when the operator is [/] or [%], the folder replaces the node
    by a new NumericLiteral whose text is what the host prints for
    [parseFloat(a) op parseFloat(b)], the number the host reads back from
    it when printing loses nothing, and records the fold.  For [/] and [%]
    with a right literal that is zero it returns the node as it is and
    appends the warning of the operator to the warnings of the result. *)
Theorem constantFolding_of_two_literals :
  forall (fs : list (string * value)) (operator a b : string) (l r : value)
         (s : pass_state),
    assoc "type" fs = Some (JStr "BinaryExpression") ->
    assoc "operator" fs = Some (JStr operator) ->
    assoc "left" fs = Some l ->
    assoc "right" fs = Some r ->
    literal_node l a ->
    literal_node r b ->
    (forall c, In c (values fs) -> c = l \/ c = r \/ atomic c = true) ->
    let x := parseFloat a in
    let y := parseFloat b in
    (forall f, native operator = Some f ->
               (divides operator = true -> is_zero y = false) ->
               let folded :=
                 foldedNode (num_toString (f x y)) (assoc "line" fs) (assoc "column" fs) in
               constantFolding (JObj fs) s
               = (Normal (Some folded),
                  apply_event s
                    (Recorded constantFoldings_
                       ("Folded constant expression: " ++ num_toString x ++ " "
                        ++ operator ++ " " ++ num_toString y ++ " = "
                        ++ num_toString (f x y))
                       (JObj fs)))
               /\ prop "type" folded = Some (JStr "NumericLiteral")
               /\ prop "value" folded = Some (JStr (num_toString (f x y)))
               /\ (parseFloat (num_toString (f x y)) = f x y ->
                   number_of (Some folded) = f x y))
    /\ (divides operator = true -> is_zero y = true ->
        constantFolding (JObj fs) s
        = (Normal (Some (JObj fs)), apply_event s (Warned (zero_warning operator)))
        /\ warnings (result (apply_event s (Warned (zero_warning operator))))
           = warnings (result s) ++ [zero_warning operator]).
Proof.
  intros fs operator a b l r s Htype Hop Hl Hr Hla Hrb Hrest x y.
  assert (Hkids : map_fields constantFolding fs s = (Normal fs, s)).
  { apply map_fields_inert. apply Forall_forall. intros c Hc.
    destruct (Hrest c Hc) as [->|[->|Hc']].
    - now apply (constantFolding_literal l a).
    - now apply (constantFolding_literal r b).
    - now apply constantFolding_atomic. }
  assert (Hrun : constantFolding (JObj fs) s = fold_node fs s).
  { cbn [constantFolding deepCloneNode]. unfold bind. now rewrite Hkids. }
  destruct Hla as (lfs & -> & Hlt & Hlv & _). destruct Hrb as (rfs & -> & Hrt & Hrv & _).
  assert (Hx : number_of (Some (JObj lfs)) = x).
  { unfold number_of. cbn [prop_of prop]. now rewrite Hlv. }
  assert (Hy : number_of (Some (JObj rfs)) = y).
  { unfold number_of. cbn [prop_of prop]. now rewrite Hrv. }
  rewrite Hrun. unfold fold_node. rewrite Htype, Hop, Hl, Hr.
  cbn [is_str nullish prop_of prop]. rewrite Hlt, Hrt, Hx, Hy.
  cbn [is_str js_String js_String_value]. rewrite String.eqb_refl.
  replace (String.eqb "BinaryExpression" "BinaryExpression") with true
    by (symmetry; apply String.eqb_refl).
  cbv zeta. unfold native, divides, zero_warning. split.
  - intros f Hf Hdiv.
    assert (Hfold : forall text,
              (record_optimization constantFoldings_ text (JObj fs) ;;
               ret (Some (foldedNode (num_toString (f x y)) (assoc "line" fs)
                            (assoc "column" fs))))%js s
              = (Normal (Some (foldedNode (num_toString (f x y)) (assoc "line" fs)
                                 (assoc "column" fs))),
                 apply_event s (Recorded constantFoldings_ text (JObj fs)))).
    { intros text. reflexivity. }
    split; [|split; [reflexivity|split; [reflexivity|]]].
    + destruct (String.eqb operator "+"); [injection Hf as <-; apply Hfold|].
      destruct (String.eqb operator "-"); [injection Hf as <-; apply Hfold|].
      destruct (String.eqb operator "*"); [injection Hf as <-; apply Hfold|].
      destruct (String.eqb operator "/").
      { rewrite (Hdiv eq_refl). injection Hf as <-. apply Hfold. }
      destruct (String.eqb operator "%"); [|discriminate Hf].
      rewrite (Hdiv eq_refl). injection Hf as <-. apply Hfold.
    + intros Hround. unfold number_of, foldedNode. cbn [prop_of prop app assoc].
      cbn. exact Hround.
  - intros Hdiv Hzero. split; [|reflexivity].
    destruct (String.eqb operator "+") eqn:E1.
    { apply String.eqb_eq in E1. subst operator. discriminate Hdiv. }
    destruct (String.eqb operator "-") eqn:E2.
    { apply String.eqb_eq in E2. subst operator. discriminate Hdiv. }
    destruct (String.eqb operator "*") eqn:E3.
    { apply String.eqb_eq in E3. subst operator. discriminate Hdiv. }
    destruct (String.eqb operator "/"); [now rewrite Hzero|].
    destruct (String.eqb operator "%"); [now rewrite Hzero|].
    discriminate Hdiv.
Qed.
End Folding.

Lemma literal_node_NumericLiteral (text : string) :
  literal_node (NumericLiteral text) text.
Proof.
  exists [("type", JStr "NumericLiteral"); ("value", JStr text)].
  repeat split. repeat constructor.
Defined.

Lemma constantFolding_of_two_literals_witness :
  fst (@constantFolding integer_host
         (BinaryExpression "+" (NumericLiteral "5") (NumericLiteral "3"))
         {| this := new_optimizer; result := new_result |})
  = Normal (Some (NumericLiteral "8"))
  /\ @constantFolding integer_host
       (BinaryExpression "/" (NumericLiteral "10") (NumericLiteral "0"))
       {| this := new_optimizer; result := new_result |}
     = (Normal (Some (BinaryExpression "/" (NumericLiteral "10") (NumericLiteral "0"))),
        {| this := new_optimizer;
           result := addWarning "Division by zero detected during constant folding"
                       new_result |}).
Proof.
  split.
  - destruct (@constantFolding_of_two_literals integer_host
                [("type", JStr "BinaryExpression"); ("operator", JStr "+");
                 ("left", NumericLiteral "5"); ("right", NumericLiteral "3")]
                "+" "5" "3" (NumericLiteral "5") (NumericLiteral "3")
                {| this := new_optimizer; result := new_result |}
                eq_refl eq_refl eq_refl eq_refl
                (literal_node_NumericLiteral "5") (literal_node_NumericLiteral "3"))
      as [Hfold _].
    + intros c [<-|[<-|[<-|[<-|[]]]]]; auto.
    + destruct (Hfold (@num_add integer_host) eq_refl) as [E _]; [discriminate|].
      unfold BinaryExpression. rewrite E. reflexivity.
  - destruct (@constantFolding_of_two_literals integer_host
                [("type", JStr "BinaryExpression"); ("operator", JStr "/");
                 ("left", NumericLiteral "10"); ("right", NumericLiteral "0")]
                "/" "10" "0" (NumericLiteral "10") (NumericLiteral "0")
                {| this := new_optimizer; result := new_result |}
                eq_refl eq_refl eq_refl eq_refl
                (literal_node_NumericLiteral "10") (literal_node_NumericLiteral "0"))
      as [_ Hzero].
    + intros c [<-|[<-|[<-|[<-|[]]]]]; auto.
    + destruct (Hzero eq_refl eq_refl) as [E _].
      unfold BinaryExpression. rewrite E. reflexivity.
Defined.
End OptFacts.

(** ** Literals of the optimizer in the code generator *)

(** C9.  For every node whose kind tag is the string ['NumericLiteral'] the
    dispatch of the code generator emits no instruction and records the
    warning of an unsupported node, the run going on ([Literal] is the only
    kind of literal the [switch] knows).  So it is for the literal that the
    constant folder and the simplifier of the optimizer write, and a run on
    such a node yields the prologue and the epilogue only, with no LOAD. *)
Theorem generateNode_NumericLiteral_unsupported :
  forall (fs : list (string * value)) (g : generator),
    assoc "type" fs = Some (JStr "NumericLiteral") ->
    let w := {| warning_type := "unsupported_node";
                warning_message := "不支持的节点类型: NumericLiteral";
                warning_location := assoc "location" fs |} in
    generateNode (JObj fs) g
    = (Normal tt,
       {| result := push_warning w (result g); currentAddress := currentAddress g;
          labelCounter := labelCounter g; tempCounter := tempCounter g |})
    /\ instructions (result (snd (generateNode (JObj fs) g))) = instructions (result g)
    /\ warnings (result (snd (generateNode (JObj fs) g))) = warnings (result g) ++ [w]
    /\ (forall (text : string) (n_line n_column : option value),
          instructions (result (snd (generateNode (Opt.foldedNode text n_line n_column) g)))
          = instructions (result g)
          /\ List.length
               (warnings (result (snd (generateNode (Opt.foldedNode text n_line n_column) g))))
             = S (List.length (warnings (result g))))
    /\ (forall opts : options,
          success (generate opts (Some (JObj fs)) None) = true
          /\ map opcode_of (instructions (generate opts (Some (JObj fs)) None))
             = [PUSH; HALT]
          /\ warnings (generate opts (Some (JObj fs)) None) = [w]).
Proof.
  intros fs g Htype w.
  assert (Hrun : forall g0 : generator,
            generateNode (JObj fs) g0
            = (Normal tt,
               {| result := push_warning w (result g0);
                  currentAddress := currentAddress g0;
                  labelCounter := labelCounter g0; tempCounter := tempCounter g0 |})).
  { intros g0. rewrite generateNode_obj. unfold generateNode_switch. rewrite Htype.
    cbn [is_str String.eqb Ascii.eqb Bool.eqb]. unfold unsupported_node.
    cbn [prop]. rewrite Htype. reflexivity. }
  split; [apply Hrun|]. rewrite Hrun. split; [reflexivity|]. split; [reflexivity|]. split.
  - intros text n_line n_column. unfold Opt.foldedNode.
    rewrite generateNode_obj. unfold generateNode_switch. cbn [app assoc String.eqb
      Ascii.eqb Bool.eqb is_str]. unfold unsupported_node. cbn.
    rewrite length_app. cbn. split; [reflexivity|lia].
  - intros opts. rewrite generate_eq.
    assert (Hseed : seed None new_generator
                    = (Normal tt, snd (seed None new_generator))) by reflexivity.
    rewrite Hseed. cbn [generateNode_opt]. rewrite Hrun. unfold finish.
    destruct (optimizeCode opts) eqn:Ho.
    + unfold optimizeInstructions. rewrite Ho. cbn. repeat split.
    + cbn. repeat split.
Qed.

Lemma generateNode_NumericLiteral_witness :
  map opcode_of
      (instructions
         (generate default_options
            (Some (JObj [("type", JStr "NumericLiteral"); ("value", JStr "8")])) None))
  = [PUSH; HALT].
Proof.
  destruct (generateNode_NumericLiteral_unsupported
              [("type", JStr "NumericLiteral"); ("value", JStr "8")] new_generator eq_refl)
    as (_ & _ & _ & _ & Hrun).
  destruct (Hrun default_options) as (_ & Hi & _). exact Hi.
Defined.

(* ================================================================== *)
(** ** More on the code generator                                      *)
(* ================================================================== *)

(** *** Every run of [generate] *)

Lemma initializeSymbolTable_from_preserves (P : generator -> Prop) :
  (forall name a g, P g -> P (snd (on_result (addVariable name a) g))) ->
  forall entries addr, preserves P (initializeSymbolTable_from addr entries).
Proof.
  intros Hv entries. induction entries as [|[name info] entries IH]; intros addr.
  - apply preserves_ret.
  - cbn [initializeSymbolTable_from].
    destruct (nullish (Some info)); [apply preserves_throw|].
    destruct (is_str "variable" (prop "type" info)); [|apply IH].
    apply preserves_bind; [|intros _; apply IH].
    intros g out g' H Hg.
    replace g' with (snd (on_result (addVariable name addr) g)) by now rewrite H.
    now apply Hv.
Qed.

(** A property of the generator that the seeding and the walk keep holds of
    the state from which [generate] builds its result: the state [finish]
    completes on a normal run, the state of the [catch] block otherwise.
    That state does not depend on the options. *)
Lemma generate_invariant (P : generator -> Prop) :
  (forall op arg cmt g, op <> HALT -> P g -> P (snd (emit op arg cmt g))) ->
  (forall name g, P g -> P (snd (on_result (addLabel name) g))) ->
  (forall w g, P g -> P (snd (on_result (push_warning w) g))) ->
  (forall prefix g, P g -> P (snd (generateLabel prefix g))) ->
  (forall name a g, P g -> P (snd (on_result (addVariable name a) g))) ->
  P new_generator ->
  forall ast symtab,
    exists g, P g
      /\ ((forall opts, generate opts ast symtab = finish opts (result g))
          \/ exists e, forall opts, generate opts ast symtab = generation_error e (result g)).
Proof.
  intros He Hl Hw Hc Hv H0 ast symtab.
  assert (Hseed : preserves P (seed symtab)).
  { unfold seed. apply preserves_bind.
    - destruct symtab as [entries|]; [|apply preserves_ret].
      now apply initializeSymbolTable_from_preserves.
    - intros _. intros g out g' H Hg.
      replace g' with (snd (emit PUSH (ONum 0) "程序开始，初始化栈帧" g))
        by (unfold generateProgramEntry in H; now rewrite H).
      apply He; [discriminate|exact Hg]. }
  destruct (seed symtab new_generator) as [[[]|e] g1] eqn:E1.
  - assert (H1 : P g1) by (apply (Hseed _ _ _ E1 H0)).
    assert (Hwalk : preserves P (generateNode_opt ast)).
    { destruct ast as [node|]; [|apply preserves_ret].
      now apply generateNode_preserves. }
    destruct (generateNode_opt ast g1) as [[[]|e] g2] eqn:E2.
    + exists g2. split; [apply (Hwalk _ _ _ E2 H1)|left].
      intros opts. now rewrite generate_eq, E1, E2.
    + exists g2. split; [apply (Hwalk _ _ _ E2 H1)|right; exists e].
      intros opts. now rewrite generate_eq, E1, E2.
  - exists g1. split; [apply (Hseed _ _ _ E1 H0)|right; exists e].
    intros opts. now rewrite generate_eq, E1.
Qed.

Lemma finish_instructions (opts : options) (r : CodeGenerationResult) :
  let emitted := instructions r ++ [ {| address := List.length (instructions r);
                                        opcode_of := HALT; operand_of := ONull;
                                        comment := "程序结束" |} ] in
  instructions (finish opts r)
  = if optimizeCode opts && peep_changed emitted
    then renumber_from 0 (peep emitted)
    else emitted.
Proof.
  intros emitted. unfold finish. destruct (optimizeCode opts) eqn:Ho; [|reflexivity].
  cbn [set_success instructions andb].
  rewrite optimizeInstructions_instructions by assumption.
  cbn [generateAssembly set_assembly instructions addInstruction operand_or_null].
  fold emitted.
  destruct (peep_changed emitted) eqn:Hc; [reflexivity|].
  now apply peep_unchanged.
Qed.

Lemma addresses_from_snoc (l : list instruction) (op : opcode) (arg : operand)
  (cmt : string) :
  addresses_from 0 l ->
  addresses_from 0 (l ++ [ {| address := List.length l; opcode_of := op;
                              operand_of := arg; comment := cmt |} ]).
Proof.
  intros H j ins Hj. destruct (Nat.lt_ge_cases j (List.length l)) as [Hlt|Hge].
  - rewrite nth_error_app1 in Hj by assumption. now apply H.
  - rewrite nth_error_app2 in Hj by assumption.
    destruct (j - List.length l) as [|n] eqn:En.
    + injection Hj as <-. simpl. lia.
    + destruct n; discriminate Hj.
Qed.

Lemma renumber_from_addresses (l : list instruction) (k : nat) :
  addresses_from k (renumber_from k l).
Proof.
  intros j ins Hj. rewrite renumber_from_nth in Hj.
  destruct (nth_error l j); [|discriminate Hj]. injection Hj as <-. reflexivity.
Qed.

(** X2.  In the result of every run of [generate], failed or not, optimized
    or not, the instruction at index [j] of the instruction list has the
    address [j]: [addInstruction] numbers by the length of the list, and
    [updateInstructionAddresses] renumbers what the peephole pass leaves. *)
Theorem generate_addresses_are_indices :
  forall (opts : options) (ast : option value) (symtab : option (list (string * value)))
         (j : nat) (ins : instruction),
    nth_error (instructions (generate opts ast symtab)) j = Some ins ->
    address ins = j.
Proof.
  intros opts ast symtab.
  destruct (generate_invariant (fun g => addresses_from 0 (instructions (result g))))
    with (ast := ast) (symtab := symtab) as (g & Hg & [E|[e E]]).
  - intros op arg cmt g _ H. cbn. now apply addresses_from_snoc.
  - intros name g H. exact H.
  - intros w g H. exact H.
  - intros prefix g H. exact H.
  - intros name a g H. exact H.
  - intros j ins Hj. destruct j; discriminate Hj.
  - rewrite E, finish_instructions.
    destruct (optimizeCode opts && peep_changed _).
    + apply (renumber_from_addresses _ 0).
    + apply (addresses_from_snoc _ HALT ONull "程序结束" Hg).
  - rewrite E. cbn. apply Hg.
Qed.

Lemma generate_addresses_are_indices_witness :
  exists ins : instruction,
    nth_error (instructions (generate default_options (Some declaration_of_x) None)) 2
    = Some ins
    /\ address ins = 2.
Proof.
  eexists. split; [reflexivity|].
  exact (generate_addresses_are_indices default_options (Some declaration_of_x) None 2 _
           eq_refl).
Defined.

(** *** The epilogue *)

Lemma peep_snoc_HALT (h : instruction) :
  opcode_of h = HALT -> forall l, peep (l ++ [h]) = peep l ++ [h].
Proof.
  intros Hh l.
  assert (Hnot : forall x, is_push_pop x h = false).
  { intros x. unfold is_push_pop. rewrite Hh. apply andb_false_r. }
  induction l as [|x|x y rest E IH|x y rest E IH] using peep_ind2.
  - reflexivity.
  - change (peep (x :: [h]) = [x] ++ [h]). cbn [peep]. now rewrite Hnot.
  - change (peep (x :: y :: rest ++ [h]) = peep (x :: y :: rest) ++ [h]).
    cbn [peep]. now rewrite E.
  - change ((if is_push_pop x y then peep (rest ++ [h])
             else x :: peep ((y :: rest) ++ [h]))
            = (if is_push_pop x y then peep rest else x :: peep (y :: rest)) ++ [h]).
    rewrite E, IH. reflexivity.
Qed.

Lemma peep_Forall (Q : instruction -> Prop) (l : list instruction) :
  Forall Q l -> Forall Q (peep l).
Proof.
  induction l as [|x|x y rest E IH|x y rest E IH] using peep_ind2; intros H.
  - constructor.
  - exact H.
  - cbn [peep]. rewrite E. apply IH.
    apply Forall_inv_tail in H. now apply Forall_inv_tail in H.
  - change (Forall Q (if is_push_pop x y then peep rest else x :: peep (y :: rest))).
    rewrite E. constructor; [now apply Forall_inv in H|].
    apply IH. now apply Forall_inv_tail in H.
Qed.

Lemma renumber_from_app (a b : list instruction) :
  forall k, renumber_from k (a ++ b)
            = renumber_from k a ++ renumber_from (k + List.length a) b.
Proof.
  induction a as [|x a IH]; intros k; simpl.
  - now rewrite Nat.add_0_r.
  - rewrite IH. now replace (S k + List.length a) with (k + S (List.length a)) by lia.
Qed.

Lemma renumber_from_Forall (Q : instruction -> Prop) :
  (forall a i, Q i -> Q (set_address a i)) ->
  forall l k, Forall Q l -> Forall Q (renumber_from k l).
Proof.
  intros HQ l. induction l as [|x l IH]; intros k H; simpl.
  - constructor.
  - constructor; [apply HQ; now apply Forall_inv in H|].
    apply IH. now apply Forall_inv_tail in H.
Qed.

Lemma generation_error_success (e : exn) (r : CodeGenerationResult) :
  success (generation_error e r) = false.
Proof. reflexivity. Qed.

(** X3.  The instruction list of every successful run of [generate] ends
    with the HALT of [generateProgramExit], which has no operand, and has
    no other HALT: the walk emits none, and the peephole pass deletes only
    PUSH and POP. *)
Theorem generate_success_ends_with_HALT :
  forall (opts : options) (ast : option value) (symtab : option (list (string * value))),
    success (generate opts ast symtab) = true ->
    exists (body : list instruction) (halt : instruction),
      instructions (generate opts ast symtab) = body ++ [halt]
      /\ opcode_of halt = HALT
      /\ operand_of halt = ONull
      /\ Forall (fun i => opcode_of i <> HALT) body.
Proof.
  intros opts ast symtab Hs.
  destruct (generate_invariant
              (fun g => Forall (fun i => opcode_of i <> HALT) (instructions (result g))))
    with (ast := ast) (symtab := symtab) as (g & Hg & [E|[e E]]).
  - intros op arg cmt g Hop H. cbn. apply Forall_app. split; [exact H|].
    constructor; [exact Hop|constructor].
  - intros name g H. exact H.
  - intros w g H. exact H.
  - intros prefix g H. exact H.
  - intros name a g H. exact H.
  - constructor.
  - rewrite E, finish_instructions.
    set (halt := {| address := List.length (instructions (result g)); opcode_of := HALT;
                    operand_of := ONull; comment := "程序结束" |}).
    destruct (optimizeCode opts && peep_changed _).
    + rewrite (peep_snoc_HALT halt eq_refl), renumber_from_app.
      exists (renumber_from 0 (peep (instructions (result g)))),
             (set_address (0 + List.length (peep (instructions (result g)))) halt).
      repeat split.
      apply renumber_from_Forall; [intros a i Hi; exact Hi|].
      now apply peep_Forall.
    + exists (instructions (result g)), halt. repeat split. exact Hg.
  - rewrite E in Hs. discriminate Hs.
Qed.

Lemma generate_success_ends_with_HALT_witness :
  exists (body : list instruction) (halt : instruction),
    instructions (generate default_options (Some declaration_of_x) None) = body ++ [halt]
    /\ opcode_of halt = HALT
    /\ operand_of halt = ONull
    /\ Forall (fun i => opcode_of i <> HALT) body.
Proof.
  exact (generate_success_ends_with_HALT default_options (Some declaration_of_x) None
           eq_refl).
Defined.

Lemma peep_pairs_length (l : list instruction) :
  List.length l = List.length (scan l) + 2 * peep_pairs l.
Proof.
  rewrite scan_peep.
  induction l as [|x|x y rest E IH|x y rest E IH] using peep_ind2.
  - reflexivity.
  - reflexivity.
  - cbn [peep peep_pairs]. rewrite E. simpl. simpl in IH. lia.
  - change (peep (x :: y :: rest))
      with (if is_push_pop x y then peep rest else x :: peep (y :: rest)).
    change (peep_pairs (x :: y :: rest))
      with (if is_push_pop x y then S (peep_pairs rest) else peep_pairs (y :: rest)).
    rewrite E. simpl. simpl in IH. lia.
Qed.

Lemma peep_pairs_unchanged (l : list instruction) :
  peep_changed l = false -> peep_pairs l = 0.
Proof.
  induction l as [|x|x y rest E IH|x y rest E IH] using peep_ind2; intros H;
    try reflexivity.
  - cbn [peep_changed] in H. rewrite E in H. discriminate H.
  - change ((if is_push_pop x y then true else peep_changed (y :: rest)) = false) in H.
    change ((if is_push_pop x y then S (peep_pairs rest) else peep_pairs (y :: rest)) = 0).
    rewrite E in *. now apply IH.
Qed.

Lemma finish_success (opts : options) (r : CodeGenerationResult) :
  success (finish opts r) = true.
Proof. reflexivity. Qed.

(** X4.  The statistic [instructionCount] counts the instructions that
    [addInstruction] emitted, not the ones of the result: it is the length
    of the instruction list that the same run returns without the peephole
    pass.  The list returned is that list, or, when the pass is on, the run
    succeeds and the pass deletes a pair, what the scan of the pass leaves
    of it, renumbered; it is shorter than the count by two for each PUSH/POP
    pair that the scan deleted. *)
Theorem generate_instructionCount_counts_emitted :
  forall (opts : options) (ast : option value) (symtab : option (list (string * value))),
    let r := generate opts ast symtab in
    let emitted :=
      instructions
        (generate {| optimizeCode := false; generateComments := generateComments opts |}
           ast symtab) in
    instructionCount (statistics r) = List.length emitted
    /\ instructions r
       = (if optimizeCode opts && success r && peep_changed emitted
          then renumber_from 0 (scan emitted)
          else emitted)
    /\ List.length emitted
       = List.length (instructions r)
         + 2 * (if optimizeCode opts && success r then peep_pairs emitted else 0).
Proof.
  intros opts ast symtab r emitted. unfold r, emitted.
  destruct (generate_invariant
              (fun g => instructionCount (statistics (result g))
                        = List.length (instructions (result g))))
    with (ast := ast) (symtab := symtab) as (g & Hg & [E|[e E]]).
  - intros op arg cmt g _ H. cbn. rewrite length_app, H. simpl. lia.
  - intros name g H. exact H.
  - intros w g H. exact H.
  - intros prefix g H. exact H.
  - intros name a g H. exact H.
  - reflexivity.
  - rewrite !E, finish_success, !finish_instructions, andb_true_r.
    cbn [optimizeCode andb].
    set (l := instructions (result g) ++ _).
    assert (Hstat : instructionCount (statistics (finish opts (result g)))
                    = S (List.length (instructions (result g)))).
    { unfold finish. destruct (optimizeCode opts) eqn:Ho.
      - unfold optimizeInstructions. rewrite Ho. cbn [negb].
        destruct (peephole_loop _ _ _ _) as [instrs [|]]; cbn; now rewrite Hg.
      - cbn. now rewrite Hg. }
    assert (Hlen : List.length l = S (List.length (instructions (result g)))).
    { unfold l. rewrite length_app. simpl. lia. }
    split; [now rewrite Hstat, Hlen|].
    rewrite <- scan_peep.
    destruct (optimizeCode opts) eqn:Ho; cbn [andb]; [|split; [reflexivity|lia]].
    destruct (peep_changed l) eqn:Hc.
    + split; [reflexivity|]. rewrite renumber_from_length. apply peep_pairs_length.
    + split; [reflexivity|]. rewrite (peep_pairs_unchanged l Hc). lia.
  - rewrite !E. cbn [generation_error set_success success push_error instructions
                     statistics andb]. rewrite andb_false_r. cbn [andb].
    split; [exact Hg|]. split; [reflexivity|lia].
Qed.

(** *** The variable-address table *)

Lemma assoc_set_fresh {A : Type} (name : string) (x : A) (t : list (string * A)) :
  assoc name t = None -> assoc_set name x t = t ++ [(name, x)].
Proof.
  induction t as [|[k c] t IH]; simpl; [reflexivity|].
  destruct (String.eqb k name); [discriminate|]. intros H. now rewrite IH.
Qed.

Lemma assoc_app_None {A : Type} (name : string) (t u : list (string * A)) :
  assoc name t = None -> assoc name (t ++ u) = assoc name u.
Proof.
  induction t as [|[k c] t IH]; simpl; [reflexivity|].
  destruct (String.eqb k name); [discriminate|]. exact IH.
Qed.

Lemma assoc_not_In {A : Type} (name : string) (t : list (string * A)) :
  ~ In name (map fst t) -> assoc name t = None.
Proof.
  induction t as [|[k c] t IH]; simpl; [reflexivity|]. intros H.
  destruct (String.eqb k name) eqn:E.
  - apply String.eqb_eq in E. exfalso. apply H. now left.
  - apply IH. intros Hin. apply H. now right.
Qed.

Lemma assoc_combine_seq (names : list string) :
  NoDup names ->
  forall start k name,
    nth_error names k = Some name ->
    assoc name (combine names (seq start (List.length names))) = Some (start + k).
Proof.
  induction names as [|n names IH]; intros Hnd start k name Hk.
  - destruct k; discriminate Hk.
  - cbn [List.length seq combine assoc]. destruct k as [|k].
    + injection Hk as ->. rewrite String.eqb_refl. f_equal. lia.
    + simpl in Hk. apply NoDup_cons_iff in Hnd. destruct Hnd as [Hn Hnd].
      destruct (String.eqb n name) eqn:E.
      * apply String.eqb_eq in E. subst n. exfalso. apply Hn.
        now apply nth_error_In with k.
      * rewrite (IH Hnd (S start) k name Hk). f_equal. lia.
Qed.

Lemma variable_names_In (entries : list (string * value)) (name : string) :
  In name (variable_names entries) -> In name (map fst entries).
Proof.
  unfold variable_names. intros H. apply in_map_iff in H.
  destruct H as (e & <- & He). apply filter_In in He. apply in_map. apply He.
Qed.

Lemma variable_names_NoDup (entries : list (string * value)) :
  NoDup (map fst entries) -> NoDup (variable_names entries).
Proof.
  induction entries as [|[name info] entries IH]; intros H.
  - constructor.
  - simpl in H. apply NoDup_cons_iff in H. destruct H as [Hn H].
    unfold variable_names. cbn [filter snd].
    destruct (is_str "variable" (prop "type" info)); [|now apply IH].
    cbn [map fst]. constructor; [|now apply IH].
    intros Hin. apply Hn. now apply variable_names_In.
Qed.

(** The loop assigns the addresses [addr], [addr + 1], ... to the entries of
    type ['variable'], in the order of the symbol table. *)
Lemma initializeSymbolTable_from_table (entries : list (string * value)) :
  NoDup (map fst entries) ->
  Forall (fun e => snd e <> JNull) entries ->
  forall (addr : nat) (g : generator),
    (forall name, In name (map fst entries) -> assoc name (symbolTable (result g)) = None) ->
    exists g',
      initializeSymbolTable_from addr entries g = (Normal tt, g')
      /\ symbolTable (result g')
         = symbolTable (result g)
           ++ combine (variable_names entries)
                (seq addr (List.length (variable_names entries)))
      /\ variableCount (statistics (result g'))
         = variableCount (statistics (result g)) + List.length (variable_names entries)
      /\ instructions (result g') = instructions (result g)
      /\ labelTable (result g') = labelTable (result g).
Proof.
  induction entries as [|[name info] entries IH]; intros Hnd Hnn addr g Hfresh.
  - exists g. cbn. rewrite app_nil_r. repeat split. lia.
  - simpl in Hnd. apply NoDup_cons_iff in Hnd. destruct Hnd as [Hn Hnd].
    pose proof (Forall_inv Hnn) as Hinfo. apply Forall_inv_tail in Hnn.
    simpl in Hinfo.
    cbn [initializeSymbolTable_from].
    assert (Hnull : nullish (Some info) = false).
    { destruct info; try reflexivity. now elim Hinfo. }
    rewrite Hnull. unfold variable_names. cbn [filter snd].
    destruct (is_str "variable" (prop "type" info)).
    + unfold bind. cbn [on_result modify].
      set (g1 := {| result := addVariable name addr (result g);
                    currentAddress := currentAddress g;
                    labelCounter := labelCounter g; tempCounter := tempCounter g |}).
      assert (Hset : symbolTable (result g1) = symbolTable (result g) ++ [(name, addr)]).
      { cbn. apply assoc_set_fresh. apply Hfresh. now left. }
      destruct (IH Hnd Hnn (S addr) g1) as (g' & E & Ht & Hc & Hi & Hl).
      { intros n Hin. rewrite Hset, assoc_app_None by (apply Hfresh; now right).
        cbn. destruct (String.eqb name n) eqn:En; [|reflexivity].
        apply String.eqb_eq in En. subst n. contradiction. }
      exists g'. split; [exact E|].
      rewrite Ht, Hc, Hi, Hl, Hset. cbn. rewrite <- app_assoc.
      split; [reflexivity|]. split; [unfold variable_names; lia|]. split; reflexivity.
    + destruct (IH Hnd Hnn addr g) as (g' & E & Ht & Hc & Hi & Hl).
      { intros n Hin. apply Hfresh. now right. }
      exists g'. repeat split; assumption.
Qed.

(** X5.  For a symbol table with distinct names and no [null] entry,
    [initializeSymbolTable] gives the entries of type ['variable'], in the
    order of the table, the addresses 0, 1, 2, ... and skips the others,
    and no later step of [generate] changes the variable-address table:
    the [k]-th variable is at address [k], a name that is not a variable
    has no address, and [variableCount] is the number of variables. *)
Theorem generate_seeds_consecutive_addresses :
  forall (opts : options) (ast : option value) (entries : list (string * value)),
    NoDup (map fst entries) ->
    Forall (fun e => snd e <> JNull) entries ->
    let r := generate opts ast (Some entries) in
    let names := variable_names entries in
    symbolTable r = combine names (seq 0 (List.length names))
    /\ variableCount (statistics r) = List.length names
    /\ (forall k name, nth_error names k = Some name -> assoc name (symbolTable r) = Some k)
    /\ (forall name, ~ In name names -> assoc name (symbolTable r) = None).
Proof.
  intros opts ast entries Hnd Hnn r names.
  destruct (initializeSymbolTable_from_table entries Hnd Hnn 0 new_generator)
    as (g0 & E0 & Ht & Hc & _); [reflexivity|].
  cbn in Ht, Hc. fold names in Ht, Hc.
  set (P := fun g : generator =>
              symbolTable (result g) = combine names (seq 0 (List.length names))
              /\ variableCount (statistics (result g)) = List.length names).
  assert (H0 : P g0) by (split; assumption).
  assert (Hr : P {| result := r; currentAddress := 0; labelCounter := 0;
                    tempCounter := 0 |}).
  { unfold r. rewrite generate_eq. unfold seed, initializeSymbolTable.
    unfold bind at 1. rewrite E0. cbn [generateProgramEntry emit on_result modify].
    set (g1 := {| result := addInstruction PUSH (ONum 0) "程序开始，初始化栈帧" (result g0);
                  currentAddress := currentAddress g0; labelCounter := labelCounter g0;
                  tempCounter := tempCounter g0 |}).
    assert (H1 : P g1) by exact H0.
    assert (Hwalk : preserves P (generateNode_opt ast)).
    { destruct ast as [node|]; [|apply preserves_ret].
      apply generateNode_preserves; intros; assumption. }
    destruct (generateNode_opt ast g1) as [[[]|e] g2] eqn:E2.
    - pose proof (Hwalk _ _ _ E2 H1) as [H2 H2'].
      unfold P, finish. cbn [result]. destruct (optimizeCode opts) eqn:Ho.
      + unfold optimizeInstructions. rewrite Ho. cbn [negb].
        destruct (peephole_loop _ _ _ _) as [instrs [|]]; cbn; split; assumption.
      + cbn. split; assumption.
    - exact (Hwalk _ _ _ E2 H1). }
  destruct Hr as [Hr1 Hr2]. cbn [result] in Hr1, Hr2.
  split; [exact Hr1|]. split; [exact Hr2|]. split.
  - intros k name Hk. rewrite Hr1.
    rewrite (assoc_combine_seq names (variable_names_NoDup entries Hnd) 0 k name Hk).
    reflexivity.
  - intros name Hn. rewrite Hr1. apply assoc_not_In.
    intros Hin. apply Hn. apply in_map_iff in Hin.
    destruct Hin as ([n a] & <- & Hin). now apply in_combine_l in Hin.
Qed.

Lemma generate_seeds_consecutive_addresses_witness :
  symbolTable
    (generate default_options None
       (Some [ ("x", JObj [("type", JStr "variable")]);
               ("f", JObj [("type", JStr "function")]);
               ("y", JObj [("type", JStr "variable")]) ]))
  = [("x", 0); ("y", 1)].
Proof.
  refine (proj1 (generate_seeds_consecutive_addresses default_options None
                   [ ("x", JObj [("type", JStr "variable")]);
                     ("f", JObj [("type", JStr "function")]);
                     ("y", JObj [("type", JStr "variable")]) ] _ _)).
  - repeat constructor; simpl; intuition discriminate.
  - repeat constructor; discriminate.
Defined.

(** *** The label table *)

Lemma assoc_set_keys {A : Type} (name : string) (x : A) (t : list (string * A)) :
  map fst (assoc_set name x t)
  = if existsb (String.eqb name) (map fst t) then map fst t else map fst t ++ [name].
Proof.
  induction t as [|[k c] t IH]; simpl; [reflexivity|].
  rewrite (String.eqb_sym name k).
  destruct (String.eqb k name) eqn:E; simpl; [reflexivity|].
  rewrite IH. now destruct (existsb (String.eqb name) (map fst t)).
Qed.

Lemma assoc_set_NoDup {A : Type} (name : string) (x : A) (t : list (string * A)) :
  NoDup (map fst t) -> NoDup (map fst (assoc_set name x t)).
Proof.
  intros H. rewrite assoc_set_keys.
  destruct (existsb (String.eqb name) (map fst t)) eqn:E; [exact H|].
  apply NoDup_app; [exact H|repeat constructor; intros []|].
  intros k Hk [Hn|[]]. subst k.
  assert (Ht : existsb (String.eqb name) (map fst t) = true).
  { apply existsb_exists. exists name. split; [exact Hk|apply String.eqb_refl]. }
  congruence.
Qed.

Lemma assoc_set_same {A : Type} (name : string) (x : A) (t : list (string * A)) :
  assoc name t = Some x -> NoDup (map fst t) -> assoc_set name x t = t.
Proof.
  induction t as [|[k c] t IH]; simpl; [discriminate|].
  destruct (String.eqb k name) eqn:E.
  - intros H _. now injection H as ->.
  - intros H Hnd. apply NoDup_cons_iff in Hnd. now rewrite IH.
Qed.

Lemma In_assoc {A : Type} (k : string) (x : A) (t : list (string * A)) :
  NoDup (map fst t) -> In (k, x) t -> assoc k t = Some x.
Proof.
  induction t as [|[k' c] t IH]; simpl; [intros _ []|].
  intros Hnd [H|H]; apply NoDup_cons_iff in Hnd; destruct Hnd as [Hn Hnd].
  - injection H as -> ->. now rewrite String.eqb_refl.
  - destruct (String.eqb k' k) eqn:E; [|now apply IH].
    apply String.eqb_eq in E. subst k'. exfalso. apply Hn.
    apply in_map_iff. now exists (k, x).
Qed.

Lemma assoc_set_Forall_snd {A : Type} (Q : A -> Prop) (name : string) (x : A)
  (t : list (string * A)) :
  Forall (fun e => Q (snd e)) t -> Q x -> Forall (fun e => Q (snd e)) (assoc_set name x t).
Proof.
  intros H Hx. induction t as [|[k c] t IH]; simpl.
  - constructor; [exact Hx|constructor].
  - destruct (String.eqb k name).
    + constructor; [exact Hx|now apply Forall_inv_tail in H].
    + constructor; [now apply Forall_inv in H|].
      apply IH. now apply Forall_inv_tail in H.
Qed.

(** Setting every label again to the address it has leaves the table as it
    is. *)
Lemma reset_labels (t : list (string * nat)) :
  NoDup (map fst t) ->
  forall l, incl l t -> fold_left (fun t e => assoc_set (fst e) (snd e) t) l t = t.
Proof.
  intros Hnd l. induction l as [|[k a] l IH]; intros Hl; [reflexivity|].
  cbn [fold_left fst snd]. rewrite assoc_set_same; [|apply In_assoc|]; try assumption.
  - apply IH. intros e He. apply Hl. now right.
  - apply Hl. now left.
Qed.

Lemma optimizeInstructions_labelTable (opts : options) (r : CodeGenerationResult) :
  NoDup (map fst (labelTable r)) ->
  labelTable (optimizeInstructions opts r) = labelTable r.
Proof.
  intros Hnd. unfold optimizeInstructions.
  destruct (negb (optimizeCode opts)); [reflexivity|].
  destruct (peephole_loop _ _ _ _) as [instrs [|]]; [|reflexivity].
  unfold updateInstructionAddresses. cbn.
  apply reset_labels; [exact Hnd|apply incl_refl].
Qed.

Lemma finish_labelTable (opts : options) (r : CodeGenerationResult) :
  NoDup (map fst (labelTable r)) -> labelTable (finish opts r) = labelTable r.
Proof.
  intros Hnd. unfold finish. destruct (optimizeCode opts); [|reflexivity].
  cbn [set_success labelTable]. now rewrite optimizeInstructions_labelTable.
Qed.

Lemma finish_statistics (opts : options) (r : CodeGenerationResult) :
  statistics (finish opts r)
  = {| instructionCount := S (instructionCount (statistics r));
       variableCount := variableCount (statistics r);
       labelCount := labelCount (statistics r) |}.
Proof.
  unfold finish. destruct (optimizeCode opts) eqn:Ho; [|reflexivity].
  unfold optimizeInstructions. rewrite Ho. cbn [negb].
  destruct (peephole_loop _ _ _ _) as [instrs [|]]; reflexivity.
Qed.

(** X6.  The label table that [generate] returns does not depend on the
    options: [updateInstructionAddresses] sets every label to the address
    it has, so that the labels keep the addresses of the instruction list
    before the peephole pass.  Its names are distinct, and its addresses are
    at most [instructionCount], the number of instructions emitted. *)
Theorem generate_labelTable_ignores_peephole :
  forall (opts opts' : options) (ast : option value)
         (symtab : option (list (string * value))),
    let r := generate opts ast symtab in
    labelTable r = labelTable (generate opts' ast symtab)
    /\ NoDup (map fst (labelTable r))
    /\ Forall (fun e => snd e <= instructionCount (statistics r)) (labelTable r).
Proof.
  intros opts opts' ast symtab r. unfold r.
  destruct (generate_invariant
              (fun g => NoDup (map fst (labelTable (result g)))
                        /\ Forall (fun e => snd e <= List.length (instructions (result g)))
                             (labelTable (result g))
                        /\ instructionCount (statistics (result g))
                           = List.length (instructions (result g))))
    with (ast := ast) (symtab := symtab) as (g & (Hnd & Hle & Hc) & [E|[e E]]).
  - intros op arg cmt g _ (Hnd & Hle & Hc). cbn. repeat split; [exact Hnd| |].
    + eapply Forall_impl; [|exact Hle]. intros e He. cbn in He.
      rewrite length_app. simpl. lia.
    + rewrite length_app, Hc. simpl. lia.
  - intros name g (Hnd & Hle & Hc). cbn. repeat split; [| |exact Hc].
    + now apply assoc_set_NoDup.
    + now apply (assoc_set_Forall_snd (fun a => a <= List.length (instructions (result g)))).
  - intros w g H. exact H.
  - intros prefix g H. exact H.
  - intros name a g H. exact H.
  - repeat split; constructor.
  - rewrite !E, !finish_labelTable, finish_statistics by assumption.
    repeat split; [exact Hnd|]. cbn. rewrite Hc.
    eapply Forall_impl; [|exact Hle]. intros e He. cbn in He. lia.
  - rewrite !E. cbn. repeat split; [exact Hnd|]. now rewrite Hc.
Qed.

(** *** Pairs the peephole pass leaves *)

(** X7.  The peephole pass is one sweep: of PUSH, PUSH, POP, POP at the head
    of the list it deletes the inner pair and keeps the outer PUSH and POP,
    now adjacent, at the addresses 0 and 1; the sweep goes on behind them
    and what it keeps is renumbered from 2. *)
Theorem peephole_keeps_enclosing_pair :
  forall (opts : options) (r : CodeGenerationResult) (p p' q' q : instruction)
         (rest : list instruction),
    optimizeCode opts = true ->
    instructions r = p :: p' :: q' :: q :: rest ->
    opcode_of p = PUSH -> opcode_of p' = PUSH ->
    opcode_of q' = POP -> opcode_of q = POP ->
    instructions (optimizeInstructions opts r)
    = set_address 0 p :: set_address 1 q :: renumber_from 2 (scan rest).
Proof.
  intros opts r p p' q' q rest Ho Hi Hp Hp' Hq' Hq.
  rewrite optimizeInstructions_instructions by assumption. rewrite Hi, scan_peep.
  assert (E1 : is_push_pop p p' = false).
  { unfold is_push_pop. rewrite Hp'. apply andb_false_r. }
  assert (E2 : is_push_pop p' q' = true) by (apply is_push_pop_opcodes; auto).
  assert (E3 : forall y, is_push_pop q y = false).
  { intros y. unfold is_push_pop. now rewrite Hq. }
  assert (Hpeep : peep (p :: p' :: q' :: q :: rest) = p :: q :: peep rest).
  { cbn [peep]. rewrite E1, E2. destruct rest as [|y rest']; [reflexivity|].
    now rewrite E3. }
  assert (Hch : peep_changed (p :: p' :: q' :: q :: rest) = true).
  { cbn [peep_changed]. now rewrite E1, E2. }
  rewrite Hch, Hpeep. reflexivity.
Qed.

Lemma peephole_keeps_enclosing_pair_witness :
  map opcode_of
    (instructions
       (optimizeInstructions default_options
          (set_instructions
             [ {| address := 0; opcode_of := PUSH; operand_of := ONum 1; comment := "" |};
               {| address := 1; opcode_of := PUSH; operand_of := ONum 2; comment := "" |};
               {| address := 2; opcode_of := POP; operand_of := ONull; comment := "" |};
               {| address := 3; opcode_of := POP; operand_of := ONull; comment := "" |};
               {| address := 4; opcode_of := HALT; operand_of := ONull; comment := "" |} ]
             new_result)))
  = [PUSH; POP; HALT].
Proof.
  rewrite (peephole_keeps_enclosing_pair default_options
             (set_instructions
                [ {| address := 0; opcode_of := PUSH; operand_of := ONum 1; comment := "" |};
                  {| address := 1; opcode_of := PUSH; operand_of := ONum 2; comment := "" |};
                  {| address := 2; opcode_of := POP; operand_of := ONull; comment := "" |};
                  {| address := 3; opcode_of := POP; operand_of := ONull; comment := "" |};
                  {| address := 4; opcode_of := HALT; operand_of := ONull; comment := "" |} ]
                new_result)
             _ _ _ _ _ eq_refl eq_refl eq_refl eq_refl eq_refl eq_refl).
  reflexivity.
Defined.

(** ** Relations between the states of a walk *)

Section Relation.
Variable R : generator -> option exn -> generator -> Prop.
Hypothesis R_ret : forall g, R g None g.
Hypothesis R_seq : forall g1 g2 o g3, R g1 None g2 -> R g2 o g3 -> R g1 o g3.
Hypothesis R_throw : forall e g, walk_error e -> R g (Some e) g.

Lemma relates_ret {A : Type} (a : A) : relates R (ret a).
Proof. intros g out g' H. injection H as <- <-. apply R_ret. Qed.

Lemma relates_throw {A : Type} (e : exn) :
  walk_error e -> relates R (@throw generator A e).
Proof. intros He g out g' H. injection H as <- <-. now apply R_throw. Qed.

Lemma relates_gets {A : Type} (f : generator -> A) : relates R (gets f).
Proof. intros g out g' H. injection H as <- <-. apply R_ret. Qed.

Lemma relates_bind {A B : Type} (c : Gen A) (k : A -> Gen B) :
  relates R c -> (forall a, relates R (k a)) -> relates R (bind c k).
Proof.
  intros Hc Hk g out g' H. unfold bind in H.
  destruct (c g) as [[a|e] g1] eqn:E.
  - apply R_seq with g1; [apply (Hc g _ g1 E)|apply (Hk a g1 out g' H)].
  - injection H as <- <-. apply (Hc g _ g1 E).
Qed.

Lemma relates_for_each {A : Type} (f : A -> Gen unit) (l : list A) :
  (forall x, In x l -> relates R (f x)) -> relates R (for_each f l).
Proof.
  induction l as [|x l IH]; intros H; simpl.
  - apply relates_ret.
  - apply relates_bind; [apply H; now left|].
    intros _. apply IH. intros y Hy. apply H. now right.
Qed.

Lemma relates_on_field {A : Type} (f : value -> Gen A) (absent : Gen A)
  (name : string) (fs : list (string * value)) :
  (forall c, In c (map snd fs) -> relates R (f c)) ->
  relates R absent ->
  relates R (on_field f absent name fs).
Proof.
  intros Hf Ha. rewrite on_field_assoc.
  destruct (assoc name fs) as [c|] eqn:E; [|exact Ha].
  apply Hf. now apply (assoc_In name).
Qed.

(** The updates of a walk outside the statements that use labels, and these
    statements as a whole. *)
Hypothesis R_emit : forall op arg cmt g,
  (forall l, arg <> OLabel l) -> R g None (snd (emit op arg cmt g)).
Hypothesis R_warning : forall w g, R g None (snd (on_result (push_warning w) g)).
Hypothesis R_if : forall (walk : value -> Gen unit) (fs : list (string * value)),
  (forall name, relates R (generateChild walk name fs)) ->
  relates R (generateIfStatement walk fs).
Hypothesis R_while : forall (walk : value -> Gen unit) (fs : list (string * value)),
  (forall name, relates R (generateChild walk name fs)) ->
  relates R (generateWhileStatement walk fs).

Lemma relates_emit (op : opcode) (arg : operand) (cmt : string) :
  (forall l, arg <> OLabel l) -> relates R (emit op arg cmt).
Proof.
  intros Harg g out g' H. injection H as <- <-. now apply R_emit.
Qed.

Lemma relates_unsupported_node (node : value) : relates R (unsupported_node node).
Proof.
  intros g out g' H. injection H as <- <-. apply R_warning.
Qed.

Ltac relate_step :=
  first
    [ apply relates_ret
    | apply relates_throw;
      first [ apply undefined_variable_error
            | apply binary_operator_error; assumption
            | apply unary_operator_error; assumption
            | apply nullish_read_error; [assumption|simpl; auto]
            | apply null_declaration_error
            | apply not_iterable_error ]
    | apply relates_gets
    | apply relates_emit; intros ?; discriminate
    | apply relates_unsupported_node
    | apply relates_bind; [|intros ?] ].

Lemma generateNode_relates (node : value) : relates R (generateNode node).
Proof.
  induction node as [node IH] using value_size_ind.
  assert (Hchild : forall name fs, node = JObj fs ->
            relates R (generateChild generateNode name fs)).
  { intros name fs ->. apply relates_on_field; [|apply relates_ret].
    intros c Hc. apply IH. now apply size_field. }
  assert (Hstmts : forall fs, node = JObj fs ->
            relates R (generateStatements generateNode fs)).
  { intros fs ->. apply relates_on_field; [|apply relates_ret].
    intros body Hbody. destruct body; try apply relates_ret.
    apply relates_for_each. intros x Hx. apply IH.
    apply Nat.lt_trans with (size (JArr elems)); [now apply size_elem|now apply size_field]. }
  destruct node as [| b | t | s | l | fs]; cbn [generateNode];
    try (match goal with |- relates R (if ?c then _ else _) => destruct c end;
         relate_step).
  cbn [truthy negb]. unfold generateNode_switch.
  repeat match goal with
         | |- relates R (if ?c then _ else _) => destruct c
         end.
  - apply Hstmts; reflexivity.
  - (* VariableDeclaration *)
    apply relates_on_field; [|apply relates_ret].
    intros ds Hds. destruct (truthy (Some ds)); [|apply relates_ret].
    destruct ds; try relate_step.
    apply relates_for_each. intros d Hd. unfold generateDeclarator.
    destruct d; try relate_step.
    apply relates_on_field; [|apply relates_ret].
    intros init Hinit. destruct (truthy (Some init)); [|apply relates_ret].
    apply relates_bind.
    + apply IH.
      apply Nat.lt_trans with (size (JObj fields)); [now apply size_field|].
      apply Nat.lt_trans with (size (JArr elems)); [now apply size_elem|now apply size_field].
    + intros _. destruct (nullish (assoc "id" fields)) eqn:En; repeat relate_step.
  - (* AssignmentExpression *)
    unfold generateAssignment. apply relates_bind; [now apply Hchild|intros _].
    destruct (nullish (assoc "left" fs)) eqn:En; [relate_step|].
    destruct (is_str "Identifier" (prop_of "type" (assoc "left" fs))); [|relate_step].
    relate_step; [relate_step|].
    destruct (table_get a (prop_of "name" (assoc "left" fs))); relate_step.
  - (* BinaryExpression *)
    unfold generateBinaryExpression.
    apply relates_bind; [now apply Hchild|intros _].
    apply relates_bind; [now apply Hchild|intros _].
    destruct (binary_opcode (assoc "operator" fs)) as [op|] eqn:E; relate_step.
  - (* UnaryExpression *)
    unfold generateUnaryExpression.
    apply relates_bind; [now apply Hchild|intros _].
    destruct (unary_opcode (assoc "operator" fs)) as [op|] eqn:E; relate_step.
  - unfold generateLiteral. relate_step.
  - unfold generateIdentifier. relate_step; [relate_step|].
    destruct (table_get a (assoc "name" fs)); relate_step.
  - apply R_if. intros name. now apply Hchild.
  - apply R_while. intros name. now apply Hchild.
  - apply Hstmts; reflexivity.
  - unfold generateExpressionStatement.
    apply relates_bind; [now apply Hchild|intros _]. relate_step.
  - unfold generatePrintStatement.
    apply relates_bind; [now apply Hchild|intros _]. relate_step.
  - relate_step.
Qed.
End Relation.


(** *** Jumps and labels *)

Lemma jump_targets_app (a b : list instruction) :
  jump_targets (a ++ b) = jump_targets a ++ jump_targets b.
Proof. apply flat_map_app. Qed.

Lemma labels_resolved_refl (X : list string) (r : CodeGenerationResult) :
  labels_resolved X r r.
Proof.
  split; [apply incl_refl|]. exists []. split; [now rewrite app_nil_r|intros l []].
Qed.

Lemma labels_resolved_trans (X : list string) (r1 r2 r3 : CodeGenerationResult) :
  labels_resolved X r1 r2 -> labels_resolved X r2 r3 -> labels_resolved X r1 r3.
Proof.
  intros (K1 & m1 & I1 & T1) (K2 & m2 & I2 & T2). split.
  - eapply incl_tran; eassumption.
  - exists (m1 ++ m2). split; [now rewrite I2, I1, app_assoc|].
    intros l Hl. rewrite jump_targets_app in Hl. apply in_app_or in Hl.
    destruct Hl as [Hl|Hl]; [|now apply T2].
    destruct (T1 l Hl) as [H|H]; [left; now apply K2|now right].
Qed.

Lemma labels_resolved_weaken (X : list string) (r r' : CodeGenerationResult) :
  labels_resolved [] r r' -> labels_resolved X r r'.
Proof.
  intros (K & m & I & T). split; [exact K|]. exists m. split; [exact I|].
  intros l Hl. destruct (T l Hl) as [H|[]]. now left.
Qed.

Lemma labels_resolved_emit (X : list string) (op : opcode) (arg : operand)
  (cmt : string) (r : CodeGenerationResult) :
  (forall l, arg = OLabel l -> In l X) ->
  labels_resolved X r (addInstruction op arg cmt r).
Proof.
  intros Harg. split; [apply incl_refl|]. eexists. split; [reflexivity|].
  intros l Hl. destruct arg as [|[v|]|[a|]|n|l0]; cbn in Hl; try (now destruct Hl).
  destruct Hl as [<-|[]]. right. now apply Harg.
Qed.

Lemma addLabel_key (name : string) (r : CodeGenerationResult) :
  In name (map fst (labelTable (addLabel name r))).
Proof.
  cbn. rewrite assoc_set_keys.
  destruct (existsb (String.eqb name) (map fst (labelTable r))) eqn:E.
  - apply existsb_exists in E. destruct E as (k & Hk & E).
    apply String.eqb_eq in E. now subst k.
  - apply in_or_app. right. now left.
Qed.

Lemma labels_resolved_addLabel (X : list string) (name : string)
  (r : CodeGenerationResult) :
  labels_resolved X r (addLabel name r).
Proof.
  split.
  - cbn. rewrite assoc_set_keys.
    destruct (existsb (String.eqb name) (map fst (labelTable r)));
      [apply incl_refl|apply incl_appl, incl_refl].
  - exists []. split; [now rewrite app_nil_r|intros l []].
Qed.

(** Once the pending labels are in the table, nothing is pending. *)
Lemma labels_resolved_discharge (X : list string) (r r' : CodeGenerationResult) :
  labels_resolved X r r' ->
  (forall l, In l X -> In l (map fst (labelTable r'))) ->
  labels_resolved [] r r'.
Proof.
  intros (K & m & I & T) HX. split; [exact K|]. exists m. split; [exact I|].
  intros l Hl. destruct (T l Hl) as [H|H]; left; [exact H|now apply HX].
Qed.

Lemma generateIfStatement_labels (walk : value -> Gen unit) (fs : list (string * value)) :
  (forall name, relates walk_labels (generateChild walk name fs)) ->
  relates walk_labels (generateIfStatement walk fs).
Proof.
  intros Hchild g [[]|e0] g' H; [intros _|discriminate].
  unfold generateIfStatement in H.
  unfold bind at 1 2 in H. cbn [generateLabel] in H.
  set (elseLabel := ("else" ++ "_" ++ nat_to_string (labelCounter g))%string) in *.
  set (endLabel := ("endif" ++ "_" ++ nat_to_string (S (labelCounter g)))%string) in *.
  set (X := [elseLabel; endLabel]).
  unfold bind at 1 in H.
  destruct (generateChild walk "test" fs _) as [[[]|e] g1] eqn:E1; [|discriminate H].
  apply Hchild in E1. specialize (E1 eq_refl). cbn [result] in E1.
  unfold bind at 1 in H. cbn [emit on_result modify] in H.
  unfold bind at 1 in H.
  destruct (generateChild walk "consequent" fs _) as [[[]|e] g2] eqn:E2; [|discriminate H].
  apply Hchild in E2. specialize (E2 eq_refl). cbn [result] in E2.
  unfold bind at 1 in H. cbn [emit on_result modify] in H.
  unfold bind at 1 in H. cbn [on_result modify] in H.
  unfold bind at 1 in H.
  destruct (generateChild walk "alternate" fs _) as [[[]|e] g3] eqn:E3; [|discriminate H].
  apply Hchild in E3. specialize (E3 eq_refl). cbn [result] in E3.
  cbn [on_result modify] in H. injection H as <-. cbn [result].
  assert (Hlast : labels_resolved X
                    (addLabel elseLabel
                       (addInstruction JMP (OLabel endLabel) "跳转到if语句结束" (result g2)))
                    (addLabel endLabel (result g3))).
  { eapply labels_resolved_trans; [apply labels_resolved_weaken, E3|].
    apply labels_resolved_addLabel. }
  apply labels_resolved_discharge with X.
  - eapply labels_resolved_trans; [apply labels_resolved_weaken, E1|].
    eapply labels_resolved_trans.
    { apply (labels_resolved_emit X JZ (OLabel elseLabel)). intros l [= <-]. now left. }
    eapply labels_resolved_trans; [apply labels_resolved_weaken, E2|].
    eapply labels_resolved_trans.
    { apply (labels_resolved_emit X JMP (OLabel endLabel)). intros l [= <-]. right. now left. }
    eapply labels_resolved_trans; [apply labels_resolved_addLabel|].
    exact Hlast.
  - intros l [<-|[<-|[]]].
    + apply (proj1 Hlast). apply addLabel_key.
    + apply addLabel_key.
Qed.

Lemma generateWhileStatement_labels (walk : value -> Gen unit)
  (fs : list (string * value)) :
  (forall name, relates walk_labels (generateChild walk name fs)) ->
  relates walk_labels (generateWhileStatement walk fs).
Proof.
  intros Hchild g [[]|e0] g' H; [intros _|discriminate].
  unfold generateWhileStatement in H.
  unfold bind at 1 2 in H. cbn [generateLabel] in H.
  set (loopLabel := ("loop" ++ "_" ++ nat_to_string (labelCounter g))%string) in *.
  set (endLabel := ("endloop" ++ "_" ++ nat_to_string (S (labelCounter g)))%string) in *.
  set (X := [loopLabel; endLabel]).
  unfold bind at 1 in H. cbn [on_result modify] in H.
  unfold bind at 1 in H.
  destruct (generateChild walk "test" fs _) as [[[]|e] g1] eqn:E1; [|discriminate H].
  apply Hchild in E1. specialize (E1 eq_refl). cbn [result] in E1.
  unfold bind at 1 in H. cbn [emit on_result modify] in H.
  unfold bind at 1 in H.
  destruct (generateChild walk "body" fs _) as [[[]|e] g2] eqn:E2; [|discriminate H].
  apply Hchild in E2. specialize (E2 eq_refl). cbn [result] in E2.
  unfold bind at 1 in H. cbn [emit on_result modify] in H.
  injection H as <-. cbn [result].
  assert (Hrest : labels_resolved X (addLabel loopLabel (result g))
                    (addLabel endLabel
                       (addInstruction JMP (OLabel loopLabel) "跳回循环开始" (result g2)))).
  { eapply labels_resolved_trans; [apply labels_resolved_weaken, E1|].
    eapply labels_resolved_trans.
    { apply (labels_resolved_emit X JZ (OLabel endLabel)). intros l [= <-]. right. now left. }
    eapply labels_resolved_trans; [apply labels_resolved_weaken, E2|].
    eapply labels_resolved_trans.
    { apply (labels_resolved_emit X JMP (OLabel loopLabel)). intros l [= <-]. now left. }
    apply labels_resolved_addLabel. }
  apply labels_resolved_discharge with X.
  - eapply labels_resolved_trans; [apply labels_resolved_addLabel|exact Hrest].
  - intros l [<-|[<-|[]]].
    + apply (proj1 Hrest). apply addLabel_key.
    + apply addLabel_key.
Qed.

(** A walk that completes leaves no jump without its label. *)
Lemma generateNode_labels (node : value) (g g' : generator) :
  generateNode node g = (Normal tt, g') -> labels_resolved [] (result g) (result g').
Proof.
  intros H.
  apply (generateNode_relates walk_labels) with (node := node) (g := g)
    (out := Normal tt) (g' := g'); try assumption; try reflexivity.
  - intros g0 _. apply labels_resolved_refl.
  - intros g1 g2 o g3 H1 H2 Ho.
    apply labels_resolved_trans with (result g2); [now apply H1|now apply H2].
  - intros e g0 _ Ho. discriminate Ho.
  - intros op arg cmt g0 Harg _. apply labels_resolved_emit.
    intros l Hl. now elim (Harg l).
  - intros w g0 _. split; [apply incl_refl|].
    exists []. split; [cbn; now rewrite app_nil_r|intros l []].
  - apply generateIfStatement_labels.
  - apply generateWhileStatement_labels.
Qed.

Lemma generate_success_inv (opts : options) (ast : option value)
  (symtab : option (list (string * value))) :
  success (generate opts ast symtab) = true ->
  exists g1 g2,
    seed symtab new_generator = (Normal tt, g1)
    /\ generateNode_opt ast g1 = (Normal tt, g2)
    /\ generate opts ast symtab = finish opts (result g2).
Proof.
  rewrite generate_eq.
  destruct (seed symtab new_generator) as [[[]|e] g1] eqn:E1; [|discriminate].
  destruct (generateNode_opt ast g1) as [[[]|e] g2] eqn:E2; [|discriminate].
  intros _. exists g1, g2. repeat split. exact E2.
Qed.

Lemma seed_labelTable (symtab : option (list (string * value))) (out : completion unit)
  (g1 : generator) :
  seed symtab new_generator = (out, g1) -> labelTable (result g1) = [].
Proof.
  intros H.
  assert (Hp : preserves (fun g => labelTable (result g) = []) (seed symtab)).
  { unfold seed. apply preserves_bind.
    - destruct symtab as [entries|]; [|apply preserves_ret].
      apply initializeSymbolTable_from_preserves. intros name a g Hg. exact Hg.
    - intros _ g o g' E Hg. unfold generateProgramEntry in E.
      replace g' with (snd (emit PUSH (ONum 0) "程序开始，初始化栈帧" g)) by now rewrite E.
      exact Hg. }
  now apply (Hp _ _ _ H).
Qed.

Lemma renumber_from_In (l : list instruction) :
  forall k ins, In ins (renumber_from k l) ->
                exists a ins0, In ins0 l /\ ins = set_address a ins0.
Proof.
  induction l as [|x l IH]; intros k ins H; [destruct H|].
  destruct H as [<-|H].
  - exists k, x. split; [now left|reflexivity].
  - destruct (IH _ _ H) as (a & ins0 & Hin & E). exists a, ins0. split; [now right|exact E].
Qed.

(** X8.  In the result of a successful run of [generate], the label that
    an instruction has as its operand (the JZ and JMP of [generateIfStatement]
    and [generateWhileStatement]) has an address in the label table. *)
Theorem generate_jumps_target_defined_labels :
  forall (opts : options) (ast : option value) (symtab : option (list (string * value)))
         (ins : instruction) (l : string),
    success (generate opts ast symtab) = true ->
    In ins (instructions (generate opts ast symtab)) ->
    operand_of ins = OLabel l ->
    exists a : nat, assoc l (labelTable (generate opts ast symtab)) = Some a.
Proof.
  intros opts ast symtab ins l Hs Hin Hop.
  destruct (generate_success_inv opts ast symtab Hs) as (g1 & g2 & E1 & E2 & E).
  assert (Hall : Forall (fun i => forall n, operand_of i = OLabel n ->
                                  In n (map fst (labelTable (result g2))))
                   (instructions (result g2))).
  { destruct (seed_normal symtab g1 E1) as (Hi1 & _).
    assert (Hr : labels_resolved [] (result g1) (result g2)).
    { destruct ast as [node|]; [now apply (generateNode_labels node)|].
      injection E2 as <-. apply labels_resolved_refl. }
    destruct Hr as (_ & more & Hi & Ht). rewrite Hi, Hi1.
    constructor; [intros n Hn; discriminate Hn|].
    apply Forall_forall. intros i Hi' n Hn.
    destruct (Ht n) as [H|[]]; [|exact H].
    unfold jump_targets. apply in_flat_map. exists i. split; [exact Hi'|].
    rewrite Hn. now left. }
  assert (Hkeys : In l (map fst (labelTable (result g2)))).
  { rewrite E, finish_instructions in Hin.
    set (Q := fun i : instruction => forall n, operand_of i = OLabel n ->
                                      In n (map fst (labelTable (result g2)))).
    assert (Hem : Forall Q (instructions (result g2)
                            ++ [ {| address := List.length (instructions (result g2));
                                    opcode_of := HALT; operand_of := ONull;
                                    comment := "程序结束" |} ])).
    { apply Forall_app. split; [exact Hall|].
      constructor; [intros n Hn; discriminate Hn|constructor]. }
    destruct (optimizeCode opts && peep_changed _).
    - apply renumber_from_In in Hin. destruct Hin as (a & ins0 & Hin & ->).
      apply (peep_Forall Q) in Hem. rewrite Forall_forall in Hem.
      apply (Hem ins0 Hin). exact Hop.
    - rewrite Forall_forall in Hem. now apply (Hem ins Hin). }
  assert (Hnd : NoDup (map fst (labelTable (result g2)))).
  { assert (Hp : preserves (fun g => NoDup (map fst (labelTable (result g))))
                   (generateNode_opt ast)).
    { destruct ast as [node|]; [|apply preserves_ret].
      apply generateNode_preserves; try (intros; assumption).
      intros name g H. cbn. now apply assoc_set_NoDup. }
    apply (Hp _ _ _ E2). rewrite (seed_labelTable symtab _ g1 E1). constructor. }
  rewrite E, finish_labelTable by exact Hnd.
  apply in_map_iff in Hkeys. destruct Hkeys as ([k a] & Hk & Hka). cbn in Hk. subst k.
  exists a. now apply In_assoc.
Qed.

Lemma generate_jumps_target_defined_labels_witness :
  exists a : nat,
    assoc "else_0" (labelTable (generate default_options (Some print_if_true) None))
    = Some a.
Proof.
  apply (generate_jumps_target_defined_labels default_options (Some print_if_true) None
           {| address := 2; opcode_of := JZ; operand_of := OLabel "else_0";
              comment := "if条件为假时跳转" |}).
  - vm_compute. reflexivity.
  - vm_compute. right. right. left. reflexivity.
  - reflexivity.
Defined.

(** *** The causes of a failure *)





Lemma generateNode_EBinary (operator : string) (l r : expression) :
  generateNode (node_of (EBinary operator l r))
  = (generateNode (node_of l) ;;
     generateNode (node_of r) ;;
     match binary_opcode (Some (JStr operator)) with
     | Some instr => emit instr ONull (operator ++ " 运算")
     | None => throw (Error ("不支持的二元运算符: " ++ js_String (Some (JStr operator))))
     end).
Proof. reflexivity. Qed.

Lemma generateNode_EUnary (operator : string) (a : expression) :
  generateNode (node_of (EUnary operator a))
  = (generateNode (node_of a) ;;
     match unary_opcode (Some (JStr operator)) with
     | Some instr => emit instr ONull (operator ++ " 运算")
     | None => throw (Error ("不支持的一元运算符: " ++ js_String (Some (JStr operator))))
     end).
Proof. reflexivity. Qed.

Lemma generateNode_expression (e : expression) : forall g, compiles e g.
Proof.
  induction e as [v|name|operator l IHl r IHr|operator a IHa]; intros g; unfold compiles.
  - cbn [postfix]. eexists; eexists. split; [reflexivity|]. cbn. repeat split.
  - cbn [postfix].
    assert (Hrun : generateNode (node_of (EIdentifier name)) g
                   = match assoc name (symbolTable (result g)) with
                     | Some addr =>
                         emit LOAD_VAR (OAddr (Some addr)) ("加载变量 " ++ name) g
                     | None => (Throw (undefined_variable (Some (JStr name))), g)
                     end).
    { cbn [node_of]. rewrite generateNode_obj. unfold generateNode_switch.
      cbn [assoc String.eqb Ascii.eqb Bool.eqb is_str].
      unfold generateIdentifier, bind, gets.
      cbn [assoc String.eqb Ascii.eqb Bool.eqb table_get].
      now destruct (assoc name (symbolTable (result g))). }
    rewrite Hrun. destruct (assoc name (symbolTable (result g))) as [addr|].
    + eexists; eexists. split; [reflexivity|]. cbn. repeat split.
    + eexists; eexists. split; [reflexivity|constructor].
  - cbn [postfix]. rewrite generateNode_EBinary.
    specialize (IHl g). unfold compiles in IHl.
    destruct (postfix (symbolTable (result g)) l) as [cl|].
    + destruct IHl as (g1 & m1 & E1 & I1 & C1 & T1).
      specialize (IHr g1). unfold compiles in IHr. rewrite T1 in IHr.
      destruct (postfix (symbolTable (result g)) r) as [cr|].
      * destruct IHr as (g2 & m2 & E2 & I2 & C2 & T2).
        destruct (binary_opcode (Some (JStr operator))) as [op|] eqn:Eop.
        -- eexists; eexists. split; [unfold bind; rewrite E1, E2; reflexivity|].
           cbn. rewrite I2, I1, <- !app_assoc.
           split; [reflexivity|]. split; [|congruence].
           rewrite !map_app, C1, C2. reflexivity.
        -- eexists; eexists. split; [unfold bind; rewrite E1, E2; reflexivity|].
           now apply binary_operator_error.
      * destruct IHr as (err & g2 & E2 & He).
        exists err, g2. split; [unfold bind; now rewrite E1, E2|exact He].
    + destruct IHl as (err & g1 & E1 & He).
      destruct (postfix (symbolTable (result g)) r), (binary_opcode (Some (JStr operator)));
        exists err, g1; (split; [unfold bind; now rewrite E1|exact He]).
  - cbn [postfix]. rewrite generateNode_EUnary.
    specialize (IHa g). unfold compiles in IHa.
    destruct (postfix (symbolTable (result g)) a) as [ca|].
    + destruct IHa as (g1 & m1 & E1 & I1 & C1 & T1).
      destruct (unary_opcode (Some (JStr operator))) as [op|] eqn:Eop.
      * eexists; eexists. split; [unfold bind; rewrite E1; reflexivity|].
        cbn. rewrite I1, <- !app_assoc.
        split; [reflexivity|]. split; [|congruence].
        rewrite !map_app, C1. reflexivity.
      * eexists; eexists. split; [unfold bind; rewrite E1; reflexivity|].
        now apply unary_operator_error.
    + destruct IHa as (err & g1 & E1 & He).
      destruct (unary_opcode (Some (JStr operator)));
        exists err, g1; (split; [unfold bind; now rewrite E1|exact He]).
Qed.

Lemma peep_changed_no_POP (l : list instruction) :
  Forall (fun i => opcode_of i <> POP) l -> peep_changed l = false.
Proof.
  induction l as [|x|x y rest E IH|x y rest E IH] using peep_ind2; intros H;
    try reflexivity.
  - apply is_push_pop_opcodes in E. destruct E as [_ Ey].
    apply Forall_inv_tail, Forall_inv in H. contradiction.
  - change ((if is_push_pop x y then true else peep_changed (y :: rest)) = false).
    rewrite E. apply IH. now apply Forall_inv_tail in H.
Qed.

Lemma binary_opcode_not_POP (operator : option value) (op : opcode) :
  binary_opcode operator = Some op -> op <> POP.
Proof.
  unfold binary_opcode.
  repeat match goal with
         | |- (if ?c then _ else _) = _ -> _ => destruct c
         end; intros H; try discriminate H; injection H as <-; discriminate.
Qed.

Lemma unary_opcode_not_POP (operator : option value) (op : opcode) :
  unary_opcode operator = Some op -> op <> POP.
Proof.
  unfold unary_opcode.
  repeat match goal with
         | |- (if ?c then _ else _) = _ -> _ => destruct c
         end; intros H; try discriminate H; injection H as <-; discriminate.
Qed.

Lemma postfix_no_POP (table : list (string * nat)) (e : expression) :
  forall code, postfix table e = Some code -> Forall (fun c => fst c <> POP) code.
Proof.
  induction e as [v|name|operator l IHl r IHr|operator a IHa]; intros code H;
    cbn [postfix] in H.
  - injection H as <-. repeat constructor. discriminate.
  - destruct (assoc name table); [|discriminate H]. injection H as <-.
    repeat constructor. discriminate.
  - destruct (postfix table l) as [cl|]; [|discriminate H].
    destruct (postfix table r) as [cr|]; [|discriminate H].
    destruct (binary_opcode (Some (JStr operator))) as [op|] eqn:E; [|discriminate H].
    injection H as <-. apply Forall_app. split; [now apply IHl|].
    apply Forall_app. split; [now apply IHr|].
    repeat constructor. now apply (binary_opcode_not_POP _ _ E).
  - destruct (postfix table a) as [ca|]; [|discriminate H].
    destruct (unary_opcode (Some (JStr operator))) as [op|] eqn:E; [|discriminate H].
    injection H as <-. apply Forall_app. split; [now apply IHa|].
    repeat constructor. now apply (unary_opcode_not_POP _ _ E).
Qed.

(** X10.  For an expression made of literals, identifiers, binary and unary
    operators, [generate] emits PUSH 0, then the expression in postfix
    order (the code of the left operand, that of the right operand, the
    operator), then HALT, and the peephole pass changes nothing; the
    variables are loaded from the addresses seeded from the symbol table.
    The run fails when and only when a variable of the expression has no
    address or one of its operators is not one of the generator. *)
Theorem generate_expression_in_postfix_order :
  forall (opts : options) (e : expression) (symtab : option (list (string * value)))
         (g1 : generator),
    seed symtab new_generator = (Normal tt, g1) ->
    let r := generate opts (Some (node_of e)) symtab in
    (forall code, postfix (symbolTable (result g1)) e = Some code ->
       success r = true
       /\ map signature (instructions r) = (PUSH, ONum 0) :: code ++ [(HALT, ONull)])
    /\ (postfix (symbolTable (result g1)) e = None -> success r = false).
Proof.
  intros opts e symtab g1 Hseed r. unfold r. rewrite generate_eq, Hseed.
  cbn [generateNode_opt].
  pose proof (generateNode_expression e g1) as Hc. unfold compiles in Hc.
  destruct (seed_normal symtab g1 Hseed) as (Hi1 & _).
  split.
  - intros code Hcode. rewrite Hcode in Hc.
    destruct Hc as (g2 & more & E & Hi & Hm & _). rewrite E.
    split; [reflexivity|]. rewrite finish_instructions.
    set (emitted := instructions (result g2) ++ _).
    assert (Hsig : map signature emitted = (PUSH, ONum 0) :: code ++ [(HALT, ONull)]).
    { unfold emitted. rewrite Hi, Hi1, !map_app, Hm. reflexivity. }
    assert (Hno : peep_changed emitted = false).
    { apply peep_changed_no_POP.
      assert (Hall : Forall (fun c => fst c <> POP) (map signature emitted)).
      { rewrite Hsig. constructor; [discriminate|].
        apply Forall_app. split; [now apply (postfix_no_POP (symbolTable (result g1)) e)|].
        repeat constructor. discriminate. }
      rewrite Forall_map in Hall. exact Hall. }
    rewrite Hno, andb_false_r. exact Hsig.
  - intros Hnone. rewrite Hnone in Hc. destruct Hc as (err & g2 & E & _).
    now rewrite E.
Qed.

Lemma generate_expression_in_postfix_order_witness :
  map signature
    (instructions
       (generate default_options
          (Some (node_of (EBinary "+" (EIdentifier "a")
                            (EBinary "*" (EIdentifier "b") (ELiteral (JNum "2"))))))
          (Some [ ("a", JObj [("type", JStr "variable")]);
                  ("b", JObj [("type", JStr "variable")]) ])))
  = [ (PUSH, ONum 0); (LOAD_VAR, OAddr (Some 0)); (LOAD_VAR, OAddr (Some 1));
      (LOAD, OImm (Some (JNum "2"))); (MUL, ONull); (ADD, ONull); (HALT, ONull) ].
Proof.
  destruct (generate_expression_in_postfix_order default_options
              (EBinary "+" (EIdentifier "a")
                 (EBinary "*" (EIdentifier "b") (ELiteral (JNum "2"))))
              (Some [ ("a", JObj [("type", JStr "variable")]);
                      ("b", JObj [("type", JStr "variable")]) ])
              _ eq_refl) as [Hsome _].
  destruct (Hsome _ eq_refl) as [_ Hcode]. exact Hcode.
Defined.

(** *** The names of the labels *)

Lemma nat_to_string_inj (n n' : nat) : nat_to_string n = nat_to_string n' -> n = n'.
Proof.
  unfold nat_to_string. intros H.
  assert (Hnn : forall k, Nat.to_uint k <> Nil).
  { intros k. rewrite <- (DecimalNat.Unsigned.of_to k) at 1.
    rewrite DecimalNat.Unsigned.to_of. apply DecimalFacts.unorm_nonnil. }
  apply DecimalNat.Unsigned.to_uint_inj.
  pose proof (NilZero.usu (Nat.to_uint n) (Hnn n)) as H1.
  pose proof (NilZero.usu (Nat.to_uint n') (Hnn n')) as H2.
  rewrite H in H1. congruence.
Qed.

Lemma append_inj_l (p a b : string) : (p ++ a = p ++ b)%string -> a = b.
Proof.
  induction p as [|c p IH]; simpl; intros H; [exact H|].
  injection H as H. now apply IH.
Qed.

Lemma label_numbered_inj (name : string) (n n' : nat) :
  label_numbered name n -> label_numbered name n' -> n = n'.
Proof.
  intros (p & Hp & ->) (p' & Hp' & E).
  unfold label_prefixes in Hp, Hp'. cbn [In] in Hp, Hp'.
  destruct Hp as [<-|[<-|[<-|[<-|[]]]]]; destruct Hp' as [<-|[<-|[<-|[<-|[]]]]];
    try (cbn in E; discriminate E);
    apply append_inj_l in E; apply (append_inj_l "_") in E;
    now apply nat_to_string_inj in E.
Qed.

Lemma label_numbered_prefix (prefix : string) (n : nat) :
  In prefix label_prefixes -> label_numbered (prefix ++ "_" ++ nat_to_string n) n.
Proof. intros H. now exists prefix. Qed.

(** *** Labels are defined once *)

Lemma assoc_set_get {A : Type} (name : string) (x : A) (t : list (string * A)) :
  assoc name (assoc_set name x t) = Some x.
Proof.
  induction t as [|[k c] t IH]; cbn [assoc_set assoc].
  - now rewrite String.eqb_refl.
  - destruct (String.eqb k name) eqn:E; cbn [assoc]; now rewrite E.
Qed.

Lemma assoc_set_other {A : Type} (name name' : string) (x : A) (t : list (string * A)) :
  name' <> name -> assoc name' (assoc_set name x t) = assoc name' t.
Proof.
  intros Hne. induction t as [|[k c] t IH]; cbn [assoc_set assoc].
  - destruct (String.eqb name name') eqn:E; [|reflexivity].
    apply String.eqb_eq in E. congruence.
  - destruct (String.eqb k name) eqn:E; cbn [assoc].
    + apply String.eqb_eq in E. subst k.
      destruct (String.eqb name name') eqn:E'; [|reflexivity].
      apply String.eqb_eq in E'. congruence.
    + now rewrite IH.
Qed.

Lemma assoc_Some_In {A : Type} (name : string) (a : A) (t : list (string * A)) :
  assoc name t = Some a -> In name (map fst t).
Proof.
  induction t as [|[k c] t IH]; cbn [assoc map fst In]; [discriminate|].
  destruct (String.eqb k name) eqn:E.
  - apply String.eqb_eq in E. now left.
  - intros H. right. now apply IH.
Qed.

Lemma assoc_set_In {A : Type} (name name' : string) (x : A) (t : list (string * A)) :
  In name' (map fst (assoc_set name x t)) -> In name' (map fst t) \/ name' = name.
Proof.
  rewrite assoc_set_keys. destruct (existsb (String.eqb name) (map fst t)).
  - now left.
  - rewrite in_app_iff. cbn. intuition.
Qed.

Lemma kept_from_same (floor : nat) (g g' : generator) :
  labelTable (result g') = labelTable (result g) ->
  labelCounter g <= labelCounter g' ->
  (exists more, instructions (result g') = instructions (result g) ++ more) ->
  kept_from floor g g'.
Proof.
  intros Ht Hc Hi. unfold kept_from. rewrite Ht. repeat split; auto.
Qed.

Lemma kept_from_refl (floor : nat) (g : generator) : kept_from floor g g.
Proof.
  apply kept_from_same; [reflexivity|lia|]. exists []. now rewrite app_nil_r.
Qed.

Lemma kept_from_trans (floor : nat) (g1 g2 g3 : generator) :
  kept_from floor g1 g2 -> kept_from floor g2 g3 -> kept_from floor g1 g3.
Proof.
  intros (C1 & S1 & N1 & m1 & I1) (C2 & S2 & N2 & m2 & I2).
  split; [lia|]. split; [auto|]. split.
  - intros name H. destruct (N2 name H) as [H2|(n & Hn & Hr)].
    + destruct (N1 name H2) as [H1|(n & Hn & Hr)]; [now left|].
      right. exists n. split; [exact Hn|lia].
    + right. exists n. now split.
  - exists (m1 ++ m2). now rewrite I2, I1, app_assoc.
Qed.

Lemma kept_from_weaken (floor floor' : nat) (g g' : generator) :
  kept_from floor g g' -> floor' <= floor -> kept_from floor' g g'.
Proof.
  intros (C & S & N & I) Hf. repeat split; auto.
  intros name H. destruct (N name H) as [H1|(n & Hn & Hr)]; [now left|].
  right. exists n. split; [exact Hn|lia].
Qed.

Lemma kept_from_below (floor : nat) (g g' : generator) :
  labels_below_counter g -> kept_from floor g g' -> labels_below_counter g'.
Proof.
  intros Hb (C & _ & N & _) name n Hin Hn.
  destruct (N name Hin) as [H|(n' & Hn' & Hr)].
  - specialize (Hb name n H Hn). lia.
  - rewrite (label_numbered_inj name n n' Hn Hn'). lia.
Qed.

(** A label whose number is below the floor, and that the table of [g] did
    not have, is not in the table of [g'] either. *)
Lemma kept_from_fresh (floor : nat) (g g' : generator) (name : string) (n : nat) :
  kept_from floor g g' -> label_numbered name n -> n < floor ->
  ~ In name (map fst (labelTable (result g))) ->
  ~ In name (map fst (labelTable (result g'))).
Proof.
  intros (_ & _ & N & _) Hn Hlt Hg Hin.
  destruct (N name Hin) as [H|(n' & Hn' & Hr)]; [contradiction|].
  rewrite (label_numbered_inj name n n' Hn Hn') in Hlt. lia.
Qed.

Lemma below_counter_fresh (g : generator) (name : string) (n : nat) :
  labels_below_counter g -> label_numbered name n -> labelCounter g <= n ->
  ~ In name (map fst (labelTable (result g))).
Proof.
  intros Hb Hn Hle Hin. specialize (Hb name n Hin Hn). lia.
Qed.

(** Defining a label the table does not have. *)
Lemma kept_from_addLabel (floor : nat) (g : generator) (name : string) (n : nat) :
  ~ In name (map fst (labelTable (result g))) ->
  label_numbered name n -> floor <= n < labelCounter g ->
  kept_from floor g (snd (on_result (addLabel name) g)).
Proof.
  intros Hfresh Hn Hr. cbn. split; [cbn; lia|]. split; [|split].
  - intros k a Hk. cbn. rewrite assoc_set_other; [exact Hk|].
    intros ->. apply Hfresh. now apply (assoc_Some_In _ a).
  - intros k Hk. cbn in Hk. apply assoc_set_In in Hk. destruct Hk as [Hk| ->].
    + now left.
    + right. exists n. split; [exact Hn|cbn; lia].
  - exists []. cbn. now rewrite app_nil_r.
Qed.

(** *** The layout of a loop and of a conditional *)

Lemma generateWhileStatement_layout (walk : value -> Gen unit)
  (fs : list (string * value)) (g g' : generator) :
  (forall name, relates walk_numbers (generateChild walk name fs)) ->
  labels_below_counter g ->
  generateWhileStatement walk fs g = (Normal tt, g') ->
  let loopLabel := ("loop" ++ "_" ++ nat_to_string (labelCounter g))%string in
  let endLabel := ("endloop" ++ "_" ++ nat_to_string (S (labelCounter g)))%string in
  let start := List.length (instructions (result g)) in
  exists test body : list instruction,
    instructions (result g')
    = instructions (result g) ++ test
      ++ [ {| address := start + List.length test; opcode_of := JZ;
              operand_of := OLabel endLabel; comment := "while条件为假时跳出循环" |} ]
      ++ body
      ++ [ {| address := start + List.length test + 1 + List.length body;
              opcode_of := JMP; operand_of := OLabel loopLabel;
              comment := "跳回循环开始" |} ]
    /\ assoc loopLabel (labelTable (result g')) = Some start
    /\ assoc endLabel (labelTable (result g'))
       = Some (List.length (instructions (result g')))
    /\ labels_below_counter g'
    /\ labels_kept g g'
    /\ exists g1 g2 : generator,
         let entered :=
           {| result := addLabel loopLabel (result g); currentAddress := currentAddress g;
              labelCounter := S (S (labelCounter g)); tempCounter := tempCounter g |} in
         let tested := snd (emit JZ (OLabel endLabel) "while条件为假时跳出循环" g1) in
         generateChild walk "test" fs entered = (Normal tt, g1)
         /\ instructions (result g1) = instructions (result entered) ++ test
         /\ generateChild walk "body" fs tested = (Normal tt, g2)
         /\ instructions (result g2) = instructions (result tested) ++ body.
Proof.
  intros Hchild Hb H. cbv zeta.
  unfold generateWhileStatement in H. unfold bind at 1 2 in H. cbn [generateLabel] in H.
  unfold bind at 1 in H. cbn [on_result modify result currentAddress labelCounter
                               tempCounter] in H.
  set (k := labelCounter g) in *.
  set (loopLabel := ("loop" ++ "_" ++ nat_to_string k)%string) in *.
  set (endLabel := ("endloop" ++ "_" ++ nat_to_string (S k))%string) in *.
  set (start := List.length (instructions (result g))) in *.
  assert (Hloop : label_numbered loopLabel k).
  { apply label_numbered_prefix. unfold label_prefixes. cbn. tauto. }
  assert (Hend : label_numbered endLabel (S k)).
  { apply label_numbered_prefix. unfold label_prefixes. cbn. tauto. }
  set (ga := {| result := result g; currentAddress := currentAddress g;
                labelCounter := S (S k); tempCounter := tempCounter g |}).
  set (sa := {| result := addLabel loopLabel (result g);
                currentAddress := currentAddress g;
                labelCounter := S (S k); tempCounter := tempCounter g |}) in *.
  assert (Kga : kept_from k g ga).
  { apply kept_from_same; [reflexivity|cbn; unfold k; lia|].
    exists []. cbn. now rewrite List.app_nil_r. }
  assert (Fl : ~ In loopLabel (map fst (labelTable (result ga)))).
  { apply (below_counter_fresh g loopLabel k Hb Hloop). unfold k. lia. }
  assert (Ksa : kept_from k g sa).
  { apply kept_from_trans with ga; [exact Kga|].
    apply (kept_from_addLabel k ga loopLabel k Fl Hloop). cbn. lia. }
  assert (Bsa : labels_below_counter sa) by now apply (kept_from_below k g).
  unfold bind at 1 in H.
  destruct (generateChild walk "test" fs sa) as [[[]|e] g1] eqn:E1; [|discriminate H].
  destruct (Hchild "test" sa _ g1 E1 eq_refl Bsa) as [B1 K1].
  unfold labels_kept in K1. cbn [labelCounter sa] in K1.
  unfold bind at 1 in H. cbn [emit on_result modify] in H.
  set (s1 := {| result := addInstruction JZ (OLabel endLabel) "while条件为假时跳出循环"
                            (result g1);
                currentAddress := currentAddress g1; labelCounter := labelCounter g1;
                tempCounter := tempCounter g1 |}) in *.
  assert (Ks1 : kept_from (S (S k)) g1 s1).
  { apply kept_from_same; [reflexivity|cbn; lia|]. eexists. reflexivity. }
  assert (Bs1 : labels_below_counter s1) by now apply (kept_from_below (S (S k)) g1).
  unfold bind at 1 in H.
  destruct (generateChild walk "body" fs s1) as [[[]|e] g2] eqn:E2; [|discriminate H].
  destruct (Hchild "body" s1 _ g2 E2 eq_refl Bs1) as [B2 K2].
  unfold labels_kept in K2. cbn [labelCounter s1] in K2.
  assert (Hc1 : S (S k) <= labelCounter g1) by apply K1.
  apply (fun K => kept_from_weaken _ (S (S k)) _ _ K Hc1) in K2.
  unfold bind at 1 in H. cbn [emit on_result modify] in H.
  set (s2 := {| result := addInstruction JMP (OLabel loopLabel) "跳回循环开始" (result g2);
                currentAddress := currentAddress g2; labelCounter := labelCounter g2;
                tempCounter := tempCounter g2 |}) in *.
  assert (Ks2 : kept_from (S (S k)) g2 s2).
  { apply kept_from_same; [reflexivity|cbn; lia|]. eexists. reflexivity. }
  injection H as <-.
  assert (A : kept_from (S (S k)) sa s2).
  { apply kept_from_trans with g1; [exact K1|].
    apply kept_from_trans with s1; [exact Ks1|].
    apply kept_from_trans with g2; [exact K2|exact Ks2]. }
  assert (Fe : ~ In endLabel (map fst (labelTable (result s2)))).
  { apply (kept_from_fresh (S (S k)) sa s2 endLabel (S k) A Hend); [lia|].
    intros Hin. cbn in Hin. apply assoc_set_In in Hin. destruct Hin as [Hin|Heq].
    - apply (below_counter_fresh g endLabel (S k) Hb Hend); [unfold k; lia|exact Hin].
    - change (endLabel = loopLabel) in Heq. rewrite Heq in Hend.
      pose proof (label_numbered_inj _ _ _ Hloop Hend). lia. }
  assert (Hc2 : S (S k) <= labelCounter s2) by (destruct A as [A _]; exact A).
  assert (Klast : kept_from k s2 (snd (on_result (addLabel endLabel) s2))).
  { apply (kept_from_addLabel k s2 endLabel (S k) Fe Hend). lia. }
  cbn [on_result modify snd] in Klast.
  assert (Kall : kept_from k g
                   {| result := addLabel endLabel (result s2);
                      currentAddress := currentAddress s2;
                      labelCounter := labelCounter s2; tempCounter := tempCounter s2 |}).
  { apply kept_from_trans with sa; [exact Ksa|].
    apply kept_from_trans with s2; [|exact Klast].
    apply (kept_from_weaken (S (S k))); [exact A|lia]. }
  destruct K1 as (_ & _ & _ & test & I1). destruct K2 as (_ & _ & _ & body & I2).
  exists test, body. cbn [result on_result]. split; [|split; [|split; [|split; [|split]]]].
  - cbn [addLabel instructions s2 result addInstruction]. rewrite I2.
    cbn [s1 result addInstruction instructions]. rewrite I1.
    cbn [sa result addLabel instructions].
    rewrite !length_app. cbn [List.length]. fold start.
    rewrite <- !app_assoc. cbn [List.app].
    repeat f_equal; lia.
  - cbn [addLabel labelTable]. rewrite assoc_set_other.
    + destruct A as (_ & S & _). apply S. cbn [sa result addLabel labelTable].
      apply assoc_set_get.
    + intros Heq. rewrite Heq in Hloop. pose proof (label_numbered_inj _ _ _ Hloop Hend).
      lia.
  - cbn [addLabel labelTable instructions]. apply assoc_set_get.
  - now apply (kept_from_below k g).
  - exact Kall.
  - exists g1, g2. cbv zeta. split; [first [exact E1|reflexivity]|].
    split; [exact I1|]. split; [first [exact E2|reflexivity]|exact I2].
Qed.

Lemma generateIfStatement_layout (walk : value -> Gen unit)
  (fs : list (string * value)) (g g' : generator) :
  (forall name, relates walk_numbers (generateChild walk name fs)) ->
  labels_below_counter g ->
  generateIfStatement walk fs g = (Normal tt, g') ->
  let elseLabel := ("else" ++ "_" ++ nat_to_string (labelCounter g))%string in
  let endLabel := ("endif" ++ "_" ++ nat_to_string (S (labelCounter g)))%string in
  let start := List.length (instructions (result g)) in
  exists test consequent alternate : list instruction,
    instructions (result g')
    = instructions (result g) ++ test
      ++ [ {| address := start + List.length test; opcode_of := JZ;
              operand_of := OLabel elseLabel; comment := "if条件为假时跳转" |} ]
      ++ consequent
      ++ [ {| address := start + List.length test + 1 + List.length consequent;
              opcode_of := JMP; operand_of := OLabel endLabel;
              comment := "跳转到if语句结束" |} ]
      ++ alternate
    /\ assoc elseLabel (labelTable (result g'))
       = Some (start + List.length test + 1 + List.length consequent + 1)
    /\ assoc endLabel (labelTable (result g'))
       = Some (List.length (instructions (result g')))
    /\ labels_below_counter g'
    /\ labels_kept g g'
    /\ exists g1 g2 g3 : generator,
         let entered :=
           {| result := result g; currentAddress := currentAddress g;
              labelCounter := S (S (labelCounter g)); tempCounter := tempCounter g |} in
         let tested := snd (emit JZ (OLabel elseLabel) "if条件为假时跳转" g1) in
         let branched :=
           snd (on_result (addLabel elseLabel)
                  (snd (emit JMP (OLabel endLabel) "跳转到if语句结束" g2))) in
         generateChild walk "test" fs entered = (Normal tt, g1)
         /\ instructions (result g1) = instructions (result entered) ++ test
         /\ generateChild walk "consequent" fs tested = (Normal tt, g2)
         /\ instructions (result g2) = instructions (result tested) ++ consequent
         /\ generateChild walk "alternate" fs branched = (Normal tt, g3)
         /\ instructions (result g3) = instructions (result branched) ++ alternate.
Proof.
  intros Hchild Hb H. cbv zeta.
  unfold generateIfStatement in H. unfold bind at 1 2 in H. cbn [generateLabel] in H.
  cbn [result currentAddress labelCounter tempCounter] in H.
  set (k := labelCounter g) in *.
  set (elseLabel := ("else" ++ "_" ++ nat_to_string k)%string) in *.
  set (endLabel := ("endif" ++ "_" ++ nat_to_string (S k))%string) in *.
  set (start := List.length (instructions (result g))) in *.
  assert (Helse : label_numbered elseLabel k).
  { apply label_numbered_prefix. unfold label_prefixes. cbn. tauto. }
  assert (Hend : label_numbered endLabel (S k)).
  { apply label_numbered_prefix. unfold label_prefixes. cbn. tauto. }
  assert (Hdiff : elseLabel <> endLabel).
  { intros Heq. rewrite Heq in Helse.
    pose proof (label_numbered_inj _ _ _ Helse Hend). lia. }
  set (ga := {| result := result g; currentAddress := currentAddress g;
                labelCounter := S (S k); tempCounter := tempCounter g |}) in *.
  assert (Kga : kept_from k g ga).
  { apply kept_from_same; [reflexivity|cbn; unfold k; lia|].
    exists []. cbn. now rewrite List.app_nil_r. }
  assert (Bga : labels_below_counter ga) by now apply (kept_from_below k g).
  unfold bind at 1 in H.
  destruct (generateChild walk "test" fs ga) as [[[]|e] g1] eqn:E1; [|discriminate H].
  destruct (Hchild "test" ga _ g1 E1 eq_refl Bga) as [B1 K1].
  unfold labels_kept in K1. cbn [labelCounter ga] in K1.
  unfold bind at 1 in H. cbn [emit on_result modify] in H.
  set (s1 := {| result := addInstruction JZ (OLabel elseLabel) "if条件为假时跳转" (result g1);
                currentAddress := currentAddress g1; labelCounter := labelCounter g1;
                tempCounter := tempCounter g1 |}) in *.
  assert (Ks1 : kept_from (S (S k)) g1 s1).
  { apply kept_from_same; [reflexivity|cbn; lia|]. eexists. reflexivity. }
  assert (Bs1 : labels_below_counter s1) by now apply (kept_from_below (S (S k)) g1).
  unfold bind at 1 in H.
  destruct (generateChild walk "consequent" fs s1) as [[[]|e] g2] eqn:E2; [|discriminate H].
  destruct (Hchild "consequent" s1 _ g2 E2 eq_refl Bs1) as [B2 K2].
  unfold labels_kept in K2. cbn [labelCounter s1] in K2.
  assert (Hc1 : S (S k) <= labelCounter g1) by apply K1.
  apply (fun K => kept_from_weaken _ (S (S k)) _ _ K Hc1) in K2.
  unfold bind at 1 in H. cbn [emit on_result modify] in H.
  unfold bind at 1 in H. cbn [on_result modify] in H.
  set (s2 := {| result := addInstruction JMP (OLabel endLabel) "跳转到if语句结束" (result g2);
                currentAddress := currentAddress g2; labelCounter := labelCounter g2;
                tempCounter := tempCounter g2 |}) in *.
  assert (Ks2 : kept_from (S (S k)) g2 s2).
  { apply kept_from_same; [reflexivity|cbn; lia|]. eexists. reflexivity. }
  assert (A : kept_from (S (S k)) ga s2).
  { apply kept_from_trans with g1; [exact K1|].
    apply kept_from_trans with s1; [exact Ks1|].
    apply kept_from_trans with g2; [exact K2|exact Ks2]. }
  assert (Hc2 : S (S k) <= labelCounter s2) by (destruct A as [A _]; exact A).
  assert (Fga : forall name n, label_numbered name n -> k <= n ->
                  ~ In name (map fst (labelTable (result ga)))).
  { intros name n Hn Hle. apply (below_counter_fresh g name n Hb Hn). unfold k in Hle. lia. }
  assert (Fe2 : ~ In elseLabel (map fst (labelTable (result s2)))).
  { apply (kept_from_fresh (S (S k)) ga s2 elseLabel k A Helse); [lia|].
    apply (Fga elseLabel k Helse). lia. }
  assert (Fd2 : ~ In endLabel (map fst (labelTable (result s2)))).
  { apply (kept_from_fresh (S (S k)) ga s2 endLabel (S k) A Hend); [lia|].
    apply (Fga endLabel (S k) Hend). lia. }
  set (s3 := {| result := addLabel elseLabel (result s2);
                currentAddress := currentAddress s2; labelCounter := labelCounter s2;
                tempCounter := tempCounter s2 |}) in *.
  assert (Ks3 : kept_from k s2 s3).
  { apply (kept_from_addLabel k s2 elseLabel k Fe2 Helse). lia. }
  assert (Kg3 : kept_from k g s3).
  { apply kept_from_trans with ga; [exact Kga|].
    apply kept_from_trans with s2; [|exact Ks3].
    apply (kept_from_weaken (S (S k))); [exact A|lia]. }
  assert (Bs3 : labels_below_counter s3) by now apply (kept_from_below k g).
  unfold bind at 1 in H.
  destruct (generateChild walk "alternate" fs s3) as [[[]|e] g3] eqn:E3; [|discriminate H].
  destruct (Hchild "alternate" s3 _ g3 E3 eq_refl Bs3) as [B3 K3].
  unfold labels_kept in K3.
  assert (Hc3 : S (S k) <= labelCounter s3) by exact Hc2.
  apply (fun K => kept_from_weaken _ (S (S k)) _ _ K Hc3) in K3.
  cbn [on_result modify] in H. injection H as <-.
  assert (Fd3 : ~ In endLabel (map fst (labelTable (result g3)))).
  { apply (kept_from_fresh (S (S k)) s3 g3 endLabel (S k) K3 Hend); [lia|].
    intros Hin. cbn in Hin. apply assoc_set_In in Hin. destruct Hin as [Hin|Heq].
    - now apply Fd2.
    - change (endLabel = elseLabel) in Heq. congruence. }
  assert (Hcg3 : S (S k) <= labelCounter g3).
  { destruct K3 as [K3 _]. cbn [labelCounter s3] in K3. lia. }
  assert (Klast : kept_from k g3 (snd (on_result (addLabel endLabel) g3))).
  { apply (kept_from_addLabel k g3 endLabel (S k) Fd3 Hend). lia. }
  cbn [on_result modify snd] in Klast.
  assert (Kall : kept_from k g
                   {| result := addLabel endLabel (result g3);
                      currentAddress := currentAddress g3;
                      labelCounter := labelCounter g3; tempCounter := tempCounter g3 |}).
  { apply kept_from_trans with s3; [exact Kg3|].
    apply kept_from_trans with g3; [|exact Klast].
    apply (kept_from_weaken (S (S k))); [exact K3|lia]. }
  pose proof K3 as (_ & S3 & _ & alternate & I3).
  destruct K1 as (_ & _ & _ & test & I1). destruct K2 as (_ & _ & _ & consequent & I2).
  assert (Hs2 : instructions (result s2)
                = instructions (result g) ++ test
                  ++ [ {| address := start + List.length test; opcode_of := JZ;
                          operand_of := OLabel elseLabel;
                          comment := "if条件为假时跳转" |} ]
                  ++ consequent
                  ++ [ {| address := start + List.length test + 1 + List.length consequent;
                          opcode_of := JMP; operand_of := OLabel endLabel;
                          comment := "跳转到if语句结束" |} ]).
  { cbn [s2 result addInstruction instructions]. rewrite I2.
    cbn [s1 result addInstruction instructions]. rewrite I1.
    cbn [ga result instructions]. rewrite !length_app. cbn [List.length]. fold start.
    rewrite <- !app_assoc. cbn [List.app]. repeat f_equal; lia. }
  exists test, consequent, alternate. cbn [result].
  split; [|split; [|split; [|split; [|split]]]].
  - cbn [addLabel instructions]. rewrite I3. cbn [s3 result addLabel instructions].
    rewrite Hs2, <- !app_assoc. reflexivity.
  - cbn [addLabel labelTable]. rewrite assoc_set_other by exact Hdiff.
    apply S3. cbn [s3 result addLabel labelTable]. rewrite assoc_set_get. f_equal.
    rewrite Hs2. repeat (rewrite ?length_app; cbn [List.length]).
    fold start. lia.
  - cbn [addLabel labelTable instructions]. apply assoc_set_get.
  - now apply (kept_from_below k g).
  - exact Kall.
  - exists g1, g2, g3. cbv zeta. split; [first [exact E1|reflexivity]|].
    split; [exact I1|]. split; [first [exact E2|reflexivity]|].
    split; [exact I2|]. split; [first [exact E3|reflexivity]|exact I3].
Qed.

Lemma generateNode_numbers (node : value) (g g' : generator) :
  generateNode node g = (Normal tt, g') ->
  labels_below_counter g ->
  labels_below_counter g' /\ labels_kept g g'.
Proof.
  intros H.
  apply (generateNode_relates walk_numbers) with (node := node) (g := g)
    (out := Normal tt) (g' := g'); try assumption; try reflexivity.
  - intros g0 _ Hb. split; [exact Hb|apply kept_from_refl].
  - intros g1 g2 o g3 H1 H2 Ho Hb.
    destruct (H1 eq_refl Hb) as [B2 K12]. destruct (H2 Ho B2) as [B3 K23].
    split; [exact B3|]. unfold labels_kept in *.
    apply kept_from_trans with g2; [exact K12|].
    apply (kept_from_weaken (labelCounter g2)); [exact K23|apply K12].
  - intros e g0 _ Ho. discriminate Ho.
  - intros op arg cmt g0 _ _ Hb.
    assert (K : kept_from (labelCounter g0) g0 (snd (emit op arg cmt g0))).
    { apply kept_from_same; [reflexivity|cbn; lia|]. eexists. reflexivity. }
    split; [exact (kept_from_below _ g0 _ Hb K)|exact K].
  - intros w g0 _ Hb.
    assert (K : kept_from (labelCounter g0) g0 (snd (on_result (push_warning w) g0))).
    { apply kept_from_same; [reflexivity|cbn; lia|]. exists []. cbn.
      now rewrite List.app_nil_r. }
    split; [exact (kept_from_below _ g0 _ Hb K)|exact K].
  - intros walk fs Hc g0 [[]|e] g0' E; [intros _ Hb|discriminate].
    destruct (generateIfStatement_layout walk fs g0 g0' Hc Hb E)
      as (_ & _ & _ & _ & _ & _ & B & K & _). now split.
  - intros walk fs Hc g0 [[]|e] g0' E; [intros _ Hb|discriminate].
    destruct (generateWhileStatement_layout walk fs g0 g0' Hc Hb E)
      as (_ & _ & _ & _ & _ & B & K & _). now split.
Qed.

Lemma generateChild_numbers (name : string) (fs : list (string * value)) :
  relates walk_numbers (generateChild generateNode name fs).
Proof.
  unfold generateChild. rewrite on_field_assoc.
  destruct (assoc name fs) as [c|]; intros g out g' H.
  - destruct out as [[]|e]; [|intros Ho; discriminate Ho].
    intros _ Hb. now apply (generateNode_numbers c).
  - injection H as <- <-. intros _ Hb. split; [exact Hb|apply kept_from_refl].
Qed.

(** X11.  From a generator whose labels have numbers below [labelCounter]
    (a new one, or one reached by a walk), a walk that completes overwrites
    no label: the labels of the table keep their addresses, the new labels
    carry the numbers given out during the walk, the counter does not go
    back, the instruction list is only appended to, and the labels are
    again below the counter. *)
Theorem generateNode_keeps_defined_labels (node : value) (g g' : generator) :
  labels_below_counter g ->
  generateNode node g = (Normal tt, g') ->
  labels_below_counter g'
  /\ labelCounter g <= labelCounter g'
  /\ (forall name a, assoc name (labelTable (result g)) = Some a ->
                     assoc name (labelTable (result g')) = Some a)
  /\ (forall name, In name (map fst (labelTable (result g'))) ->
                   In name (map fst (labelTable (result g)))
                   \/ exists n, label_numbered name n
                                /\ labelCounter g <= n < labelCounter g')
  /\ exists more, instructions (result g') = instructions (result g) ++ more.
Proof.
  intros Hb H. destruct (generateNode_numbers node g g' H Hb) as [B K].
  split; [exact B|exact K].
Qed.

Lemma generateNode_keeps_defined_labels_witness :
  assoc "loop_0" (labelTable (result (snd (generateNode print_if_true
             (snd (generateNode print_while_true new_generator))))))
  = Some 0.
Proof.
  apply (generateNode_keeps_defined_labels print_if_true
           (snd (generateNode print_while_true new_generator))
           (snd (generateNode print_if_true
                   (snd (generateNode print_while_true new_generator))))).
  - apply (generateNode_numbers print_while_true new_generator); [reflexivity|].
    intros name n [].
  - reflexivity.
  - reflexivity.
Defined.

(** X12.  The code of a WhileStatement that is generated to its end, from a
    generator whose labels are below [labelCounter]; [k] is the counter
    before.  The generator defines the label [loop_k], walks [node.test],
    which appends the instructions [test], emits a JZ to the label
    [endloop_(k+1)], walks [node.body], which appends the instructions
    [body], and emits a JMP to [loop_k]: the code is [test], the JZ, [body]
    and the JMP, in this order.  In the label table [loop_k] is the address
    of the first instruction of [test] and [endloop_(k+1)] the address after
    the JMP, also when the test or the body contain loops and conditionals
    of their own. *)
Theorem generateNode_WhileStatement_layout (fs : list (string * value))
  (g g' : generator) :
  assoc "type" fs = Some (JStr "WhileStatement") ->
  labels_below_counter g ->
  generateNode (JObj fs) g = (Normal tt, g') ->
  let loopLabel := ("loop" ++ "_" ++ nat_to_string (labelCounter g))%string in
  let endLabel := ("endloop" ++ "_" ++ nat_to_string (S (labelCounter g)))%string in
  let start := List.length (instructions (result g)) in
  let entered :=
    {| result := addLabel loopLabel (result g); currentAddress := currentAddress g;
       labelCounter := S (S (labelCounter g)); tempCounter := tempCounter g |} in
  exists (test body : list instruction) (g1 g2 : generator),
    let tested := snd (emit JZ (OLabel endLabel) "while条件为假时跳出循环" g1) in
    generateChild generateNode "test" fs entered = (Normal tt, g1)
    /\ instructions (result g1) = instructions (result entered) ++ test
    /\ generateChild generateNode "body" fs tested = (Normal tt, g2)
    /\ instructions (result g2) = instructions (result tested) ++ body
    /\ instructions (result g')
       = instructions (result g) ++ test
         ++ [ {| address := start + List.length test; opcode_of := JZ;
                 operand_of := OLabel endLabel; comment := "while条件为假时跳出循环" |} ]
         ++ body
         ++ [ {| address := start + List.length test + 1 + List.length body;
                 opcode_of := JMP; operand_of := OLabel loopLabel;
                 comment := "跳回循环开始" |} ]
    /\ assoc loopLabel (labelTable (result g')) = Some start
    /\ assoc endLabel (labelTable (result g'))
       = Some (start + List.length test + 1 + List.length body + 1).
Proof.
  intros Ht Hb H. cbv zeta.
  cbn [generateNode truthy negb] in H. unfold generateNode_switch in H.
  rewrite Ht in H. cbn [is_str] in H.
  destruct (generateWhileStatement_layout generateNode fs g g'
              (fun name => generateChild_numbers name fs) Hb H)
    as (test & body & Hi & Hl & He & _ & _ & g1 & g2 & E1 & I1 & E2 & I2).
  exists test, body, g1, g2.
  split; [exact E1|]. split; [exact I1|]. split; [exact E2|]. split; [exact I2|].
  split; [exact Hi|]. split; [exact Hl|].
  rewrite He, Hi. repeat (rewrite ?length_app; cbn [List.length]). f_equal. lia.
Qed.

Lemma generateNode_WhileStatement_layout_witness :
  exists test body : list instruction,
    map opcode_of (instructions (result (snd (generateNode print_while_true new_generator))))
    = map opcode_of test ++ [JZ] ++ map opcode_of body ++ [JMP]
    /\ assoc "loop_0"
         (labelTable (result (snd (generateNode print_while_true new_generator))))
       = Some 0
    /\ assoc "endloop_1"
         (labelTable (result (snd (generateNode print_while_true new_generator))))
       = Some (List.length test + 1 + List.length body + 1).
Proof.
  destruct (generateNode_WhileStatement_layout
              [("type", JStr "WhileStatement");
               ("test", JObj [("type", JStr "Literal"); ("value", JBool true)]);
               ("body",
                JObj [("type", JStr "PrintStatement");
                      ("expression",
                       JObj [("type", JStr "Literal"); ("value", JNum "1")])])]
              new_generator (snd (generateNode print_while_true new_generator)))
    as (test & body & g1 & g2 & _ & _ & _ & _ & Hi & Hl & He).
  - reflexivity.
  - intros name n [].
  - reflexivity.
  - exists test, body. split; [|split; [exact Hl|exact He]].
    rewrite Hi, !map_app. reflexivity.
Defined.

(** X13.  The code of an IfStatement that is generated to its end, from a
    generator whose labels are below [labelCounter]; [k] is the counter
    before.  The generator walks [node.test], which appends the instructions
    [test], emits a JZ to the label [else_k], walks [node.consequent], which
    appends [consequent], emits a JMP to the label [endif_(k+1)], defines
    [else_k], walks [node.alternate], which appends [alternate], and defines
    [endif_(k+1)]: the code is [test], the JZ, [consequent], the JMP and
    [alternate], in this order.  In the label table [else_k] is the address
    after the JMP, where [alternate] starts, and [endif_(k+1)] the address
    after [alternate]. *)
Theorem generateNode_IfStatement_layout (fs : list (string * value))
  (g g' : generator) :
  assoc "type" fs = Some (JStr "IfStatement") ->
  labels_below_counter g ->
  generateNode (JObj fs) g = (Normal tt, g') ->
  let elseLabel := ("else" ++ "_" ++ nat_to_string (labelCounter g))%string in
  let endLabel := ("endif" ++ "_" ++ nat_to_string (S (labelCounter g)))%string in
  let start := List.length (instructions (result g)) in
  let entered :=
    {| result := result g; currentAddress := currentAddress g;
       labelCounter := S (S (labelCounter g)); tempCounter := tempCounter g |} in
  exists (test consequent alternate : list instruction) (g1 g2 g3 : generator),
    let tested := snd (emit JZ (OLabel elseLabel) "if条件为假时跳转" g1) in
    let branched :=
      snd (on_result (addLabel elseLabel)
             (snd (emit JMP (OLabel endLabel) "跳转到if语句结束" g2))) in
    generateChild generateNode "test" fs entered = (Normal tt, g1)
    /\ instructions (result g1) = instructions (result entered) ++ test
    /\ generateChild generateNode "consequent" fs tested = (Normal tt, g2)
    /\ instructions (result g2) = instructions (result tested) ++ consequent
    /\ generateChild generateNode "alternate" fs branched = (Normal tt, g3)
    /\ instructions (result g3) = instructions (result branched) ++ alternate
    /\ instructions (result g')
       = instructions (result g) ++ test
         ++ [ {| address := start + List.length test; opcode_of := JZ;
                 operand_of := OLabel elseLabel; comment := "if条件为假时跳转" |} ]
         ++ consequent
         ++ [ {| address := start + List.length test + 1 + List.length consequent;
                 opcode_of := JMP; operand_of := OLabel endLabel;
                 comment := "跳转到if语句结束" |} ]
         ++ alternate
    /\ assoc elseLabel (labelTable (result g'))
       = Some (start + List.length test + 1 + List.length consequent + 1)
    /\ assoc endLabel (labelTable (result g'))
       = Some (start + List.length test + 1 + List.length consequent + 1
               + List.length alternate).
Proof.
  intros Ht Hb H. cbv zeta.
  cbn [generateNode truthy negb] in H. unfold generateNode_switch in H.
  rewrite Ht in H. cbn [is_str] in H.
  destruct (generateIfStatement_layout generateNode fs g g'
              (fun name => generateChild_numbers name fs) Hb H)
    as (test & consequent & alternate & Hi & Hl & He & _ & _
        & g1 & g2 & g3 & E1 & I1 & E2 & I2 & E3 & I3).
  exists test, consequent, alternate, g1, g2, g3.
  split; [exact E1|]. split; [exact I1|]. split; [exact E2|]. split; [exact I2|].
  split; [exact E3|]. split; [exact I3|].
  split; [exact Hi|]. split; [exact Hl|].
  rewrite He, Hi. repeat (rewrite ?length_app; cbn [List.length]). f_equal. lia.
Qed.

Lemma generateNode_IfStatement_layout_witness :
  exists test consequent alternate : list instruction,
    map opcode_of (instructions (result (snd (generateNode print_if_true new_generator))))
    = map opcode_of test ++ [JZ] ++ map opcode_of consequent ++ [JMP]
      ++ map opcode_of alternate
    /\ assoc "else_0" (labelTable (result (snd (generateNode print_if_true new_generator))))
       = Some (List.length test + 1 + List.length consequent + 1)
    /\ assoc "endif_1" (labelTable (result (snd (generateNode print_if_true new_generator))))
       = Some (List.length test + 1 + List.length consequent + 1 + List.length alternate).
Proof.
  destruct (generateNode_IfStatement_layout
              [("type", JStr "IfStatement");
               ("test", JObj [("type", JStr "Literal"); ("value", JBool true)]);
               ("consequent",
                JObj [("type", JStr "PrintStatement");
                      ("expression",
                       JObj [("type", JStr "Literal"); ("value", JNum "1")])])]
              new_generator (snd (generateNode print_if_true new_generator)))
    as (test & consequent & alternate & g1 & g2 & g3 & _ & _ & _ & _ & _ & _ & Hi & Hl & He).
  - reflexivity.
  - intros name n [].
  - reflexivity.
  - exists test, consequent, alternate. split; [|split; [exact Hl|exact He]].
    rewrite Hi, !map_app. reflexivity.
Defined.

(* ================================================================== *)
(** ** More on the optimizer                                           *)
(* ================================================================== *)

Module OptMore.
Import Opt OptFacts.

Section Bookkeeping.
Context {host : HostArith}.

Lemma apply_events_consistent (base : nat) (es : list event) :
  forall s, consistent base s -> consistent base (apply_events es s).
Proof.
  induction es as [|[c text n|w] es IH]; intros s H.
  - exact H.
  - cbn [apply_events fold_left]. apply IH.
    destruct H as (H1 & H2 & H3). unfold consistent.
    destruct c; cbn; rewrite ?length_app; cbn; repeat split; lia.
  - cbn [apply_events fold_left]. apply IH. exact H.
Qed.

(** Whatever the loop does, it leaves a state that is that of the events of
    some computation, up to [currentPass]. *)
Lemma optimize_loop_invariant (P : pass_state -> Prop) (opts : options) :
  (forall es s, P s -> P (apply_events es s)) ->
  (forall s, P s -> P (snd (next_pass s))) ->
  forall fuel ast h s, P s -> P (snd (optimize_loop fuel opts ast h s)).
Proof.
  intros Hev Hnext fuel. induction fuel as [|fuel IH]; intros ast h s Hs.
  - exact Hs.
  - rewrite optimize_loop_step.
    destruct (h && Nat.ltb (currentPass (this s)) (maxOptimizationPasses opts));
      [|exact Hs].
    destruct (performOptimizationPass_spec opts ast) as (out & es & Hrun & _).
    rewrite Hrun. destruct out as [ast1|e].
    + apply IH. apply Hev. now apply Hnext.
    + apply Hev. now apply Hnext.
Qed.

(** X14.  In the result of every run of [optimize],
    [totalOptimizations] is the sum of the four counters of the passes and
    the length of the log [optimizations], and the [optimizationCount] of
    the optimizer has grown by that number. *)
Theorem optimize_bookkeeping :
  forall (opts : options) (o : Optimizer) (ast : value),
    let r := fst (optimize opts o ast) in
    let st := statistics r in
    totalOptimizations st
    = constantFoldings st + algebraicSimplifications st
      + commonSubexpressionEliminations st + deadCodeEliminations st
    /\ totalOptimizations st = List.length (optimizations r)
    /\ optimizationCount (snd (optimize opts o ast))
       = optimizationCount o + totalOptimizations st.
Proof.
  intros opts o ast.
  pose proof (optimize_loop_invariant (consistent (optimizationCount o)) opts
                (apply_events_consistent (optimizationCount o))) as Hloop.
  specialize (Hloop (fun s H => H) (maxOptimizationPasses opts) (Some ast) true
                (entry_state o)).
  rewrite optimize_eq, optimize_body_eq.
  destruct (optimize_loop _ opts (Some ast) true (entry_state o)) as [[[a h]|e] s'];
    cbn [fst snd] in *; apply Hloop; repeat split; cbn; lia.
Qed.

Lemma apply_events_untouched (es : list event) :
  forall s, untouched s -> untouched (apply_events es s).
Proof.
  intros s (H1 & H2 & H3).
  destruct (apply_events_frame es s) as (F1 & F2 & F3).
  unfold untouched. now rewrite F1, F2, F3.
Qed.

(** X15.  A run of [optimize] either succeeds with no error recorded, or
    fails with [optimizedAST] left [null] and exactly one error, whose
    message is ['Optimization error: '] followed by the message of the
    exception, at line 0 and column 0. *)
Theorem optimize_outcome :
  forall (opts : options) (o : Optimizer) (ast : value),
    let r := fst (optimize opts o ast) in
    (success r = true /\ errors r = [])
    \/ (success r = false
        /\ optimizedAST r = Some JNull
        /\ exists e : exn,
             errors r = [ {| message := "Optimization error: " ++ exn_message e;
                             line := 0; column := 0 |} ]).
Proof.
  intros opts o ast.
  pose proof (optimize_loop_invariant untouched opts apply_events_untouched) as Hloop.
  specialize (Hloop (fun s H => H) (maxOptimizationPasses opts) (Some ast) true
                (entry_state o)).
  rewrite optimize_eq, optimize_body_eq.
  destruct (optimize_loop _ opts (Some ast) true (entry_state o)) as [[[a h]|e] s'];
    cbn [fst snd] in *;
    destruct Hloop as (H1 & H2 & H3); try (repeat split; reflexivity).
  - left. split; [reflexivity|exact H3].
  - right. cbn. split; [exact H1|]. split; [exact H2|].
    exists e. now rewrite H3.
Qed.

(** The number of rounds, whatever the bound. *)
Lemma optimize_loop_rounds (opts : options) (fuel : nat) :
  forall (ast : option value) (h : bool) (s : pass_state),
    let s' := snd (optimize_loop fuel opts ast h s) in
    currentPass (this s) <= currentPass (this s')
    /\ (h = true -> 0 < fuel -> currentPass (this s) < maxOptimizationPasses opts ->
        currentPass (this s) < currentPass (this s')).
Proof.
  induction fuel as [|fuel IH]; intros ast h s; cbv zeta.
  - cbn. split; [lia|intros _ H; lia].
  - rewrite optimize_loop_step.
    destruct h; cbn [andb];
      [destruct (Nat.ltb (currentPass (this s)) (maxOptimizationPasses opts)) eqn:Elt|].
    + destruct (performOptimizationPass_spec opts ast) as (out & es & Hrun & _).
      rewrite Hrun.
      destruct (apply_events_this es (snd (next_pass s))) as [Hp _].
      assert (Hn : currentPass (this (snd (next_pass s))) = S (currentPass (this s)))
        by reflexivity.
      rewrite Hn in Hp.
      destruct out as [ast1|e].
      * destruct (IH ast1 (Nat.ltb (optimizationCount (this s))
                                   (optimizationCount
                                      (this (apply_events es (snd (next_pass s))))))
                    (apply_events es (snd (next_pass s)))) as [Hle _].
        rewrite Hp in Hle. split; [lia|intros; lia].
      * cbn [snd]. rewrite Hp. split; [lia|intros; lia].
    + apply Nat.ltb_ge in Elt. cbn [snd]. split; [lia|intros; lia].
    + cbn [snd]. split; [lia|discriminate].
Qed.

(** X16.  [optimize] runs at most [maxOptimizationPasses] rounds, and at
    least one when that bound is positive.  With the bound 0 it runs none:
    the result is the input tree, with success and empty statistics. *)
Theorem optimize_rounds_within_bound :
  forall (opts : options) (o : Optimizer) (ast : value),
    let rounds := currentPass (snd (optimize opts o ast)) in
    rounds <= maxOptimizationPasses opts
    /\ (0 < maxOptimizationPasses opts -> 1 <= rounds)
    /\ (maxOptimizationPasses opts = 0 ->
        optimize opts o ast
        = (set_outcome (Some ast) new_result,
           {| optimizationCount := optimizationCount o; currentPass := 0 |})).
Proof.
  intros opts o ast rounds. unfold rounds. split; [|split].
  - rewrite optimize_eq, optimize_body_eq.
    pose proof (optimize_loop_bound opts (maxOptimizationPasses opts) (Some ast) true
                  (entry_state o)) as Hb.
    destruct (optimize_loop _ opts (Some ast) true (entry_state o)) as [[[a h]|e] s'];
      cbn [snd] in *; apply Hb; cbn; lia.
  - intros Hpos. rewrite optimize_eq, optimize_body_eq.
    destruct (optimize_loop_rounds opts (maxOptimizationPasses opts) (Some ast) true
                (entry_state o)) as [_ Hlt].
    specialize (Hlt eq_refl Hpos Hpos).
    destruct (optimize_loop _ opts (Some ast) true (entry_state o)) as [[[a h]|e] s'];
      cbn [snd] in *; cbn in Hlt; lia.
  - intros Hz. rewrite optimize_eq, optimize_body_eq, Hz. reflexivity.
Qed.
End Bookkeeping.

Section Constants.
Context {host : HostArith}.

Lemma constantFolding_BinaryExpression (operator : string) (l r : value)
  (l' r' : option value) (s s1 s2 : pass_state) :
  constantFolding l s = (Normal l', s1) ->
  constantFolding r s1 = (Normal r', s2) ->
  constantFolding (BinaryExpression operator l r) s
  = fold_node ([("type", JStr "BinaryExpression"); ("operator", JStr operator)]
               ++ optional "left" l' ++ optional "right" r') s2.
Proof.
  intros Hl Hr. unfold BinaryExpression. cbn [constantFolding deepCloneNode].
  unfold bind at 1. cbn [map_fields]. unfold bind at 1. cbn [constantFolding deepCloneNode ret].
  unfold bind at 1. unfold bind at 1. cbn [constantFolding deepCloneNode ret].
  unfold bind at 1. unfold bind at 1. rewrite Hl.
  unfold bind at 1. unfold bind at 1. rewrite Hr.
  cbn [bind ret]. destruct l', r'; reflexivity.
Qed.

(** X17.  [constantFolding] folds a nested expression of numeric literals
    in one call, bottom up: when every operator is one of [+ - * / %] and
    no divisor evaluates to zero, the result is the one literal whose text
    the host prints for the value, and one optimization is recorded for
    each operator and nothing else. *)
Theorem constantFolding_of_constant_expression :
  forall (e : constant_expression) (text : string),
    folded_text e = Some text ->
    exists es : list event,
      writes (constantFolding (tree_of e)) (Normal (Some (NumericLiteral text))) es
      /\ recorded es = operators e
      /\ List.length es = operators e.
Proof.
  induction e as [t|operator l IHl r IHr]; intros text H.
  - injection H as <-. exists []. split; [intros s; reflexivity|split; reflexivity].
  - cbn [folded_text] in H.
    destruct (folded_text l) as [a|]; [|discriminate H].
    destruct (folded_text r) as [b|]; [|discriminate H].
    destruct (native operator) as [f|] eqn:Hf; [|discriminate H].
    destruct (divides operator && is_zero (parseFloat b)) eqn:Hd; [discriminate H|].
    injection H as <-.
    destruct (IHl a eq_refl) as (es1 & W1 & R1 & L1).
    destruct (IHr b eq_refl) as (es2 & W2 & R2 & L2).
    set (x := parseFloat a). set (y := parseFloat b).
    set (n := BinaryExpression operator (NumericLiteral a) (NumericLiteral b)).
    exists (es1 ++ es2 ++
            [Recorded constantFoldings_
               ("Folded constant expression: " ++ num_toString x ++ " "
                ++ operator ++ " " ++ num_toString y ++ " = "
                ++ num_toString (f x y)) n]).
    split; [|split].
    + intros s. cbn [tree_of].
      rewrite (constantFolding_BinaryExpression operator _ _ _ _ s _ _ (W1 s) (W2 _)).
      rewrite !apply_events_app. cbn [optional List.app].
      set (s2 := apply_events es2 (apply_events es1 s)).
      unfold fold_node. cbn [assoc String.eqb Ascii.eqb Bool.eqb is_str nullish prop_of prop
                             NumericLiteral].
      unfold NumericLiteral. cbn [assoc String.eqb Ascii.eqb Bool.eqb is_str nullish
                                  prop_of prop].
      unfold number_of. cbn [prop_of prop assoc String.eqb Ascii.eqb Bool.eqb js_String
                             js_String_value].
      fold x y. unfold native in Hf. unfold divides in Hd.
      destruct (String.eqb operator "+"); [injection Hf as <-; reflexivity|].
      destruct (String.eqb operator "-"); [injection Hf as <-; reflexivity|].
      destruct (String.eqb operator "*"); [injection Hf as <-; reflexivity|].
      destruct (String.eqb operator "/").
      { cbn [orb andb] in Hd. fold y in Hd. rewrite Hd. injection Hf as <-. reflexivity. }
      destruct (String.eqb operator "%"); [|discriminate Hf].
      cbn [orb andb] in Hd. fold y in Hd. rewrite Hd. injection Hf as <-. reflexivity.
    + rewrite !recorded_app. cbn. lia.
    + rewrite !length_app. cbn. lia.
Qed.
End Constants.

Lemma constantFolding_of_constant_expression_witness :
  exists es : list event,
    writes (@constantFolding integer_host
              (tree_of (CBinary "+" (CBinary "*" (CLiteral "2") (CLiteral "3"))
                          (CLiteral "4"))))
      (Normal (Some (NumericLiteral "10"))) es
    /\ recorded es = 2
    /\ List.length es = 2.
Proof.
  exact (@constantFolding_of_constant_expression integer_host
           (CBinary "+" (CBinary "*" (CLiteral "2") (CLiteral "3")) (CLiteral "4"))
           "10" eq_refl).
Defined.

Section Identities.
Context {host : HostArith}.

Lemma algebraicSimplification_BinaryExpression (operator : string) (l r : value)
  (l' r' : option value) (s s1 s2 : pass_state) :
  algebraicSimplification l s = (Normal l', s1) ->
  algebraicSimplification r s1 = (Normal r', s2) ->
  algebraicSimplification (BinaryExpression operator l r) s
  = simplify_node ([("type", JStr "BinaryExpression"); ("operator", JStr operator)]
                   ++ optional "left" l' ++ optional "right" r') s2.
Proof.
  intros Hl Hr. unfold BinaryExpression. cbn [algebraicSimplification deepCloneNode].
  unfold bind at 1. cbn [map_fields]. unfold bind at 1.
  cbn [algebraicSimplification deepCloneNode ret].
  unfold bind at 1. unfold bind at 1. cbn [algebraicSimplification deepCloneNode ret].
  unfold bind at 1. unfold bind at 1. rewrite Hl.
  unfold bind at 1. unfold bind at 1. rewrite Hr.
  cbn [bind ret]. destruct l', r'; reflexivity.
Qed.

Lemma algebraicSimplification_NumericLiteral (z : string) (s : pass_state) :
  algebraicSimplification (NumericLiteral z) s = (Normal (Some (NumericLiteral z)), s).
Proof. reflexivity. Qed.

Lemma literal_with_NumericLiteral (test : num -> bool) (z : string) (s : pass_state) :
  literal_with test (Some (NumericLiteral z)) s = (Normal (test (parseFloat z)), s).
Proof. reflexivity. Qed.

Lemma literal_with_other (test : num -> bool) (x : value) (s : pass_state) :
  x <> JNull -> is_str "NumericLiteral" (prop "type" x) = false ->
  literal_with test (Some x) s = (Normal false, s).
Proof.
  intros Hx Ht. unfold literal_with.
  assert (Hn : nullish (Some x) = false) by now apply nullish_not_null.
  rewrite Hn. cbn [prop_of]. now rewrite Ht.
Qed.

(** X18.  The identities of [algebraicSimplification], for an operand [x]
    that the pass rewrites to [x'] writing the events [es]: [x + 0],
    [x - 0], [x * 1] and [x / 1] become [x'], for every [x]; [0 + x] and
    [1 * x] become [x'], and [x * 0] and [0 * x] the literal ['0'], when
    [x'] is a node that is not a numeric literal.  In each case the one
    event that follows [es] is the record of the rule. *)
Theorem algebraicSimplification_identities :
  forall (x x' : value) (es : list event) (z : string),
    writes (algebraicSimplification x) (Normal (Some x')) es ->
    let literal := NumericLiteral z in
    let n := parseFloat z in
    (forall operator, right_identity operator n = true ->
       writes (algebraicSimplification (BinaryExpression operator x literal))
         (Normal (Some x'))
         (es ++ [Recorded algebraicSimplifications_
                   ("Simplified x " ++ operator ++ " " ++ neutral_text operator ++ " to x")
                   (BinaryExpression operator x' literal)]))
    /\ (x' <> JNull -> is_str "NumericLiteral" (prop "type" x') = false ->
        (forall operator, left_identity operator n = true ->
           writes (algebraicSimplification (BinaryExpression operator literal x))
             (Normal (Some x'))
             (es ++ [Recorded algebraicSimplifications_
                       ("Simplified " ++ neutral_text operator ++ " " ++ operator
                        ++ " x to x")
                       (BinaryExpression operator literal x')]))
        /\ (is_zero n = true -> is_one n = false ->
            writes (algebraicSimplification (BinaryExpression "*" x literal))
              (Normal (Some (NumericLiteral "0")))
              (es ++ [Recorded algebraicSimplifications_ "Simplified x * 0 to 0"
                        (BinaryExpression "*" x' literal)])
            /\ writes (algebraicSimplification (BinaryExpression "*" literal x))
                 (Normal (Some (NumericLiteral "0")))
                 (es ++ [Recorded algebraicSimplifications_ "Simplified x * 0 to 0"
                           (BinaryExpression "*" literal x')]))).
Proof.
  intros x x' es z Hx literal n. split; [|intros Hnn Hother; split; [|intros Hz Ho; split]].
  - intros operator Hid s.
    rewrite (algebraicSimplification_BinaryExpression operator x literal
               (Some x') (Some literal) s (apply_events es s) (apply_events es s));
      [|apply Hx|apply algebraicSimplification_NumericLiteral].
    rewrite apply_events_app. set (s1 := apply_events es s).
    cbn [optional List.app]. unfold simplify_node.
    cbn [assoc String.eqb Ascii.eqb Bool.eqb is_str].
    unfold right_identity in Hid. unfold neutral_text. fold n in Hid.
    destruct (String.eqb operator "+") eqn:E1.
    { apply String.eqb_eq in E1. subst operator. cbn in Hid.
      rewrite orb_false_r in Hid.
      unfold bind at 1. unfold literal. rewrite literal_with_NumericLiteral. fold n.
      rewrite Hid. reflexivity. }
    destruct (String.eqb operator "-") eqn:E2.
    { apply String.eqb_eq in E2. subst operator. cbn in Hid.
      rewrite orb_false_r in Hid.
      unfold bind at 1. unfold literal. rewrite literal_with_NumericLiteral. fold n.
      rewrite Hid. reflexivity. }
    destruct (String.eqb operator "*") eqn:E3.
    { apply String.eqb_eq in E3. subst operator. cbn in Hid.
      unfold bind at 1. unfold literal. rewrite literal_with_NumericLiteral. fold n.
      rewrite Hid. reflexivity. }
    destruct (String.eqb operator "/") eqn:E4; [|discriminate Hid].
    apply String.eqb_eq in E4. subst operator. cbn in Hid.
    unfold bind at 1. unfold literal. rewrite literal_with_NumericLiteral. fold n.
    rewrite Hid. reflexivity.
  - intros operator Hid s.
    rewrite (algebraicSimplification_BinaryExpression operator literal x
               (Some literal) (Some x') s s (apply_events es s));
      [|apply algebraicSimplification_NumericLiteral|apply Hx].
    rewrite apply_events_app. set (s1 := apply_events es s).
    cbn [optional List.app]. unfold simplify_node.
    cbn [assoc String.eqb Ascii.eqb Bool.eqb is_str].
    unfold left_identity in Hid. unfold neutral_text. fold n in Hid.
    destruct (String.eqb operator "+") eqn:E1.
    { apply String.eqb_eq in E1. subst operator. cbn in Hid.
      rewrite orb_false_r in Hid.
      unfold bind at 1. rewrite (literal_with_other _ x' s1 Hnn Hother).
      unfold bind at 1. unfold literal. rewrite literal_with_NumericLiteral. fold n.
      rewrite Hid. reflexivity. }
    destruct (String.eqb operator "-") eqn:E2.
    { apply String.eqb_eq in E2. subst operator. discriminate Hid. }
    destruct (String.eqb operator "*") eqn:E3; [|discriminate Hid].
    apply String.eqb_eq in E3. subst operator. cbn in Hid.
    unfold bind at 1. rewrite (literal_with_other _ x' s1 Hnn Hother).
    unfold bind at 1. unfold literal. rewrite literal_with_NumericLiteral. fold n.
    rewrite Hid. reflexivity.
  - intros s.
    rewrite (algebraicSimplification_BinaryExpression "*" x literal
               (Some x') (Some literal) s (apply_events es s) (apply_events es s));
      [|apply Hx|apply algebraicSimplification_NumericLiteral].
    rewrite apply_events_app. set (s1 := apply_events es s).
    cbn [optional List.app]. unfold simplify_node.
    cbn [assoc String.eqb Ascii.eqb Bool.eqb is_str].
    unfold bind at 1. unfold literal. rewrite literal_with_NumericLiteral. fold n.
    rewrite Ho.
    unfold bind at 1. rewrite (literal_with_other _ x' s1 Hnn Hother).
    unfold bind at 1. rewrite literal_with_NumericLiteral. fold n. rewrite Hz.
    reflexivity.
  - intros s.
    rewrite (algebraicSimplification_BinaryExpression "*" literal x
               (Some literal) (Some x') s s (apply_events es s));
      [|apply algebraicSimplification_NumericLiteral|apply Hx].
    rewrite apply_events_app. set (s1 := apply_events es s).
    cbn [optional List.app]. unfold simplify_node.
    cbn [assoc String.eqb Ascii.eqb Bool.eqb is_str].
    unfold bind at 1. rewrite (literal_with_other _ x' s1 Hnn Hother).
    unfold bind at 1. unfold literal. rewrite literal_with_NumericLiteral. fold n.
    rewrite Ho.
    unfold bind at 1. rewrite (literal_with_other _ x' s1 Hnn Hother).
    unfold bind at 1. rewrite literal_with_NumericLiteral. fold n. rewrite Hz.
    reflexivity.
Qed.
End Identities.

Lemma algebraicSimplification_identities_witness :
  writes (@algebraicSimplification integer_host
            (BinaryExpression "+" (Identifier "y") (NumericLiteral "0")))
    (Normal (Some (Identifier "y")))
    [Recorded algebraicSimplifications_ "Simplified x + 0 to x"
       (BinaryExpression "+" (Identifier "y") (NumericLiteral "0"))]
  /\ writes (@algebraicSimplification integer_host
               (BinaryExpression "*" (NumericLiteral "0") (Identifier "y")))
       (Normal (Some (NumericLiteral "0")))
       [Recorded algebraicSimplifications_ "Simplified x * 0 to 0"
          (BinaryExpression "*" (NumericLiteral "0") (Identifier "y"))].
Proof.
  destruct (@algebraicSimplification_identities integer_host
              (Identifier "y") (Identifier "y") [] "0")
    as [Hright Hleft].
  - intros s. reflexivity.
  - split.
    + apply (Hright "+"). reflexivity.
    + destruct Hleft as [_ Hzero]; [discriminate|reflexivity|].
      destruct Hzero as [_ Hzero]; [reflexivity|reflexivity|]. exact Hzero.
Defined.

Lemma repeats_app (ks1 ks2 : list string) :
  forall seen, repeats seen (ks1 ++ ks2)
               = repeats seen ks1 + repeats (seen_after seen ks1) ks2.
Proof.
  induction ks1 as [|k ks1 IH]; intros seen; [reflexivity|].
  cbn [List.app repeats seen_after].
  destruct (existsb (String.eqb k) seen); rewrite IH; reflexivity.
Qed.

Lemma seen_after_app (ks1 ks2 : list string) :
  forall seen, seen_after seen (ks1 ++ ks2) = seen_after (seen_after seen ks1) ks2.
Proof.
  induction ks1 as [|k ks1 IH]; intros seen; [reflexivity|].
  cbn [List.app seen_after]. destruct (existsb (String.eqb k) seen); apply IH.
Qed.

Lemma existsb_eqb_In (k : string) (l : list string) :
  existsb (String.eqb k) l = true <-> In k l.
Proof.
  rewrite existsb_exists. split.
  - intros (x & Hx & E). apply String.eqb_eq in E. now subst x.
  - intros H. exists k. split; [exact H|apply String.eqb_refl].
Qed.

(** The repeats are the keys beyond the distinct ones. *)
Lemma repeats_distinct (ks : list string) :
  forall seen, NoDup seen ->
    NoDup (seen_after seen ks)
    /\ (forall k, In k (seen_after seen ks) <-> In k seen \/ In k ks)
    /\ repeats seen ks + List.length (seen_after seen ks)
       = List.length seen + List.length ks.
Proof.
  induction ks as [|k ks IH]; intros seen Hnd.
  - cbn. repeat split; try assumption; try tauto. lia.
  - cbn [repeats seen_after].
    destruct (existsb (String.eqb k) seen) eqn:E.
    + apply existsb_eqb_In in E. destruct (IH seen Hnd) as (H1 & H2 & H3).
      split; [exact H1|]. split.
      * intros x. rewrite H2. cbn. intuition (subst; auto).
      * cbn. lia.
    + assert (Hk : ~ In k seen).
      { intros H. apply existsb_eqb_In in H. congruence. }
      assert (Hnd' : NoDup (seen ++ [k])).
      { apply NoDup_app; [exact Hnd|repeat constructor; intros []|].
        intros x Hx [Hxk|[]]. now subst x. }
      destruct (IH (seen ++ [k]) Hnd') as (H1 & H2 & H3).
      split; [exact H1|]. split.
      * intros x. rewrite H2, in_app_iff. cbn. tauto.
      * rewrite length_app in H3. cbn in *. lia.
Qed.

Lemma repeats_nodup (ks : list string) :
  repeats [] ks + List.length (nodup string_dec ks) = List.length ks.
Proof.
  destruct (repeats_distinct ks [] (NoDup_nil _)) as (Hnd & Hin & Hlen).
  cbn in Hlen.
  assert (E : List.length (seen_after [] ks) = List.length (nodup string_dec ks)).
  { apply Nat.le_antisymm; apply NoDup_incl_length;
      try assumption; try apply NoDup_nodup.
    - intros x Hx. apply nodup_In. apply Hin in Hx. now destruct Hx.
    - intros x Hx. apply nodup_In in Hx. apply Hin. now right. }
  lia.
Qed.

(** *** Counting the detections *)

Lemma counts_ret {A : Type} (a : A) : counts (ret a) a [].
Proof.
  intros m. exists [], m. repeat split. constructor.
Qed.

Lemma counts_bind {A B : Type} (c : M cse_state A) (k : A -> M cse_state B)
  (a : A) (b : B) (ks1 ks2 : list string) :
  counts c a ks1 -> counts (k a) b ks2 -> counts (bind c k) b (ks1 ++ ks2).
Proof.
  intros Hc Hk m. destruct (Hc m) as (es1 & m1 & F1 & L1 & K1 & E1).
  destruct (Hk m1) as (es2 & m2 & F2 & L2 & K2 & E2).
  exists (es1 ++ es2), m2. split; [now apply Forall_app|]. split; [|split].
  - rewrite length_app, repeats_app, L1, L2, K1. reflexivity.
  - rewrite seen_after_app, K2, K1. reflexivity.
  - intros o. unfold bind. rewrite E1, E2. now rewrite apply_events_app.
Qed.

Lemma assoc_existsb {A : Type} (k : string) (m : list (string * A)) :
  existsb (String.eqb k) (map fst m) = match assoc k m with Some _ => true | None => false end.
Proof.
  induction m as [|[k' c] m IH]; [reflexivity|].
  cbn [map fst existsb assoc]. rewrite (String.eqb_sym k k').
  destruct (String.eqb k' k); [reflexivity|exact IH].
Qed.

Lemma detect_node_counts (fs : list (string * value)) :
  counts (detect_node fs) (Some (JObj fs))
    (if is_str "BinaryExpression" (assoc "type" fs)
     then [js_String (getExpressionKey (JObj fs))]
     else []).
Proof.
  unfold detect_node.
  destruct (is_str "BinaryExpression" (assoc "type" fs)); [|apply counts_ret].
  intros m. cbn [expressionMap outer repeats seen_after].
  rewrite assoc_existsb.
  destruct (assoc (js_String (getExpressionKey (JObj fs))) m) eqn:E.
  - eexists [Recorded commonSubexpressionEliminations_ _ _], m. split; [|split; [|split]].
    + constructor; [|constructor]. eexists; eexists; reflexivity.
    + reflexivity.
    + reflexivity.
    + intros o. reflexivity.
  - eexists [], _. split; [constructor|]. split; [reflexivity|]. split.
    + rewrite assoc_set_keys, assoc_existsb, E. reflexivity.
    + intros o. reflexivity.
Qed.

Lemma findCommonExpressions_counts (v : value) :
  counts (findCommonExpressions v) (Some v) (binary_keys v).
Proof.
  induction v as [| b | t | s | l IH | fs IH] using value_ind;
    try apply counts_ret; cbn [findCommonExpressions binary_keys].
  - rewrite <- (app_nil_r (flat_map binary_keys l)).
    eapply counts_bind; [|apply counts_ret].
    induction l as [|c l IHl]; [apply counts_ret|].
    cbn [map_elems flat_map].
    eapply counts_bind; [exact (Forall_inv IH)|].
    rewrite <- (app_nil_r (flat_map binary_keys l)).
    eapply counts_bind; [exact (IHl (Forall_inv_tail IH))|apply counts_ret].
  - eapply counts_bind; [|apply detect_node_counts].
    clear -IH. induction fs as [|[k c] fs IHfs]; [apply counts_ret|].
    cbn [map_fields].
    eapply counts_bind; [exact (Forall_inv IH)|].
    match goal with |- counts _ _ ?ks => rewrite <- (app_nil_r ks) end.
    eapply counts_bind; [exact (IHfs (Forall_inv_tail IH))|apply counts_ret].
Qed.

Lemma commonSubexpressionElimination_repeats (v : value) (s : pass_state) :
  exists s' : pass_state,
    commonSubexpressionElimination v s = (Normal (Some v), s')
    /\ commonSubexpressionEliminations (statistics (result s'))
       = commonSubexpressionEliminations (statistics (result s))
         + repeats [] (binary_keys v).
Proof.
  destruct (findCommonExpressions_counts v []) as (es & m' & F & L & _ & E).
  exists (apply_events es s). split.
  - unfold commonSubexpressionElimination, deepCloneNode. now rewrite E.
  - destruct (apply_cse_records es F s) as (_ & _ & _ & _ & _ & _ & _ & H & _).
    rewrite H, L. reflexivity.
Qed.

(** X19.  [commonSubexpressionElimination] returns the tree it is given and
    counts one detection for each BinaryExpression whose key was met before
    in the tree: the number of detections is the number of keys of binary
    expressions minus the number of distinct ones. *)
Theorem commonSubexpressionElimination_counts_repeated_keys :
  forall (v : value) (s : pass_state),
    let keys := binary_keys v in
    exists s' : pass_state,
      commonSubexpressionElimination v s = (Normal (Some v), s')
      /\ commonSubexpressionEliminations (statistics (result s'))
         = commonSubexpressionEliminations (statistics (result s)) + repeats [] keys
      /\ repeats [] keys + List.length (nodup string_dec keys) = List.length keys.
Proof.
  intros v s keys.
  destruct (commonSubexpressionElimination_repeats v s) as (s' & E & Hc).
  exists s'. split; [exact E|]. split; [exact Hc|apply repeats_nodup].
Qed.

(** *** The key of an expression *)

Lemma getExpressionKey_BinaryExpression (operator : string) (l r : value) :
  getExpressionKey (BinaryExpression operator l r)
  = Some (JStr (js_String (getExpressionKey l) ++ operator
                ++ js_String (getExpressionKey r))).
Proof. reflexivity. Qed.

Lemma append_assoc (a b c : string) : ((a ++ b) ++ c = a ++ b ++ c)%string.
Proof. induction a as [|ch a IH]; simpl; [reflexivity|now rewrite IH]. Qed.

Lemma seen_after_In (ks : list string) :
  forall seen k, In k (seen_after seen ks) <-> In k seen \/ In k ks.
Proof.
  induction ks as [|x ks IH]; intros seen k; cbn [seen_after].
  - cbn. tauto.
  - destruct (existsb (String.eqb x) seen) eqn:E.
    + apply existsb_eqb_In in E. rewrite IH. cbn. intuition (subst; auto).
    + rewrite IH, in_app_iff. cbn. tauto.
Qed.

(** A key that comes twice is a repeat. *)
Lemma repeats_twice (k : string) (xs ys zs : list string) :
  forall seen, 1 <= repeats seen (xs ++ k :: ys ++ k :: zs).
Proof.
  intros seen. rewrite repeats_app.
  change (k :: ys ++ k :: zs) with ((k :: ys) ++ k :: zs). rewrite repeats_app.
  cbn [repeats].
  assert (Hin : In k (seen_after (seen_after seen xs) (k :: ys))).
  { apply seen_after_In. right. now left. }
  apply existsb_eqb_In in Hin. rewrite Hin. lia.
Qed.

Lemma binary_keys_BinaryExpression (operator : string) (l r : value) :
  binary_keys (BinaryExpression operator l r)
  = (binary_keys l ++ binary_keys r)
    ++ [js_String (getExpressionKey (BinaryExpression operator l r))].
Proof.
  unfold BinaryExpression. cbn [binary_keys assoc String.eqb Ascii.eqb Bool.eqb is_str List.app].
  now rewrite app_nil_r.
Qed.

(** X20.  The key of [getExpressionKey] has no brackets: [(l p m) q r] and
    [l p (m q r)] have the same key, whatever the operators and operands,
    and [commonSubexpressionElimination] counts the second as a repetition
    of the first. *)
Theorem getExpressionKey_ignores_grouping :
  forall (p q : string) (l m r : value),
    let a := BinaryExpression q (BinaryExpression p l m) r in
    let b := BinaryExpression p l (BinaryExpression q m r) in
    let program := Program [ExpressionStatement a; ExpressionStatement b] in
    getExpressionKey a = getExpressionKey b
    /\ forall s : pass_state,
         exists s' : pass_state,
           commonSubexpressionElimination program s = (Normal (Some program), s')
           /\ S (commonSubexpressionEliminations (statistics (result s)))
              <= commonSubexpressionEliminations (statistics (result s')).
Proof.
  intros p q l m r a b program.
  assert (Hkey : getExpressionKey a = getExpressionKey b).
  { unfold a, b. rewrite !getExpressionKey_BinaryExpression.
    cbn [js_String js_String_value]. do 2 f_equal. now rewrite !append_assoc. }
  split; [exact Hkey|]. intros s.
  destruct (commonSubexpressionElimination_repeats program s) as (s' & E & Hc).
  exists s'. split; [exact E|]. rewrite Hc.
  assert (Hkeys : binary_keys program
                  = (binary_keys (BinaryExpression p l m) ++ binary_keys r)
                    ++ js_String (getExpressionKey a)
                       :: (binary_keys l ++ binary_keys (BinaryExpression q m r))
                          ++ js_String (getExpressionKey a) :: []).
  { unfold program, Program, ExpressionStatement.
    cbn [binary_keys assoc String.eqb Ascii.eqb Bool.eqb is_str List.app flat_map].
    fold a b. unfold a at 1, b at 1. rewrite !binary_keys_BinaryExpression.
    fold a b. rewrite Hkey, !app_nil_r, <- !app_assoc. reflexivity. }
  rewrite Hkeys.
  pose proof (repeats_twice (js_String (getExpressionKey a))
                (binary_keys (BinaryExpression p l m) ++ binary_keys r)
                (binary_keys l ++ binary_keys (BinaryExpression q m r)) [] []) as H.
  lia.
Qed.

Lemma map_elems_inert {S : Type} (pass : value -> M S (option value))
  (l : list value) (s : S) :
  Forall (fun c => pass c s = (Normal (Some c), s)) l ->
  map_elems pass l s = (Normal l, s).
Proof.
  induction l as [|c l IH]; intros H; [reflexivity|].
  cbn [map_elems]. unfold bind at 1. rewrite (Forall_inv H).
  unfold bind at 1. rewrite (IH (Forall_inv_tail H)). reflexivity.
Qed.

Lemma no_literal_obj (fs : list (string * value)) :
  no_literal (JObj fs) = true
  <-> is_str "NumericLiteral" (assoc "type" fs) = false
      /\ Forall (fun c => no_literal c = true) (values fs).
Proof.
  cbn [no_literal]. rewrite andb_true_iff, negb_true_iff.
  assert (H : (fix all (fs0 : list (string * value)) : bool :=
                 match fs0 with
                 | [] => true
                 | (_, c) :: rest => no_literal c && all rest
                 end) fs = true <-> Forall (fun c => no_literal c = true) (values fs)).
  { unfold values. induction fs as [|[k c] fs IH]; simpl.
    - split; [constructor|reflexivity].
    - rewrite andb_true_iff, IH. split.
      + intros [H1 H2]. now constructor.
      + intros H. inversion H; subst. now split. }
  now rewrite H.
Qed.

Lemma settled_obj (fs : list (string * value)) :
  settled (JObj fs) = true
  <-> Forall (fun c => settled c = true) (values fs)
      /\ (if is_str "Program" (assoc "type" fs) && truthy (assoc "body" fs)
          then match assoc "body" fs with
               | Some (JArr stmts) =>
                   forallb (fun s => negb (nullish (Some s)) && negb (is_dead s)) stmts
               | _ => false
               end
          else true) = true.
Proof.
  cbn [settled]. rewrite andb_true_iff.
  assert (H : (fix all (fs0 : list (string * value)) : bool :=
                 match fs0 with
                 | [] => true
                 | (_, c) :: rest => settled c && all rest
                 end) fs = true <-> Forall (fun c => settled c = true) (values fs)).
  { unfold values. induction fs as [|[k c] fs IH]; simpl.
    - split; [constructor|reflexivity].
    - rewrite andb_true_iff, IH. split.
      + intros [H1 H2]. now constructor.
      + intros H. inversion H; subst. now split. }
  now rewrite H.
Qed.

(** The literal test on a child of a node without literals. *)
Lemma no_literal_type (c : value) :
  no_literal c = true -> is_str "NumericLiteral" (prop "type" c) = false.
Proof.
  destruct c; try reflexivity. intros H. now apply no_literal_obj in H.
Qed.

Lemma assoc_values_Forall (Q : value -> Prop) (fs : list (string * value)) (k : string)
  (c : value) :
  Forall Q (values fs) -> assoc k fs = Some c -> Q c.
Proof.
  intros H E. rewrite Forall_forall in H. apply H. now apply (assoc_In k).
Qed.

(** *** Dead code: what the pass removes *)

Lemma for_each_filter_statement (stmts : list value) :
  Forall (fun s => s <> JNull) stmts ->
  writes (for_each filter_statement stmts) (Normal tt)
    (map (fun s => Recorded deadCodeEliminations_
                     "Removed dead code: standalone numeric literal" s)
       (filter is_dead stmts)).
Proof.
  induction stmts as [|x stmts IH]; intros H s; [reflexivity|].
  pose proof (Forall_inv H) as Hx. apply nullish_not_null in Hx.
  cbn [for_each filter]. unfold bind. unfold filter_statement at 1. rewrite Hx.
  destruct (is_dead x).
  - cbn [record_optimization modify map]. rewrite (IH (Forall_inv_tail H)). reflexivity.
  - cbn [ret]. apply (IH (Forall_inv_tail H)).
Qed.

Lemma map_kept_inert (pass : value -> Pass (option value)) (stmts : list value)
  (s : pass_state) :
  Forall (fun x => is_dead x = false -> pass x s = (Normal (Some x), s)) stmts ->
  map_kept pass stmts s = (Normal (filter (fun x => negb (is_dead x)) stmts), s).
Proof.
  induction stmts as [|x stmts IH]; intros H; [reflexivity|].
  cbn [map_kept filter]. destruct (is_dead x) eqn:E; cbn [negb].
  - apply IH. now apply Forall_inv_tail in H.
  - unfold bind at 1. rewrite (Forall_inv H E). unfold bind at 1.
    rewrite (IH (Forall_inv_tail H)). reflexivity.
Qed.

Lemma filter_none {A : Type} (f : A -> bool) (l : list A) :
  Forall (fun x => f x = true) l -> filter f l = l.
Proof.
  induction 1 as [|x l Hx _ IH]; [reflexivity|]. cbn. now rewrite Hx, IH.
Qed.

Lemma filter_all {A : Type} (f : A -> bool) (l : list A) :
  Forall (fun x => f x = false) l -> filter f l = [].
Proof.
  induction 1 as [|x l Hx _ IH]; [reflexivity|]. cbn. now rewrite Hx.
Qed.

Lemma eliminate_in_program_body (pass : value -> Pass (option value))
  (fs : list (string * value)) (b b' : value) (s s' : pass_state) :
  assoc "body" fs = Some b ->
  eliminate_in_body pass b s = (Normal b', s') ->
  eliminate_in_program pass fs s = (Normal (assoc_set "body" b' fs), s').
Proof.
  induction fs as [|[k c] fs IH]; [discriminate|].
  cbn [assoc eliminate_in_program assoc_set].
  destruct (String.eqb k "body").
  - intros E Hb. injection E as ->. unfold bind. now rewrite Hb.
  - intros E Hb. unfold bind. now rewrite (IH E Hb).
Qed.

Lemma assoc_set_same_value {A : Type} (k : string) (x : A) (t : list (string * A)) :
  assoc k t = Some x -> assoc_set k x t = t.
Proof.
  induction t as [|[k' c] t IH]; [discriminate|]. cbn [assoc assoc_set].
  destruct (String.eqb k' k).
  - intros E. now injection E as ->.
  - intros E. now rewrite IH.
Qed.

(** A settled tree is one the pass leaves as it is. *)
Lemma deadCodeElimination_settled (v : value) :
  settled v = true -> forall s, deadCodeElimination v s = (Normal (Some v), s).
Proof.
  induction v as [v IH] using value_size_ind. intros H s.
  destruct v as [| b | t | x | l | fs]; try reflexivity.
  - cbn [deadCodeElimination deepCloneNode]. unfold bind.
    rewrite map_elems_inert; [reflexivity|].
    cbn [settled] in H. rewrite forallb_forall in H.
    apply Forall_forall. intros c Hc.
    apply IH; [now apply size_elem|now apply H].
  - apply settled_obj in H. destruct H as [Hkids Hbody].
    cbn [deadCodeElimination deepCloneNode].
    destruct (is_str "Program" (assoc "type" fs) && truthy (assoc "body" fs)).
    + destruct (assoc "body" fs) as [[| | | |stmts|]|] eqn:Eb; try discriminate Hbody.
      rewrite forallb_forall in Hbody.
      assert (Hnn : Forall (fun x => x <> JNull) stmts).
      { apply Forall_forall. intros x Hx. specialize (Hbody x Hx).
        apply andb_true_iff in Hbody. now apply nullish_not_null, negb_true_iff. }
      assert (Hlive : Forall (fun x => is_dead x = false) stmts).
      { apply Forall_forall. intros x Hx. specialize (Hbody x Hx).
        apply andb_true_iff in Hbody. now apply negb_true_iff. }
      assert (Hstmts : Forall (fun x => is_dead x = false ->
                                 deadCodeElimination x s = (Normal (Some x), s)) stmts).
      { pose proof (assoc_values_Forall _ fs "body" (JArr stmts) Hkids Eb) as Hs.
        cbn [settled] in Hs. rewrite forallb_forall in Hs.
        apply Forall_forall. intros x Hx _. apply IH; [|now apply Hs].
        apply Nat.lt_trans with (size (JArr stmts)); [now apply size_elem|].
        apply size_field. now apply (assoc_In "body"). }
      unfold bind.
      rewrite (eliminate_in_program_body deadCodeElimination fs (JArr stmts) (JArr stmts) s s Eb).
      * now rewrite assoc_set_same_value.
      * cbn [eliminate_in_body]. unfold bind.
        rewrite (for_each_filter_statement stmts Hnn s), (filter_all _ _ Hlive).
        cbn [map apply_events fold_left].
        rewrite (map_kept_inert _ _ _ Hstmts), filter_none; [reflexivity|].
        eapply Forall_impl; [|exact Hlive]. intros x Hx. cbn in Hx. now rewrite Hx.
    + unfold bind. rewrite map_fields_inert; [reflexivity|].
      apply Forall_forall. intros c Hc.
      apply IH; [now apply size_field|].
      rewrite Forall_forall in Hkids. now apply Hkids.
Qed.

(** X21.  [deadCodeElimination] on a Program whose statements are not
    [null] and have no dead statement in a Program nested in them: the
    [body] is the list of the statements that are not an
    ExpressionStatement of a numeric literal, in their order, the other
    fields are kept, and one removal is recorded for each statement
    dropped, in their order. *)
Theorem deadCodeElimination_of_program :
  forall (fs : list (string * value)) (stmts : list value),
    assoc "type" fs = Some (JStr "Program") ->
    assoc "body" fs = Some (JArr stmts) ->
    Forall (fun x => x <> JNull /\ settled x = true) stmts ->
    writes (deadCodeElimination (JObj fs))
      (Normal (Some (JObj (assoc_set "body"
                             (JArr (filter (fun x => negb (is_dead x)) stmts)) fs))))
      (map (fun x => Recorded deadCodeEliminations_
                       "Removed dead code: standalone numeric literal" x)
         (filter is_dead stmts)).
Proof.
  intros fs stmts Ht Hb Hall s.
  assert (Hnn : Forall (fun x => x <> JNull) stmts).
  { eapply Forall_impl; [|exact Hall]. now intros x [H _]. }
  cbn [deadCodeElimination deepCloneNode]. rewrite Ht, Hb. cbn [is_str truthy andb].
  rewrite String.eqb_refl. cbn [andb]. unfold bind.
  set (es := map _ (filter is_dead stmts)).
  rewrite (eliminate_in_program_body deadCodeElimination fs (JArr stmts)
             (JArr (filter (fun x => negb (is_dead x)) stmts)) s (apply_events es s) Hb);
    [reflexivity|].
  cbn [eliminate_in_body]. unfold bind.
  rewrite (for_each_filter_statement stmts Hnn s). fold es.
  rewrite map_kept_inert; [reflexivity|].
  eapply Forall_impl; [|exact Hall]. intros x [_ Hx] _.
  now apply deadCodeElimination_settled.
Qed.

Lemma deadCodeElimination_of_program_witness :
  writes (deadCodeElimination
            (Program [ ExpressionStatement (NumericLiteral "42");
                       ExpressionStatement (Identifier "x") ]))
    (Normal (Some (Program [ ExpressionStatement (Identifier "x") ])))
    [ Recorded deadCodeEliminations_ "Removed dead code: standalone numeric literal"
        (ExpressionStatement (NumericLiteral "42")) ].
Proof.
  refine (deadCodeElimination_of_program
            [("type", JStr "Program");
             ("body", JArr [ ExpressionStatement (NumericLiteral "42");
                             ExpressionStatement (Identifier "x") ])]
            [ ExpressionStatement (NumericLiteral "42");
              ExpressionStatement (Identifier "x") ] eq_refl eq_refl _).
  repeat constructor; discriminate.
Defined.

(** *** Trees without numeric literals *)

Section NoLiteral.
Context {host : HostArith}.

Lemma well_formed_operands_not_nullish (fs : list (string * value)) :
  well_formed_node fs = true ->
  is_str "BinaryExpression" (assoc "type" fs) = true ->
  nullish (assoc "left" fs) = false /\ nullish (assoc "right" fs) = false.
Proof.
  unfold well_formed_node. destruct (assoc "type" fs) as [[| | |kind| |]|]; try discriminate.
  cbn [is_str]. intros H E. rewrite E in H.
  apply andb_true_iff in H. destruct H as [H _].
  apply andb_true_iff in H. destruct H as [H1 H2].
  now apply negb_true_iff in H1, H2.
Qed.

Lemma no_literal_operand (fs : list (string * value)) (k : string) :
  Forall (fun c => no_literal c = true) (values fs) ->
  is_str "NumericLiteral" (prop_of "type" (assoc k fs)) = false.
Proof.
  intros H. destruct (assoc k fs) as [c|] eqn:E; [|reflexivity].
  cbn [prop_of]. apply no_literal_type.
  now apply (assoc_values_Forall _ fs k c H E).
Qed.

Lemma fold_node_no_literal (fs : list (string * value)) (s : pass_state) :
  well_formed_node fs = true ->
  Forall (fun c => no_literal c = true) (values fs) ->
  fold_node fs s = (Normal (Some (JObj fs)), s).
Proof.
  intros Hw Hn. unfold fold_node.
  destruct (is_str "BinaryExpression" (assoc "type" fs)) eqn:E; [|reflexivity].
  destruct (well_formed_operands_not_nullish fs Hw E) as [Hl _].
  now rewrite Hl, (no_literal_operand fs "left" Hn).
Qed.

Lemma literal_with_no_literal (test : num -> bool) (fs : list (string * value))
  (k : string) (s : pass_state) :
  nullish (assoc k fs) = false ->
  Forall (fun c => no_literal c = true) (values fs) ->
  literal_with test (assoc k fs) s = (Normal false, s).
Proof.
  intros Hk Hn. unfold literal_with. now rewrite Hk, (no_literal_operand fs k Hn).
Qed.

Lemma simplify_node_no_literal (fs : list (string * value)) (s : pass_state) :
  well_formed_node fs = true ->
  Forall (fun c => no_literal c = true) (values fs) ->
  simplify_node fs s = (Normal (Some (JObj fs)), s).
Proof.
  intros Hw Hn. unfold simplify_node.
  destruct (is_str "BinaryExpression" (assoc "type" fs)) eqn:E; [|reflexivity].
  destruct (well_formed_operands_not_nullish fs Hw E) as [Hl Hr].
  repeat match goal with
         | |- (if ?c then _ else _) s = _ => destruct c
         end; unfold bind;
    repeat (first [ rewrite (literal_with_no_literal _ fs "right" s Hr Hn)
                  | rewrite (literal_with_no_literal _ fs "left" s Hl Hn) ];
            cbn [ret]);
    reflexivity.
Qed.

Lemma constantFolding_no_literal (v : value) :
  well_formed v = true -> no_literal v = true ->
  forall s, constantFolding v s = (Normal (Some v), s).
Proof.
  induction v as [| b | t | x | l IH | fs IH] using value_ind; intros Hw Hn s;
    try reflexivity.
  - cbn [constantFolding deepCloneNode]. unfold bind.
    rewrite map_elems_inert; [reflexivity|].
    apply well_formed_arr in Hw. cbn [no_literal] in Hn. rewrite forallb_forall in Hn.
    unfold all_well_formed in Hw. rewrite Forall_forall in IH, Hw |- *.
    intros c Hc. apply IH; auto.
  - apply well_formed_obj in Hw. destruct Hw as [Hkids Hnode].
    apply no_literal_obj in Hn. destruct Hn as [_ Hn].
    cbn [constantFolding deepCloneNode]. unfold bind.
    rewrite map_fields_inert; [now apply fold_node_no_literal|].
    unfold all_well_formed in Hkids. rewrite Forall_forall in IH, Hkids, Hn |- *.
    intros c Hc. pose proof Hc as Hc'. apply in_map_iff in Hc'.
    destruct Hc' as ([k c'] & <- & Hin). apply (IH (k, c') Hin); auto.
Qed.

Lemma algebraicSimplification_no_literal (v : value) :
  well_formed v = true -> no_literal v = true ->
  forall s, algebraicSimplification v s = (Normal (Some v), s).
Proof.
  induction v as [| b | t | x | l IH | fs IH] using value_ind; intros Hw Hn s;
    try reflexivity.
  - cbn [algebraicSimplification deepCloneNode]. unfold bind.
    rewrite map_elems_inert; [reflexivity|].
    apply well_formed_arr in Hw. cbn [no_literal] in Hn. rewrite forallb_forall in Hn.
    unfold all_well_formed in Hw. rewrite Forall_forall in IH, Hw |- *.
    intros c Hc. apply IH; auto.
  - apply well_formed_obj in Hw. destruct Hw as [Hkids Hnode].
    apply no_literal_obj in Hn. destruct Hn as [_ Hn].
    cbn [algebraicSimplification deepCloneNode]. unfold bind.
    rewrite map_fields_inert; [now apply simplify_node_no_literal|].
    unfold all_well_formed in Hkids. rewrite Forall_forall in IH, Hkids, Hn |- *.
    intros c Hc. pose proof Hc as Hc'. apply in_map_iff in Hc'.
    destruct Hc' as ([k c'] & <- & Hin). apply (IH (k, c') Hin); auto.
Qed.
End NoLiteral.

Lemma is_dead_no_literal (x : value) : no_literal x = true -> is_dead x = false.
Proof.
  intros H. unfold is_dead.
  destruct x as [| | | | |fs]; try reflexivity.
  apply no_literal_obj in H. destruct H as [_ H]. cbn [prop].
  destruct (assoc "expression" fs) as [c|] eqn:E.
  - cbn [prop_of].
    rewrite (no_literal_type c (assoc_values_Forall _ fs "expression" c H E)).
    now rewrite andb_false_r.
  - cbn [truthy]. now rewrite andb_false_r.
Qed.

Lemma settled_no_literal (v : value) :
  well_formed v = true -> no_literal v = true -> settled v = true.
Proof.
  induction v as [| b | t | x | l IH | fs IH] using value_ind; intros Hw Hn;
    try reflexivity.
  - cbn [settled]. apply forallb_forall. intros c Hc.
    apply well_formed_arr in Hw. cbn [no_literal] in Hn. rewrite forallb_forall in Hn.
    unfold all_well_formed in Hw. rewrite Forall_forall in IH, Hw. apply IH; auto.
  - apply settled_obj. pose proof Hw as Hw0.
    apply well_formed_obj in Hw. destruct Hw as [Hkids Hnode].
    apply no_literal_obj in Hn. destruct Hn as [_ Hn]. split.
    + unfold all_well_formed in Hkids. rewrite Forall_forall in IH, Hkids, Hn |- *.
      intros c Hc. pose proof Hc as Hc'. apply in_map_iff in Hc'.
      destruct Hc' as ([k c'] & <- & Hin). apply (IH (k, c') Hin); auto.
    + unfold well_formed_node in Hnode.
      destruct (assoc "type" fs) as [[| | |kind| |]|]; try discriminate; try reflexivity.
      cbn [is_str]. apply andb_true_iff in Hnode. destruct Hnode as [_ Hnode].
      destruct (String.eqb kind "Program" && truthy (assoc "body" fs)); [|reflexivity].
      destruct (assoc "body" fs) as [[| | | |stmts|]|] eqn:Eb; try discriminate Hnode.
      rewrite forallb_forall in Hnode |- *. intros x Hx. rewrite (Hnode x Hx).
      cbn [andb]. apply negb_true_iff, is_dead_no_literal.
      pose proof (assoc_values_Forall _ fs "body" (JArr stmts) Hn Eb) as Hb.
      cbn [no_literal] in Hb. rewrite forallb_forall in Hb. now apply Hb.
Qed.

Section NoLiteralDriver.
Context {host : HostArith}.

Lemma performOptimizationPass_no_literal (opts : options) (v : value) :
  well_formed v = true -> no_literal v = true ->
  exists es,
    Forall is_cse_record es
    /\ (enableCommonSubexpressionElimination opts = false -> es = [])
    /\ writes (performOptimizationPass opts (Some v)) (Normal (Some v)) es.
Proof.
  intros Hw Hn.
  destruct (commonSubexpressionElimination_events v) as (es & F & E).
  pose proof (constantFolding_no_literal v Hw Hn) as Hcf.
  pose proof (algebraicSimplification_no_literal v Hw Hn) as Has.
  pose proof (deadCodeElimination_settled v (settled_no_literal v Hw Hn)) as Hdce.
  exists (if enableCommonSubexpressionElimination opts then es else []).
  split; [destruct (enableCommonSubexpressionElimination opts); [exact F|constructor]|].
  split; [intros ->; reflexivity|].
  intros s. unfold performOptimizationPass.
  destruct (enableConstantFolding opts), (enableAlgebraicSimplification opts),
    (enableCommonSubexpressionElimination opts), (enableDeadCodeElimination opts);
    unfold writes in E; unfold bind; cbn [on_tree ret];
    repeat (first [rewrite Hcf | rewrite Has | rewrite E | rewrite Hdce];
            cbn [on_tree ret]);
    reflexivity.
Qed.

Lemma apply_events_only_detections (es : list event) (s : pass_state) :
  Forall is_cse_record es -> only_detections s -> only_detections (apply_events es s).
Proof.
  intros F (H1 & H2 & H3 & H4 & H5).
  destruct (apply_cse_records es F s) as (_ & _ & E5 & E4 & E1 & E2 & E3 & _).
  unfold only_detections. now rewrite E1, E2, E3, E4, E5.
Qed.

Lemma optimize_loop_no_literal (opts : options) (v : value) :
  well_formed v = true -> no_literal v = true ->
  forall fuel h s,
    only_detections s ->
    exists h' s',
      optimize_loop fuel opts (Some v) h s = (Normal (Some v, h'), s')
      /\ only_detections s'.
Proof.
  intros Hw Hn fuel. induction fuel as [|fuel IH]; intros h s Hs.
  - exists h, s. now split.
  - rewrite optimize_loop_step.
    destruct (h && Nat.ltb (currentPass (this s)) (maxOptimizationPasses opts)).
    + destruct (performOptimizationPass_no_literal opts v Hw Hn) as (es & F & _ & Hrun).
      rewrite Hrun. apply IH. now apply apply_events_only_detections.
    + exists h, s. now split.
Qed.

(** X22.  On a well-formed tree with no node of the kind ['NumericLiteral']
    (a tree whose literals are of the kind ['Literal'], for one) constant
    folding, algebraic simplification and dead-code elimination return the
    tree and record nothing, and [optimize] succeeds and returns the tree
    with these three counters at 0, no warning and no error; without the
    detection of common subexpressions the statistics and the log are
    empty. *)
Theorem optimize_without_numeric_literals :
  forall (opts : options) (o : Optimizer) (v : value),
    well_formed v = true ->
    no_literal v = true ->
    writes (constantFolding v) (Normal (Some v)) []
    /\ writes (algebraicSimplification v) (Normal (Some v)) []
    /\ writes (deadCodeElimination v) (Normal (Some v)) []
    /\ (let r := fst (optimize opts o v) in
        success r = true
        /\ optimizedAST r = Some v
        /\ constantFoldings (statistics r) = 0
        /\ algebraicSimplifications (statistics r) = 0
        /\ deadCodeEliminations (statistics r) = 0
        /\ warnings r = []
        /\ errors r = []
        /\ (enableCommonSubexpressionElimination opts = false ->
            statistics r = statistics new_result /\ optimizations r = [])).
Proof.
  intros opts o v Hw Hn.
  split; [intros s; now apply constantFolding_no_literal|].
  split; [intros s; now apply algebraicSimplification_no_literal|].
  split; [intros s; apply deadCodeElimination_settled; now apply settled_no_literal|].
  cbv zeta. rewrite optimize_eq, optimize_body_eq.
  destruct (optimize_loop_no_literal opts v Hw Hn (maxOptimizationPasses opts) true
              (entry_state o)) as (h' & s' & E & H1 & H2 & H3 & H4 & H5).
  { repeat split. }
  rewrite E. cbn [fst set_outcome success optimizedAST statistics warnings errors
                  optimizations].
  do 7 (split; [first [reflexivity|assumption]|]).
  intros Hcse.
  destruct (performOptimizationPass_no_literal opts v Hw Hn) as (es & _ & Hes & Hrun).
  rewrite (Hes Hcse) in Hrun.
  destruct (optimize_loop_quiet opts (maxOptimizationPasses opts) (Some v) (entry_state o))
    as (h2 & s2 & E2 & _ & _ & Hlog & Hst & _).
  { exists []. now split. }
  rewrite E in E2. injection E2 as _ <-. now rewrite Hst, Hlog.
Qed.
End NoLiteralDriver.

Lemma optimize_without_numeric_literals_witness :
  optimizedAST (fst (@optimize integer_host default_options new_optimizer twice_a_plus_b))
  = Some twice_a_plus_b.
Proof.
  destruct (@optimize_without_numeric_literals integer_host default_options new_optimizer
              twice_a_plus_b eq_refl eq_refl) as (_ & _ & _ & _ & H & _).
  exact H.
Defined.

End OptMore.
